(** * A shallow embedding of the refactored-giggle compiler front-end

    The development follows the Go sources: the tokenizer ([lexer/tokenizer.go]),
    the parser ([parser/parser.go]) and the lowering visitor of package [ir].
    Stateful code is written in explicit state-passing style over records that
    mirror the Go structs; fallible code returns a [result]. *)

From Stdlib Require Import ZArith List String Ascii Lia Bool Permutation.
From Stdlib Require Import DecimalString DecimalN.
Import ListNotations.
Local Open Scope string_scope.
Local Open Scope Z_scope.
Set Warnings "-register-all".

(** ** Errors and results *)

(** Go's [error] values and panics.  [Errorf] keeps the format string of the
    [fmt.Errorf] call (its arguments are not rendered); [NumError] is the error
    of [strconv.Atoi]. *)
Inductive error : Type :=
| EOF
| Errorf (format : string)
| NumError (input : string)
| Panic (msg : string).

Inductive result (A : Type) : Type :=
| Ok (a : A)
| Err (e : error).
Arguments Ok {A} a.
Arguments Err {A} e.

Definition bind {A B : Type} (m : result A) (f : A -> result B) : result B :=
  match m with
  | Ok a => f a
  | Err e => Err e
  end.

Notation "'do' x <- m ; k" := (bind m (fun x => k))
  (at level 10, x pattern, m at level 100, k at level 200).

(** ** Machine integers and [fmt.Sprintf] *)

(** Go's [int] is 64 bits wide on the supported targets; [c++] wraps. *)
Definition wrap64 (z : Z) : Z := (z + 2 ^ 63) mod 2 ^ 64 - 2 ^ 63.

Definition max_int : Z := 2 ^ 63 - 1.

Fixpoint zeros (n : nat) : string :=
  match n with
  | O => ""
  | S n' => String "0" (zeros n')
  end.

(** Left padding with ['0'] up to a minimal width. *)
Definition pad0 (width : nat) (s : string) : string :=
  zeros (width - String.length s) ++ s.

Definition digits (z : Z) : string :=
  NilEmpty.string_of_uint (N.to_uint (Z.to_N z)).

(** The verb [%04d]: at least four characters, zero padded, the sign first. *)
Definition sprintf_04d (z : Z) : string :=
  if z <? 0 then String "-" (pad0 3 (digits (- z))) else pad0 4 (digits z).

(** [fmt.Sprintf("L%04d_%s", n, tag)] *)
Definition sprintf_label (n : Z) (tag : string) : string :=
  "L" ++ sprintf_04d n ++ "_" ++ tag.

(** [fmt.Sprintf("_%s_%04d", prefix, n)] *)
Definition sprintf_ident (prefix : string) (n : Z) : string :=
  "_" ++ prefix ++ "_" ++ sprintf_04d n.

(** ** The abstract syntax tree, as the lowering visitor reads it *)

Module ast.

Inductive TypeKind : Type :=
| TypeUnknown | TypeInt | TypeBool | TypeString | TypeVoid
| TypePointer | TypeArray | TypeAny | TypeVararg.

(** [ast.Type]; a [*Type] is an [option Type_].  The fields [Size] and [Loc]
    are read by none of the functions embedded here. *)
Inductive Type_ : Type :=
| mkType (Kind : TypeKind) (Elem : option Type_).

Definition Kind (t : Type_) : TypeKind := let 'mkType k _ := t in k.
Definition Elem (t : Type_) : option Type_ := let 'mkType _ e := t in e.

Definition TypeKind_eqb (a b : TypeKind) : bool :=
  match a, b with
  | TypeUnknown, TypeUnknown | TypeInt, TypeInt | TypeBool, TypeBool
  | TypeString, TypeString | TypeVoid, TypeVoid | TypePointer, TypePointer
  | TypeArray, TypeArray | TypeAny, TypeAny | TypeVararg, TypeVararg => true
  | _, _ => false
  end.

(** [ast.BinOpKind] is a string type; [BinOpOther] stands for any value
    outside the sixteen constants. *)
Inductive BinOpKind : Type :=
| BinOpAdd | BinOpSub | BinOpMul | BinOpDiv
| BinOpShl | BinOpShr | BinOpAnd | BinOpOr
| BinOpLogAnd | BinOpLogOr
| BinOpEq | BinOpNe | BinOpLt | BinOpLe | BinOpGt | BinOpGe
| BinOpOther (s : string).

Inductive Expression : Type :=
| Literal (Type_' : option Type_) (IntValue : Z) (BoolValue : bool)
          (StringValue : string)
| VariableRef (Ident : string) (Type_' : option Type_)
| Deref (Expr : Expression) (Type_' : option Type_)
| Binop (Operation : BinOpKind) (Lhs Rhs : Expression)
        (Type_' : option Type_)
| Call (Ident : string) (Args : list Arg) (Type_' : option Type_)
with Arg : Type :=
| mkArg (Value : Expression) (ArgType : option Type_).

Definition Value (a : Arg) : Expression := let 'mkArg e _ := a in e.
Definition ArgType (a : Arg) : option Type_ := let 'mkArg _ t := a in t.

(** [ast.Instruction].  A [*ast.Call] is both an expression and an
    instruction; a [*ast.Body] is an instruction when it is an [Else]. *)
Inductive Instruction : Type :=
| Declare_ (Ident : string) (Type_' : option Type_)
| Assign (LHS : Expression) (Value : Expression)
| CallInstr (Ident : string) (Args : list Arg) (Type_' : option Type_)
| Return (Value : option Expression)
| If (Init : list Instruction) (Cond : Expression)
     (Then : list Instruction) (Else : option Instruction)
| For (Init : list Instruction) (Cond : Expression)
      (Post : list Instruction) (Body : list Instruction)
| Body (Instructions : list Instruction).

Inductive AttrKey : Type :=
| AttrKeyExtern | AttrKeyExport | AttrKeyLinkname
| AttrKeyPure | AttrKeyInline | AttrKeyPrivate.

Definition AttrKey_eqb (a b : AttrKey) : bool :=
  match a, b with
  | AttrKeyExtern, AttrKeyExtern | AttrKeyExport, AttrKeyExport
  | AttrKeyLinkname, AttrKeyLinkname | AttrKeyPure, AttrKeyPure
  | AttrKeyInline, AttrKeyInline | AttrKeyPrivate, AttrKeyPrivate => true
  | _, _ => false
  end.

Inductive AttrValue : Type :=
| AttrString (s : string)
| AttrInt (n : Z).

(** [ast.Attributes] is [map[AttrKey]AttrValue]; a flag such as [extern] is
    stored with the nil interface value, here [None].  The first binding of
    a key is the map's binding. *)
Definition Attributes : Type := list (AttrKey * option AttrValue).

Fixpoint attr_lookup (k : AttrKey) (m : Attributes)
  : option (option AttrValue) :=
  match m with
  | [] => None
  | (k', v) :: m' => if AttrKey_eqb k k' then Some v else attr_lookup k m'
  end.

Record FuncParam : Type := mkFuncParam {
  fp_Ident : string;
  fp_Type : option Type_;
  fp_Attributes : Attributes;
  fp_Value : option Expression
}.

Record FuncDef : Type := mkFuncDef {
  fd_Ident : string;
  fd_Attributes : Attributes;
  fd_Params : list FuncParam;
  fd_ReturnType : option Type_;
  fd_Body : option (list Instruction)
}.

(** The unit's [Types] and [Data] are lowered to nothing and kept only by
    their number. *)
Record CompilationUnit : Type := mkCompilationUnit {
  cu_Ident : string;
  cu_Attributes : Attributes;
  cu_Types : nat;
  cu_Data : nat;
  cu_Funcs : list FuncDef
}.

End ast.

(** ** The intermediate representation and the lowering visitor (package ir) *)

Module ir.

Definition Ident : Type := string.

Inductive BaseTy : Type := BaseWord | BaseLong | BaseSingle | BaseDouble.

(** Only [NewAbiTyBase] is used by the lowering. *)
Inductive AbiTy : Type := AbiTyBase (b : BaseTy).
Definition NewAbiTyBase (b : BaseTy) : AbiTy := AbiTyBase b.

(** An IR value: an integer constant, a global symbol, or a local SSA
    identifier.  The visitor passes values around as [*Val], which may be
    nil: an operand is an [option Val]. *)
Inductive Val : Type :=
| ValInteger (i : Z)
| ValGlobal (ident : Ident)
| ValIdent (ident : Ident).

Definition NewValInteger (i : Z) : option Val := Some (ValInteger i).
Definition NewValGlobal (ident : Ident) : option Val := Some (ValGlobal ident).
Definition NewValIdent (ident : Ident) : option Val := Some (ValIdent ident).

Inductive BinOpKind : Type :=
| BinOpAdd | BinOpSub | BinOpMul | BinOpDiv
| BinOpEq | BinOpNe | BinOpLt | BinOpLe | BinOpGt | BinOpGe
| BinOpShl | BinOpShr | BinOpAnd | BinOpOr.

Record Arg : Type := NewArgRegular { arg_AbiTy : AbiTy; arg_Val : option Val }.

Inductive Instruction : Type :=
| Binop (op : BinOpKind) (dest lhs rhs : option Val)
| Call (ret : option (Ident * AbiTy)) (callee : option Val) (args : list Arg)
| Ret (val : option (option Val))
| Jnz (cond : option Val) (ifTrue ifFalse : string)
| Jmp (label : string)
| Label (name : string)
| Load (dest addr : option Val)
| Store (addr val : option Val).

Definition NewBinop := Binop.
Definition NewCall (callee : option Val) (args : list Arg) : Instruction :=
  Call None callee args.
(** [NewRet()] and [NewRet(val)] *)
Definition NewRet (val : option (option Val)) : Instruction := Ret val.
Definition NewJnz := Jnz.
Definition NewJmp := Jmp.
Definition NewLabel := Label.
Definition NewLoad := Load.
Definition NewStore := Store.

(** Modelled from the spec: [Call.WithRet] is not among the sources; the
    spec's [Call{optional dest+abi, callee, args}] has the fresh temporary
    "allocated and attached" to the call. *)
Definition WithRet (c : Instruction) (lhs : Ident) (retTy : AbiTy)
  : Instruction :=
  match c with
  | Call _ callee args => Call (Some (lhs, retTy)) callee args
  | i => i
  end.

Inductive DataItem : Type :=
| DataItemString (s : string)
| DataItemInteger (i : Z).

Record DataDef : Type := NewDataDef {
  dd_Ident : Ident;
  dd_Initializer : list DataItem
}.

(** The bytes of the string followed by a zero byte. *)
Definition NewDataDefStringZ (ident : Ident) (val : string) : DataDef :=
  NewDataDef ident [DataItemString val; DataItemInteger 0].

Record Param : Type := NewParamRegular { p_AbiTy : AbiTy; p_Ident : Ident }.

Inductive Linkage : Type := LinkageExport.
Definition NewLinkageExport : Linkage := LinkageExport.

Record Block : Type := mkBlock {
  b_Label : string;
  b_Instructions : list Instruction
}.

Record FuncDef : Type := mkFuncDef {
  fd_Ident : Ident;
  fd_LinkName : Ident;
  fd_Linkage : option Linkage;
  fd_RetTy : option AbiTy;
  fd_Params : list Param;
  fd_Blocks : list Block
}.

Definition NewFuncDef (ident : Ident) (params : list Param) : FuncDef :=
  mkFuncDef ident "" None None params [].
Definition fd_WithLinkName (fd : FuncDef) (n : Ident) : FuncDef :=
  mkFuncDef (fd_Ident fd) n (fd_Linkage fd) (fd_RetTy fd) (fd_Params fd)
            (fd_Blocks fd).
Definition WithRetTy (fd : FuncDef) (t : AbiTy) : FuncDef :=
  mkFuncDef (fd_Ident fd) (fd_LinkName fd) (fd_Linkage fd) (Some t)
            (fd_Params fd) (fd_Blocks fd).
Definition WithLinkage (fd : FuncDef) (l : Linkage) : FuncDef :=
  mkFuncDef (fd_Ident fd) (fd_LinkName fd) (Some l) (fd_RetTy fd)
            (fd_Params fd) (fd_Blocks fd).
Definition WithBlocks (fd : FuncDef) (bs : list Block) : FuncDef :=
  mkFuncDef (fd_Ident fd) (fd_LinkName fd) (fd_Linkage fd) (fd_RetTy fd)
            (fd_Params fd) (fd_Blocks fd ++ bs).

Record CompilationUnit : Type := mkCompilationUnit {
  DataDefs : list DataDef;
  FuncDefs : list FuncDef
}.

Definition NewCompilationUnit : CompilationUnit := mkCompilationUnit [] [].

(** The visitor's mutable state. *)
Record visitor : Type := mkVisitor {
  unit : CompilationUnit;
  lastVal : option Val;
  lastType : option ast.Type_;
  lastParam : option Param;
  lastInstructions : list Instruction;
  tmpCounter : Z;
  labelCounter : Z
}.

Definition newVisitor : visitor :=
  mkVisitor NewCompilationUnit None None None [] 0 0.

Definition set_unit (u : CompilationUnit) (v : visitor) : visitor :=
  mkVisitor u (lastVal v) (lastType v) (lastParam v) (lastInstructions v)
            (tmpCounter v) (labelCounter v).
Definition set_lastVal (x : option Val) (v : visitor) : visitor :=
  mkVisitor (unit v) x (lastType v) (lastParam v) (lastInstructions v)
            (tmpCounter v) (labelCounter v).
Definition set_lastType (t : option ast.Type_) (v : visitor) : visitor :=
  mkVisitor (unit v) (lastVal v) t (lastParam v) (lastInstructions v)
            (tmpCounter v) (labelCounter v).
Definition set_lastParam (p : option Param) (v : visitor) : visitor :=
  mkVisitor (unit v) (lastVal v) (lastType v) p (lastInstructions v)
            (tmpCounter v) (labelCounter v).
Definition set_lastInstructions (l : list Instruction) (v : visitor)
  : visitor :=
  mkVisitor (unit v) (lastVal v) (lastType v) (lastParam v) l
            (tmpCounter v) (labelCounter v).
Definition set_tmpCounter (c : Z) (v : visitor) : visitor :=
  mkVisitor (unit v) (lastVal v) (lastType v) (lastParam v)
            (lastInstructions v) c (labelCounter v).
Definition set_labelCounter (c : Z) (v : visitor) : visitor :=
  mkVisitor (unit v) (lastVal v) (lastType v) (lastParam v)
            (lastInstructions v) (tmpCounter v) c.

Definition add_DataDef (d : DataDef) (v : visitor) : visitor :=
  set_unit (mkCompilationUnit (DataDefs (unit v) ++ [d]) (FuncDefs (unit v))) v.
Definition add_FuncDef (f : FuncDef) (v : visitor) : visitor :=
  set_unit (mkCompilationUnit (DataDefs (unit v)) (FuncDefs (unit v) ++ [f])) v.

(** [nextLabel]: [v.labelCounter++] and the formatted name. *)
Definition nextLabel (tag : string) (v : visitor) : string * visitor :=
  let c := wrap64 (labelCounter v + 1) in
  (sprintf_label c tag, set_labelCounter c v).

(** [nextIdent]: [v.tmpCounter++] and the formatted name, whatever the
    prefix. *)
Definition nextIdent (prefix : string) (v : visitor) : Ident * visitor :=
  let c := wrap64 (tmpCounter v + 1) in
  (sprintf_ident prefix c, set_tmpCounter c v).

Definition is_Label (i : Instruction) : bool :=
  match i with Label _ => true | _ => false end.
Definition is_Ret (i : Instruction) : bool :=
  match i with Ret _ => true | _ => false end.

(** The last element of a slice, if any. *)
Definition last_instr (l : list Instruction) : option Instruction :=
  match rev l with
  | [] => None
  | i :: _ => Some i
  end.

Definition appendInstruction (instr : Instruction) (v : visitor) : visitor :=
  if is_Label instr then
    set_lastInstructions (lastInstructions v ++ [instr]) v
  else
    let v1 :=
      match last_instr (lastInstructions v) with
      | Some (Ret _) =>
          let '(label, v') := nextLabel "block" v in
          set_lastInstructions (lastInstructions v' ++ [NewLabel label]) v'
      | _ => v
      end in
    set_lastInstructions (lastInstructions v1 ++ [instr]) v1.

Definition mapTypeToAbiTy (ty : option ast.Type_) : AbiTy :=
  match ty with
  | None => NewAbiTyBase BaseWord
  | Some t =>
      match ast.Kind t with
      | ast.TypeInt => NewAbiTyBase BaseWord
      | ast.TypeString => NewAbiTyBase BaseLong
      | ast.TypePointer => NewAbiTyBase BaseLong
      | _ => NewAbiTyBase BaseWord
      end
  end.

Definition binOpMap (op : ast.BinOpKind) : option BinOpKind :=
  match op with
  | ast.BinOpAdd => Some BinOpAdd
  | ast.BinOpSub => Some BinOpSub
  | ast.BinOpMul => Some BinOpMul
  | ast.BinOpDiv => Some BinOpDiv
  | ast.BinOpEq => Some BinOpEq
  | ast.BinOpNe => Some BinOpNe
  | ast.BinOpLt => Some BinOpLt
  | ast.BinOpLe => Some BinOpLe
  | ast.BinOpGt => Some BinOpGt
  | ast.BinOpGe => Some BinOpGe
  | ast.BinOpShl => Some BinOpShl
  | ast.BinOpShr => Some BinOpShr
  | ast.BinOpAnd => Some BinOpAnd
  | ast.BinOpOr => Some BinOpOr
  | _ => None
  end.

Definition isPointer (t : option ast.Type_) : bool :=
  match t with
  | Some t' => ast.TypeKind_eqb (ast.Kind t') ast.TypePointer
  | None => false
  end.

Definition isAddSub (op : ast.BinOpKind) : bool :=
  match op with
  | ast.BinOpAdd | ast.BinOpSub => true
  | _ => false
  end.

Definition VisitLiteral (ty : option ast.Type_) (IntValue : Z)
           (BoolValue : bool) (StringValue : string) (v : visitor)
  : result visitor :=
  match ty with
  | None => Err (Panic "literal has nil type")
  | Some t =>
      do v1 <-
        match ast.Kind t with
        | ast.TypeInt => Ok (set_lastVal (NewValInteger IntValue) v)
        | ast.TypeBool =>
            if BoolValue then Ok (set_lastVal (NewValInteger 1) v)
            else Ok (set_lastVal (NewValInteger 0) v)
        | ast.TypeString =>
            let '(ident, v1) := nextIdent "str" v in
            let v2 := add_DataDef (NewDataDefStringZ ident StringValue) v1 in
            Ok (set_lastVal (NewValGlobal ident) v2)
        | _ => Err (Panic "unsupported literal type: ")
        end;
      Ok (set_lastType ty v1)
  end.

Definition VisitVariableRef (Ident : string) (ty : option ast.Type_)
           (v : visitor) : visitor :=
  set_lastType ty (set_lastVal (NewValIdent Ident) v).

(** The link name of the first lowered function of that name that has
    one. *)
Fixpoint calleeIdent (ident : Ident) (fds : list FuncDef) : Ident :=
  match fds with
  | [] => ident
  | fd :: fds' =>
      if String.eqb (fd_Ident fd) ident
         && negb (String.eqb (fd_LinkName fd) "")
      then fd_LinkName fd
      else calleeIdent ident fds'
  end.

(** The part of [VisitCall] after the arguments are lowered. *)
Definition finishCall (calleeVal : option Val) (args : list Arg)
           (ty : option ast.Type_) (v : visitor) : visitor :=
  let '(tmp, v1) := nextIdent "tmp" v in
  let retVal := NewValIdent tmp in
  let call := NewCall calleeVal args in
  let call :=
    match ty with
    | Some t =>
        if negb (ast.TypeKind_eqb (ast.Kind t) ast.TypeVoid)
        then WithRet call tmp (mapTypeToAbiTy ty)
        else call
    | None => call
    end in
  set_lastVal retVal (appendInstruction call v1).

(** The two short-circuit arms of [VisitBinop], after the left operand is
    lowered and [result] is allocated; [lowerRhs] is [b.Rhs.Accept(v)]. *)
Definition shortCircuit (isAnd : bool) (left res : option Val)
           (lowerRhs : visitor -> result visitor) (v : visitor)
  : result visitor :=
  let '(trueLabel, v) := nextLabel "true" v in
  let '(falseLabel, v) := nextLabel "false" v in
  let '(endLabel, v) := nextLabel "end" v in
  let v := appendInstruction (NewJnz left trueLabel falseLabel) v in
  let v := appendInstruction
             (NewLabel (if isAnd then falseLabel else trueLabel)) v in
  let v := appendInstruction
             (NewBinop BinOpAdd res left (NewValInteger 0)) v in
  let v := appendInstruction (NewJmp endLabel) v in
  let v := appendInstruction
             (NewLabel (if isAnd then trueLabel else falseLabel)) v in
  do v <- lowerRhs v;
  let right := lastVal v in
  let v := appendInstruction
             (NewBinop BinOpAdd res right (NewValInteger 0)) v in
  let v := appendInstruction (NewLabel endLabel) v in
  Ok (set_lastVal res v).

(** The part of [VisitBinop] after both operands are lowered: the operator
    map, the scaling of pointer arithmetic and the emitted operation. *)
Definition arithBinop (op : ast.BinOpKind) (ty : option ast.Type_)
           (left : option Val) (leftType : option ast.Type_)
           (res : option Val) (v : visitor) : result visitor :=
  let right := lastVal v in
  let rightType := lastType v in
  match binOpMap op with
  | None => Err (Panic "unsupported binary operation: ")
  | Some irOp =>
      let isLhsPtr := isPointer leftType in
      let isRhsPtr := isPointer rightType in
      if isAddSub op && negb (Bool.eqb isLhsPtr isRhsPtr) then
        let elemSize : Z := 4 in
        let ptrSide := if isLhsPtr then left else right in
        let intSide := if isLhsPtr then right else left in
        let ptrType := if isLhsPtr then leftType else rightType in
        let elemSize :=
          match ptrType with
          | Some pt =>
              match ast.Elem pt with
              | Some el =>
                  if ast.TypeKind_eqb (ast.Kind el) ast.TypeInt then 4
                  else elemSize
              | None => elemSize
              end
          | None => elemSize
          end in
        if negb (elemSize =? 1) then
          let '(idx, v) := nextIdent "idx" v in
          let tmpScaled := NewValIdent idx in
          let v := appendInstruction
                     (NewBinop BinOpMul tmpScaled intSide
                               (NewValInteger elemSize)) v in
          let v := appendInstruction
                     (NewBinop irOp res ptrSide tmpScaled) v in
          Ok (set_lastType ty (set_lastVal res v))
        else
          let v := appendInstruction (NewBinop irOp res left right) v in
          Ok (set_lastType ty (set_lastVal res v))
      else
        let v := appendInstruction (NewBinop irOp res left right) v in
        Ok (set_lastType ty (set_lastVal res v))
  end.

(** The argument loop of [VisitCall]; [visit] is [arg.Value.Accept(v)]. *)
Definition lowerArgs (visit : ast.Expression -> visitor -> result visitor)
  : list ast.Arg -> list Arg -> visitor -> result (list Arg * visitor) :=
  fix go (l : list ast.Arg) (acc : list Arg) (v : visitor)
    : result (list Arg * visitor) :=
    match l with
    | [] => Ok (acc, v)
    | a :: l' =>
        do v <- visit (ast.Value a) (set_lastVal None v);
        go l' (acc ++ [NewArgRegular (mapTypeToAbiTy (ast.ArgType a))
                                     (lastVal v)])%list v
    end.

(** [e.Accept(v)] for an expression: [VisitLiteral], [VisitVariableRef],
    [VisitDeref], [VisitBinop] and [VisitCall]. *)
Fixpoint VisitExpression (e : ast.Expression) (v : visitor)
  : result visitor :=
  match e with
  | ast.Literal ty i b s => VisitLiteral ty i b s v
  | ast.VariableRef id ty => Ok (VisitVariableRef id ty v)
  | ast.Deref d ty =>
      do v <- VisitExpression d v;
      let addr := lastVal v in
      let '(tmp, v) := nextIdent "tmp" v in
      let v := appendInstruction (NewLoad (NewValIdent tmp) addr) v in
      Ok (set_lastType ty (set_lastVal (NewValIdent tmp) v))
  | ast.Binop op lhs rhs ty =>
      let v := set_lastType None (set_lastVal None v) in
      do v <- VisitExpression lhs v;
      let left := lastVal v in
      let leftType := lastType v in
      let '(tmp, v) := nextIdent "tmp" v in
      let res := NewValIdent tmp in
      match op with
      | ast.BinOpLogAnd =>
          shortCircuit true left res (VisitExpression rhs) v
      | ast.BinOpLogOr =>
          shortCircuit false left res (VisitExpression rhs) v
      | _ =>
          let v := set_lastType None (set_lastVal None v) in
          do v <- VisitExpression rhs v;
          arithBinop op ty left leftType res v
      end
  | ast.Call id args ty =>
      let calleeVal := NewValGlobal (calleeIdent id (FuncDefs (unit v))) in
      do (irArgs, v) <- lowerArgs VisitExpression args [] v;
      Ok (finishCall calleeVal irArgs ty v)
  end.

(** [for _, x := range xs { x.Accept(v) }] *)
Definition visitAll {A : Type} (visit : A -> visitor -> result visitor)
  : list A -> visitor -> result visitor :=
  fix go (l : list A) (v : visitor) : result visitor :=
    match l with
    | [] => Ok v
    | a :: l' => do v <- visit a v; go l' v
    end.

Definition VisitCall (id : string) (args : list ast.Arg)
           (ty : option ast.Type_) (v : visitor) : result visitor :=
  VisitExpression (ast.Call id args ty) v.

(** [VisitAssign] *)
Definition VisitAssign (lhs value : ast.Expression) (v : visitor)
  : result visitor :=
  let v := set_lastVal None v in
  do v <- VisitExpression value v;
  let val := lastVal v in
  let v := set_lastVal None v in
  match lhs with
  | ast.Deref e _ =>
      do v <- VisitExpression e v;
      let addr := lastVal v in
      Ok (appendInstruction (NewStore addr val) v)
  | ast.VariableRef id ty =>
      let v := VisitVariableRef id ty v in
      let lhsVal := lastVal v in
      let zero := NewValInteger 0 in
      Ok (appendInstruction (NewBinop BinOpAdd lhsVal val zero) v)
  | _ => Err (Panic "unsupported LHS in assignment")
  end.

(** [VisitReturn] *)
Definition VisitReturn (value : option ast.Expression) (v : visitor)
  : result visitor :=
  match value with
  | None => Ok (appendInstruction (NewRet None) v)
  | Some e =>
      let v := set_lastVal None v in
      do v <- VisitExpression e v;
      let val := lastVal v in
      Ok (appendInstruction (NewRet (Some val)) v)
  end.

(** [i.Accept(v)] for an instruction: [VisitDeclare], [VisitAssign],
    [VisitCall], [VisitReturn], [VisitIf], [VisitFor] and [VisitBody]. *)
Fixpoint VisitInstruction (i : ast.Instruction) (v : visitor)
  : result visitor :=
  match i with
  | ast.Declare_ _ _ => Ok v
  | ast.Assign lhs value => VisitAssign lhs value v
  | ast.CallInstr id args ty => VisitCall id args ty v
  | ast.Return value => VisitReturn value v
  | ast.If init cond thn els =>
      let '(trueLabel, v) := nextLabel "then" v in
      let '(falseLabel, v) := nextLabel "else" v in
      let '(endLabel, v) := nextLabel "end" v in
      do v <- visitAll VisitInstruction init v;
      do v <- VisitExpression cond v;
      let condVal := lastVal v in
      let v := appendInstruction (NewJnz condVal trueLabel falseLabel) v in
      let v := appendInstruction (NewLabel trueLabel) v in
      do v <- visitAll VisitInstruction thn v;
      let v := appendInstruction (NewJmp endLabel) v in
      let v := appendInstruction (NewLabel falseLabel) v in
      do v <- match els with
              | Some e => VisitInstruction e v
              | None => Ok v
              end;
      Ok (appendInstruction (NewLabel endLabel) v)
  | ast.For init cond post body =>
      let '(startLabel, v) := nextLabel "for" v in
      let '(bodyLabel, v) := nextLabel "body" v in
      let '(endLabel, v) := nextLabel "end" v in
      do v <- visitAll VisitInstruction init v;
      let v := appendInstruction (NewLabel startLabel) v in
      do v <- VisitExpression cond v;
      let condVal := lastVal v in
      let v := appendInstruction (NewJnz condVal bodyLabel endLabel) v in
      let v := appendInstruction (NewLabel bodyLabel) v in
      do v <- visitAll VisitInstruction body v;
      do v <- visitAll VisitInstruction post v;
      let v := appendInstruction (NewJmp startLabel) v in
      Ok (appendInstruction (NewLabel endLabel) v)
  | ast.Body l => visitAll VisitInstruction l v
  end.

Definition VisitBody (b : list ast.Instruction) (v : visitor)
  : result visitor :=
  visitAll VisitInstruction b v.

Definition VisitFuncParam (fp : ast.FuncParam) (v : visitor) : visitor :=
  set_lastParam
    (Some (NewParamRegular (mapTypeToAbiTy (ast.fp_Type fp))
                           (ast.fp_Ident fp))) v.

(** The parameter loop of [VisitFuncDef]. *)
Fixpoint lowerParams (ps : list ast.FuncParam) (params : list Param)
         (v : visitor) : list Param * visitor :=
  match ps with
  | [] => (params, v)
  | p :: ps' =>
      let v := set_lastParam None v in
      let v := VisitFuncParam p v in
      let params :=
        match lastParam v with
        | Some q => (params ++ [q])%list
        | None => params
        end in
      lowerParams ps' params v
  end.

Definition VisitFuncDef (fd : ast.FuncDef) (v : visitor) : result visitor :=
  let v := set_labelCounter 0 v in
  let v := set_lastInstructions [] v in
  let '(params, v) := lowerParams (ast.fd_Params fd) [] v in
  let irFunc := NewFuncDef (ast.fd_Ident fd) params in
  do irFunc <-
    match ast.attr_lookup ast.AttrKeyLinkname (ast.fd_Attributes fd) with
    | Some (Some (ast.AttrString s)) => Ok (fd_WithLinkName irFunc s)
    | Some (Some (ast.AttrInt _)) =>
        Err (Panic "link_name attribute must be a string")
    | Some None => Err (Panic "nil pointer dereference")
    | None => Ok irFunc
    end;
  let irFunc :=
    match ast.fd_ReturnType fd with
    | Some t =>
        if negb (ast.TypeKind_eqb (ast.Kind t) ast.TypeVoid)
        then WithRetTy irFunc (mapTypeToAbiTy (ast.fd_ReturnType fd))
        else irFunc
    | None => irFunc
    end in
  let irFunc :=
    match ast.attr_lookup ast.AttrKeyExport (ast.fd_Attributes fd) with
    | Some _ => WithLinkage irFunc NewLinkageExport
    | None => irFunc
    end in
  do (irFunc, v) <-
    match ast.fd_Body fd with
    | Some body =>
        do v <- VisitBody body v;
        Ok (WithBlocks irFunc [mkBlock "start" (lastInstructions v)], v)
    | None => Ok (irFunc, v)
    end;
  Ok (add_FuncDef irFunc v).

(** The type and data definitions of the unit are lowered to nothing. *)
Definition VisitCompilationUnit (cu : ast.CompilationUnit) (v : visitor)
  : result visitor :=
  visitAll VisitFuncDef (ast.cu_Funcs cu) v.

(** [Lower]: the unit of the visitor after the visit; a panic of the visit
    is the only failure. *)
Definition Lower (cu : ast.CompilationUnit) : result CompilationUnit :=
  do v <- VisitCompilationUnit cu newVisitor;
  Ok (unit v).

End ir.

(** ** The tokenizer (package lexer) *)

Module lexer.

(** [TokenType] and [Keyword] are string types. *)
Definition TokenType : Type := string.
Definition TypeEOF : TokenType := "EOF".
Definition TypeIdent : TokenType := "Identifier".
Definition TypeKeyword : TokenType := "Keyword".
Definition TypeNumber : TokenType := "Number".
Definition TypeString : TokenType := "String".
Definition TypeLparen : TokenType := "LeftParen".
Definition TypeRparen : TokenType := "RightParen".
Definition TypeLbrace : TokenType := "LeftBrace".
Definition TypeRbrace : TokenType := "RightBrace".
Definition TypeComma : TokenType := "Comma".
Definition TypeArrow : TokenType := "Arrow".
Definition TypeColon : TokenType := "Colon".
Definition TypeAt : TokenType := "At".
Definition TypeEquals : TokenType := "Equals".
Definition TypePlus : TokenType := "Plus".

Definition Keyword : Type := string.
Definition KeywordFunc : Keyword := "func".
Definition KeywordReturn : Keyword := "return".
Definition KeywordInt : Keyword := "int".
Definition KeywordString : Keyword := "string".
Definition KeywordVoid : Keyword := "void".
Definition KeywordPackage : Keyword := "package".

(** Modelled from the spec: the type [Location] is not among the sources; of
    the spec's [{file, line, column, offset}] only the offset is kept. *)
Definition Location : Type := nat.

Record Token : Type := mkToken {
  Type_ : TokenType;
  Keyword_ : Keyword;
  Identifier : string;
  StringVal : string;
  NumberVal : Z;
  Location_ : Location
}.

(** [Token{}] *)
Definition Token0 : Token := mkToken "" "" "" "" 0 0%nat.

Definition checkKeyword (ident : string) : Keyword * bool :=
  if String.eqb ident "func" then (KeywordFunc, true)
  else if String.eqb ident "return" then (KeywordReturn, true)
  else if String.eqb ident "int" then (KeywordInt, true)
  else if String.eqb ident "string" then (KeywordString, true)
  else if String.eqb ident "void" then (KeywordVoid, true)
  else if String.eqb ident "package" then (KeywordPackage, true)
  else ("", false).

(** Modelled from the spec: the [Scanner] is not among the sources; it is
    the spec's "byte stream with line/column tracking and small pushback".
    The bytes read so far are kept, the last one first, so that [Unread] can
    give them back. *)
Record Scanner : Type := mkScanner {
  consumed : list ascii;
  rest : list ascii
}.

Definition NewScanner (input : string) : Scanner :=
  mkScanner [] (list_ascii_of_string input).

Definition Scanner_Next (s : Scanner) : result (ascii * Scanner) :=
  match rest s with
  | [] => Err EOF
  | c :: r => Ok (c, mkScanner (c :: consumed s) r)
  end.

Fixpoint Scanner_Unread (n : nat) (s : Scanner) : Scanner :=
  match n, consumed s with
  | S n', c :: p => Scanner_Unread n' (mkScanner p (c :: rest s))
  | _, _ => s
  end.

Definition Scanner_Location (s : Scanner) : Location :=
  List.length (consumed s).

Definition between (lo hi c : ascii) : bool :=
  (nat_of_ascii lo <=? nat_of_ascii c)%nat
  && (nat_of_ascii c <=? nat_of_ascii hi)%nat.

Definition isAlpha (a : ascii) : bool :=
  between "a" "z" a || between "A" "Z" a || Ascii.eqb a "_".
Definition isNumeric (d : ascii) : bool := between "0" "9" d.
Definition isAlphanumeric (a : ascii) : bool := isAlpha a || isNumeric a.
Definition isWhitespace (c : ascii) : bool :=
  Ascii.eqb c " " || Ascii.eqb c "009" || Ascii.eqb c "010"
  || Ascii.eqb c "013".

(** [strconv.Atoi] on a 64-bit target: an optional sign, decimal digits, and
    the value within the range of [int]; else its [*NumError]. *)
Definition Atoi (buf : list ascii) : result Z :=
  let s := string_of_list_ascii buf in
  let '(neg, ds) :=
    match buf with
    | c :: r =>
        if Ascii.eqb c "-" then (true, r)
        else if Ascii.eqb c "+" then (false, r) else (false, buf)
    | [] => (false, buf)
    end in
  match ds with
  | [] => Err (NumError s)
  | _ :: _ =>
      match NilEmpty.uint_of_string (string_of_list_ascii ds) with
      | None => Err (NumError s)
      | Some d =>
          let n := Z.of_N (N.of_uint d) in
          let n := if neg then - n else n in
          if (- 2 ^ 63 <=? n) && (n <=? 2 ^ 63 - 1) then Ok n
          else Err (NumError s)
      end
  end.

(** The loops of [next].  Every turn of a loop reads a byte, so the bytes that
    are left bound the turns: this is the [fuel], and a loop that is out of
    fuel, which does not happen, panics. *)

(** [for { c, err = t.Scan.Next(); …; if c == '\n' || c == '\r' { break } }] *)
Fixpoint skipComment (fuel : nat) (s : Scanner) : result Scanner :=
  match fuel with
  | O => Err (Panic "unreachable")
  | S fuel' =>
      do (c, s) <- Scanner_Next s;
      if Ascii.eqb c "010" || Ascii.eqb c "013" then Ok s
      else skipComment fuel' s
  end.

(** The loop of the string literal: up to the closing quote, a backslash and
    the byte after it kept as they are. *)
Fixpoint readString (fuel : nat) (buf : list ascii) (s : Scanner)
  : result (list ascii * Scanner) :=
  match fuel with
  | O => Err (Panic "unreachable")
  | S fuel' =>
      do (c, s) <- Scanner_Next s;
      if Ascii.eqb c "034" then Ok (buf, s)
      else if Ascii.eqb c "\" then
        do (c, s) <- Scanner_Next s;
        readString fuel' (buf ++ ["\"%char; c]) s
      else readString fuel' (buf ++ [c]) s
  end.

(** The loops of the number and of the identifier: bytes of the class
    [keep], the first other byte unread. *)
Fixpoint readWhile (keep : ascii -> bool) (fuel : nat) (buf : list ascii)
         (s : Scanner) : result (list ascii * Scanner) :=
  match fuel with
  | O => Err (Panic "unreachable")
  | S fuel' =>
      do (c, s) <- Scanner_Next s;
      if keep c then readWhile keep fuel' (buf ++ [c]) s
      else Ok (buf, Scanner_Unread 1 s)
  end.

Definition left (s : Scanner) : nat := S (List.length (rest s)).

Definition simple (ty : TokenType) (text : string) (s : Scanner)
  : result (Token * Scanner) :=
  Ok (mkToken ty "" "" text 0 (Scanner_Location s), s).

(** The loop of [next], after the buffer is found empty. *)
Fixpoint nextLoop (fuel : nat) (buf : list ascii) (s : Scanner)
  : result (Token * Scanner) :=
  match fuel with
  | O => Err (Panic "unreachable")
  | S fuel' =>
      do (c, s) <- Scanner_Next s;
      let start := Scanner_Location s in
      if Ascii.eqb c "=" then simple TypeEquals "=" s
      else if Ascii.eqb c "(" then simple TypeLparen "(" s
      else if Ascii.eqb c ")" then simple TypeRparen ")" s
      else if Ascii.eqb c "{" then simple TypeLbrace "{" s
      else if Ascii.eqb c "}" then simple TypeRbrace "}" s
      else if Ascii.eqb c "," then simple TypeComma "," s
      else if Ascii.eqb c ":" then simple TypeColon ":" s
      else if Ascii.eqb c "@" then simple TypeAt "@" s
      else if Ascii.eqb c "+" then simple TypePlus "+" s
      else if Ascii.eqb c "/" then
        do (c, s) <- Scanner_Next s;
        if Ascii.eqb c "/" then
          do s <- skipComment (left s) s;
          nextLoop fuel' buf s
        else nextLoop fuel' buf (Scanner_Unread 1 s)
      else if Ascii.eqb c "-" then
        do (c, s) <- Scanner_Next s;
        if Ascii.eqb c ">" then
          Ok (mkToken TypeArrow "" "" "->" 0 start, s)
        else if isNumeric c then
          nextLoop fuel' (buf ++ ["-"%char]) (Scanner_Unread 1 s)
        else nextLoop fuel' buf (Scanner_Unread 1 s)
      else if isWhitespace c then nextLoop fuel' buf s
      else if Ascii.eqb c "034" then
        do (buf, s) <- readString (left s) buf s;
        Ok (mkToken TypeString "" "" (string_of_list_ascii buf) 0 start, s)
      else if isNumeric c then
        let buf := (buf ++ [c])%list in
        do (buf, s) <- readWhile isNumeric (left s) buf s;
        do num <- Atoi buf;
        Ok (mkToken TypeNumber "" "" (string_of_list_ascii buf) num start, s)
      else if isAlpha c then
        let buf := (buf ++ [c])%list in
        do (buf, s) <- readWhile isAlphanumeric (left s) buf s;
        let text := string_of_list_ascii buf in
        let '(kw, ok) := checkKeyword text in
        if ok then Ok (mkToken TypeKeyword kw text text 0 start, s)
        else Ok (mkToken TypeIdent "" text text 0 start, s)
      else nextLoop fuel' buf s
  end.

Record Tokenizer : Type := mkTokenizer {
  Scan : Scanner;
  Buffer : list Token
}.

Definition NewTokenizer (scan : Scanner) : Tokenizer := mkTokenizer scan [].

Definition next (t : Tokenizer) : result (Token * Tokenizer) :=
  match Buffer t with
  | token :: b => Ok (token, mkTokenizer (Scan t) b)
  | [] =>
      do (token, s) <- nextLoop (left (Scan t)) [] (Scan t);
      Ok (token, mkTokenizer s [])
  end.

(** The loop of [Tokens]: every token but the buffered ones reads a byte. *)
Fixpoint tokensLoop (fuel : nat) (tokens : list Token) (t : Tokenizer)
  : result (list Token) :=
  match fuel with
  | O => Err (Panic "unreachable")
  | S fuel' =>
      match next t with
      | Ok (token, t) => tokensLoop fuel' (tokens ++ [token]) t
      | Err EOF => Ok tokens
      | Err e => Err e
      end
  end.

Definition Tokens (t : Tokenizer) : result (list Token) :=
  tokensLoop (left (Scan t) + List.length (Buffer t)) [] t.

(** The tokens of a source text. *)
Definition tokenize (input : string) : result (list Token) :=
  Tokens (NewTokenizer (NewScanner input)).

End lexer.

(** ** The parser (package parser) *)

Module parser.

(** Modelled from the spec: the lexer that feeds this parser is not among
    the sources.  [lexer.TokenType] is a string type; the constants are those
    that the parser names, taken to be distinct, and [TypeOther] stands for
    any other value, [TypeOther ""] being the type of the zero [Token{}]. *)
Inductive TokenType : Type :=
| TypeIdent | TypeKeyword | TypeNumber | TypeString | TypeBool
| TypeLparen | TypeRparen | TypeLbrace | TypeRbrace
| TypeComma | TypeArrow | TypeColon | TypeSemicolon | TypeAt
| TypeAssign | TypeCaret
| TypePlus | TypeMinus | TypeStar | TypeSlash | TypeShl | TypeShr
| TypeBinAnd | TypeBinOr | TypeLogAnd | TypeLogOr
| TypeEq | TypeNe | TypeLt | TypeLe | TypeGt | TypeGe
| TypeOther (name : string).

Definition TokenType_eqb (a b : TokenType) : bool :=
  match a, b with
  | TypeIdent, TypeIdent | TypeKeyword, TypeKeyword | TypeNumber, TypeNumber
  | TypeString, TypeString | TypeBool, TypeBool | TypeLparen, TypeLparen
  | TypeRparen, TypeRparen | TypeLbrace, TypeLbrace | TypeRbrace, TypeRbrace
  | TypeComma, TypeComma | TypeArrow, TypeArrow | TypeColon, TypeColon
  | TypeSemicolon, TypeSemicolon | TypeAt, TypeAt | TypeAssign, TypeAssign
  | TypeCaret, TypeCaret | TypePlus, TypePlus | TypeMinus, TypeMinus
  | TypeStar, TypeStar | TypeSlash, TypeSlash | TypeShl, TypeShl
  | TypeShr, TypeShr | TypeBinAnd, TypeBinAnd | TypeBinOr, TypeBinOr
  | TypeLogAnd, TypeLogAnd | TypeLogOr, TypeLogOr | TypeEq, TypeEq
  | TypeNe, TypeNe | TypeLt, TypeLt | TypeLe, TypeLe | TypeGt, TypeGt
  | TypeGe, TypeGe => true
  | TypeOther s, TypeOther s' => String.eqb s s'
  | _, _ => false
  end.

(** Modelled from the spec: [lexer.Keyword], likewise. *)
Inductive Keyword : Type :=
| KeywordPackage | KeywordFunc | KeywordReturn | KeywordIf | KeywordFor
| KeywordElse | KeywordTrue | KeywordFalse
| KeywordInt | KeywordString | KeywordBool | KeywordVoid
| KeywordOther (name : string).

Definition Keyword_eqb (a b : Keyword) : bool :=
  match a, b with
  | KeywordPackage, KeywordPackage | KeywordFunc, KeywordFunc
  | KeywordReturn, KeywordReturn | KeywordIf, KeywordIf
  | KeywordFor, KeywordFor | KeywordElse, KeywordElse
  | KeywordTrue, KeywordTrue | KeywordFalse, KeywordFalse
  | KeywordInt, KeywordInt | KeywordString, KeywordString
  | KeywordBool, KeywordBool | KeywordVoid, KeywordVoid => true
  | KeywordOther s, KeywordOther s' => String.eqb s s'
  | _, _ => false
  end.

(** The fields of [lexer.Token] that the parser reads. *)
Record Token : Type := mkToken {
  Type_ : TokenType;
  Keyword_ : Keyword;
  StringVal : string;
  NumberVal : Z;
  Location_ : lexer.Location
}.

(** [lexer.Token{}] *)
Definition Token0 : Token :=
  mkToken (TypeOther "") (KeywordOther "") "" 0 0%nat.

(** The constructors of package ast are not among the sources: a tree is
    kept as the constructor calls and the struct literals by which the parser
    builds it.  An [ast.Arg{Value: expr}] is kept as [expr]. *)
Inductive Expression : Type :=
| NewIntLiteral (value : Z)
| NewBoolLiteral (value : bool)
| NewStringLiteral (value : string)
| NewVariableRef (ident : string) (kind : ast.TypeKind)
| NewDeref (expr : Expression)
| NewBinop (kind : ast.BinOpKind) (lhs rhs : Expression)
| NewCall (ident : string) (args : list Expression).

(** Modelled from the spec: [ast.NewReturn()] and [ast.NewReturn(expr)] are
    taken to build the [&ast.Return{}] of the implicit return and
    [&ast.Return{Value: expr}].  An [Else] is an [If], a [Body] or nil. *)
Inductive Instruction : Type :=
| Declare_ (Ident : string) (Type_' : ast.Type_)
| Assign (LHS Value : Expression)
| CallInstr (call : Expression)
| Return (Value : option Expression)
| If (Init : list Instruction) (Cond : Expression)
     (Then : list Instruction) (Else : option Instruction)
| For (Init : list Instruction) (Cond : Expression)
      (Post Body : list Instruction)
| Body (Instructions : list Instruction).

Definition is_Return (i : Instruction) : bool :=
  match i with Return _ => true | _ => false end.

(** [&ast.Type{Kind: kind}] *)
Definition TypeOf (kind : ast.TypeKind) : ast.Type_ := ast.mkType kind None.

Record FuncParam : Type := mkFuncParam {
  fp_Ident : string;
  fp_Type : ast.Type_;
  fp_Attributes : option ast.Attributes;
  fp_Value : option Expression
}.

Record FuncDef : Type := mkFuncDef {
  fd_Ident : string;
  fd_Attributes : ast.Attributes;
  fd_Params : list FuncParam;
  fd_ReturnType : option ast.Type_;
  fd_Body : option (list Instruction)
}.

(** Modelled from the spec: [ast.NewFuncDef] is not among the sources;
    "attributes immediately before a function declaration attach to it", so
    the function keeps the attributes as they are when it is made, whatever
    the parser does to its own map afterwards. *)
Definition NewFuncDef (ident : string) (attributes : ast.Attributes)
  : FuncDef :=
  mkFuncDef ident attributes [] None None.

Record CompilationUnit : Type := mkCompilationUnit {
  cu_Ident : string;
  cu_Attributes : ast.Attributes;
  cu_Funcs : list FuncDef
}.

Definition NewCompilationUnit : CompilationUnit := mkCompilationUnit "" [] [].

(** Modelled from the spec: [ast.ParseAttrKey] is not among the sources; the
    keys are "extern, export, linkname, pure, inline, private" and "unknown
    keys are rejected at parse time". *)
Definition ParseAttrKey (key : string) : result ast.AttrKey :=
  if String.eqb key "extern" then Ok ast.AttrKeyExtern
  else if String.eqb key "export" then Ok ast.AttrKeyExport
  else if String.eqb key "linkname" then Ok ast.AttrKeyLinkname
  else if String.eqb key "pure" then Ok ast.AttrKeyPure
  else if String.eqb key "inline" then Ok ast.AttrKeyInline
  else if String.eqb key "private" then Ok ast.AttrKeyPrivate
  else Err (Errorf "unknown attribute key: %s").

(** [m[k] = v] on a map kept as a list of bindings, the first one of a key
    being the binding of the map. *)
Definition attr_set (k : ast.AttrKey) (v : option ast.AttrValue)
           (m : ast.Attributes) : ast.Attributes :=
  (k, v) :: m.

Record Parser : Type := mkParser {
  tok : list Token;
  index : Z;
  unit : CompilationUnit;
  attributes : ast.Attributes;
  localID : Z;
  currentRetType : Keyword
}.

Definition New (tok : list Token) : Parser :=
  mkParser tok 0 NewCompilationUnit [] 0 KeywordVoid.

Definition set_index (i : Z) (p : Parser) : Parser :=
  mkParser (tok p) i (unit p) (attributes p) (localID p) (currentRetType p).
Definition set_unit (u : CompilationUnit) (p : Parser) : Parser :=
  mkParser (tok p) (index p) u (attributes p) (localID p) (currentRetType p).
Definition set_attributes (a : ast.Attributes) (p : Parser) : Parser :=
  mkParser (tok p) (index p) (unit p) a (localID p) (currentRetType p).
Definition set_currentRetType (k : Keyword) (p : Parser) : Parser :=
  mkParser (tok p) (index p) (unit p) (attributes p) (localID p) k.

(** A method of the parser that returns [(value, error)]: the parser is
    changed also when the error is not nil, and some callers go on after an
    error.  A panic is an error that every caller hands on. *)
Definition M (A : Type) : Type := Parser -> result A * Parser.

Definition ret {A : Type} (a : A) : M A := fun p => (Ok a, p).
Definition fail {A : Type} (e : error) : M A := fun p => (Err e, p).

Definition bindM {A B : Type} (m : M A) (f : A -> M B) : M B :=
  fun p =>
    match m p with
    | (Ok a, p') => f a p'
    | (Err e, p') => (Err e, p')
    end.

Notation "'run' x <- m ; k" := (bindM m (fun x => k))
  (at level 10, x pattern, m at level 100, k at level 200).

(** [p.index--] *)
Definition unread : M Datatypes.unit :=
  fun p => (Ok tt, set_index (index p - 1) p).

(** What the loops and the recursion of the model return when their fuel is
    used up; the parser itself has no such bound. *)
Definition out_of_fuel : error := Panic "out of fuel".

Definition nextToken : M Token :=
  fun p =>
    if Z.of_nat (List.length (tok p)) <=? index p then (Err EOF, p)
    else
      match (if index p <? 0 then None
             else nth_error (tok p) (Z.to_nat (index p))) with
      | Some token => (Ok token, set_index (index p + 1) p)
      | None => (Err (Panic "index out of range"), p)
      end.

(** [expectType], with both of its results: the token is returned also with
    the error of a mismatch, after it is consumed. *)
Definition expectType (tts : list TokenType) (p : Parser)
  : (Token * option error) * Parser :=
  match nextToken p with
  | (Err e, p') => ((Token0, Some e), p')
  | (Ok token, p') =>
      if existsb (TokenType_eqb (Type_ token)) tts then ((token, None), p')
      else ((token, Some (Errorf "expected %s at %s, got %s")), p')
  end.

(** [peekType]: the end of the input is its only error; after a mismatch the
    index is rolled back and the token returned without an error. *)
Definition peekType (tts : list TokenType) (p : Parser)
  : (Token * option error) * Parser :=
  let '((tok, err), p') := expectType tts p in
  match err with
  | Some EOF => ((tok, Some EOF), p')
  | Some (Panic msg) => ((tok, Some (Panic msg)), p')
  | Some _ => ((tok, None), set_index (index p' - 1) p')
  | None => ((tok, None), p')
  end.

(** [x, err := f(); if err != nil { return …, err }] *)
Definition must {A : Type} (f : Parser -> (A * option error) * Parser)
  : M A :=
  fun p =>
    match f p with
    | ((a, None), p') => (Ok a, p')
    | ((_, Some e), p') => (Err e, p')
    end.

(** [next, err := p.peekType(tt); err == nil && next.Type == tt] *)
Definition peekIs (tt : TokenType) : M bool :=
  fun p =>
    match peekType [tt] p with
    | ((next, None), p') => (Ok (TokenType_eqb (Type_ next) tt), p')
    | ((_, Some (Panic msg)), p') => (Err (Panic msg), p')
    | ((_, Some _), p') => (Ok false, p')
    end.

Definition expectKeyword (kws : list Keyword) (p : Parser)
  : (Token * option error) * Parser :=
  match expectType [TypeKeyword] p with
  | ((token, Some e), p') => ((token, Some e), p')
  | ((token, None), p') =>
      if existsb (Keyword_eqb (Keyword_ token)) kws then ((token, None), p')
      else ((token, Some (Errorf "expected %s at %s, got %s")), p')
  end.

(** The loop of [parseType] that counts the carets; every turn but the last
    consumes a token, so the tokens bound the turns. *)
Fixpoint countCarets (fuel : nat) (pointerDepth : nat) (p : Parser)
  : result nat * Parser :=
  match fuel with
  | O => (Err out_of_fuel, p)
  | S fuel' =>
      match peekType [TypeCaret] p with
      | ((_, Some (Panic msg)), p') => (Err (Panic msg), p')
      | ((_, Some _), p') => (Ok pointerDepth, p')
      | ((tok, None), p') =>
          if TokenType_eqb (Type_ tok) TypeCaret
          then countCarets fuel' (S pointerDepth) p'
          else (Ok pointerDepth, p')
      end
  end.

(** [for range pointerDepth { base = &ast.Type{Kind: TypePointer, Elem: base} }] *)
Definition pointerTo (pointerDepth : nat) (base : ast.Type_) : ast.Type_ :=
  Nat.iter pointerDepth (fun b => ast.mkType ast.TypePointer (Some b)) base.

Definition parseType : M ast.Type_ :=
  fun p =>
    (run pointerDepth <- countCarets (S (List.length (tok p))) 0;
     run tok <- must (expectType [TypeKeyword]);
     match Keyword_ tok with
     | KeywordInt => ret (pointerTo pointerDepth (TypeOf ast.TypeInt))
     | KeywordString => ret (pointerTo pointerDepth (TypeOf ast.TypeString))
     | KeywordBool => ret (pointerTo pointerDepth (TypeOf ast.TypeBool))
     | KeywordVoid => ret (pointerTo pointerDepth (TypeOf ast.TypeVoid))
     | _ => fail (Errorf "unexpected type keyword %s at %s")
     end) p.

(** Pratt parser operator info *)
Record opInfo : Type := mkOpInfo {
  precedence : Z;
  rightAssoc : bool;
  kind : ast.BinOpKind
}.

Definition opPrecedence (tt : TokenType) : option opInfo :=
  match tt with
  | TypePlus => Some (mkOpInfo 10 false ast.BinOpAdd)
  | TypeMinus => Some (mkOpInfo 10 false ast.BinOpSub)
  | TypeStar => Some (mkOpInfo 20 false ast.BinOpMul)
  | TypeSlash => Some (mkOpInfo 20 false ast.BinOpDiv)
  | TypeShl => Some (mkOpInfo 15 false ast.BinOpShl)
  | TypeShr => Some (mkOpInfo 15 false ast.BinOpShr)
  | TypeBinAnd => Some (mkOpInfo 8 false ast.BinOpAnd)
  | TypeBinOr => Some (mkOpInfo 6 false ast.BinOpOr)
  | TypeLogAnd => Some (mkOpInfo 4 false ast.BinOpLogAnd)
  | TypeLogOr => Some (mkOpInfo 3 false ast.BinOpLogOr)
  | TypeEq => Some (mkOpInfo 5 false ast.BinOpEq)
  | TypeNe => Some (mkOpInfo 5 false ast.BinOpNe)
  | TypeLt => Some (mkOpInfo 7 false ast.BinOpLt)
  | TypeLe => Some (mkOpInfo 7 false ast.BinOpLe)
  | TypeGt => Some (mkOpInfo 7 false ast.BinOpGt)
  | TypeGe => Some (mkOpInfo 7 false ast.BinOpGe)
  | _ => None
  end.

(** The keys of [opPrecedence]; the order, which the map does not fix, only
    shows in the text of an error that [peekType] drops. *)
Definition binops : list TokenType :=
  [TypePlus; TypeMinus; TypeStar; TypeSlash; TypeShl; TypeShr; TypeBinAnd;
   TypeBinOr; TypeLogAnd; TypeLogOr; TypeEq; TypeNe; TypeLt; TypeLe; TypeGt;
   TypeGe].

Definition starters : list TokenType :=
  [TypeNumber; TypeBool; TypeString; TypeIdent; TypeLparen; TypeKeyword].

(** An expression that is not nil: with [optional] false [parsePrimary]
    returns an expression or an error, so that the operand of a [NewBinop],
    of a [NewDeref] or of an [Assign] is never the nil that the types of the
    source allow. *)
Definition notNil (r : result (option Expression) * Parser)
  : result Expression * Parser :=
  match r with
  | (Ok (Some e), p) => (Ok e, p)
  | (Ok None, p) => (Err (Panic "nil expression"), p)
  | (Err e, p) => (Err e, p)
  end.

(** The expression parser.  Every call and every turn of a loop takes one
    unit of [fuel]. *)
Fixpoint parseExpressionPratt (fuel : nat) (optional : bool) (minPrec : Z)
         (p : Parser) {struct fuel} : result (option Expression) * Parser :=
  match fuel with
  | O => (Err out_of_fuel, p)
  | S fuel' =>
      match parsePrimary fuel' optional p with
      | (Err e, p') => (Err e, p')
      | (Ok None, p') => (Ok None, p')
      | (Ok (Some lhs), p') => prattLoop fuel' minPrec lhs p'
      end
  end

(** The loop of [parseExpressionPratt]. *)
with prattLoop (fuel : nat) (minPrec : Z) (lhs : Expression) (p : Parser)
     {struct fuel} : result (option Expression) * Parser :=
  match fuel with
  | O => (Err out_of_fuel, p)
  | S fuel' =>
      match peekType binops p with
      | ((_, Some (Panic msg)), p') => (Err (Panic msg), p')
      | ((_, Some _), p') => (Ok (Some lhs), p')
      | ((peek, None), p') =>
          if negb (existsb (TokenType_eqb (Type_ peek)) binops)
          then (Ok (Some lhs), p')
          else
            match opPrecedence (Type_ peek) with
            | None => (Ok (Some lhs), p')
            | Some info =>
                if precedence info <? minPrec
                then (Ok (Some lhs), set_index (index p' - 1) p')
                else
                  let nextMinPrec :=
                    if rightAssoc info then precedence info
                    else precedence info + 1 in
                  match notNil (parseExpressionPratt fuel' false nextMinPrec
                                                     p') with
                  | (Err e, p'') => (Err e, p'')
                  | (Ok rhs, p'') =>
                      prattLoop fuel' minPrec (NewBinop (kind info) lhs rhs) p''
                  end
            end
      end
  end

with parsePrimary (fuel : nat) (optional : bool) (p : Parser) {struct fuel}
     : result (option Expression) * Parser :=
  match fuel with
  | O => (Err out_of_fuel, p)
  | S fuel' =>
      match peekType starters p with
      | ((_, Some e), p') => (Err e, p')
      | ((start, None), p') =>
          if negb (existsb (TokenType_eqb (Type_ start)) starters) then
            if optional then (Ok None, p')
            else (Err (Errorf "expected start of expression at %s, got %s"),
                  p')
          else
            match Type_ start with
            | TypeKeyword =>
                match Keyword_ start with
                | KeywordTrue => (Ok (Some (NewBoolLiteral true)), p')
                | KeywordFalse => (Ok (Some (NewBoolLiteral false)), p')
                | _ => (Err (Errorf "unexpected keyword %s at %s"), p')
                end
            | TypeNumber => (Ok (Some (NewIntLiteral (NumberVal start))), p')
            | TypeBool =>
                match Keyword_ start with
                | KeywordTrue => (Ok (Some (NewBoolLiteral true)), p')
                | KeywordFalse => (Ok (Some (NewBoolLiteral false)), p')
                | _ =>
                    (Err (Panic "unexpected boolean keyword %s at %s"), p')
                end
            | TypeString =>
                (Ok (Some (NewStringLiteral (StringVal start))), p')
            | TypeIdent =>
                match peekType [TypeLparen; TypeCaret] p' with
                | ((_, Some (Panic msg)), p'') => (Err (Panic msg), p'')
                | ((_, Some (Errorf f)), p'') => (Err (Errorf f), p'')
                | ((_, Some (NumError s)), p'') => (Err (NumError s), p'')
                | ((next, _), p'') =>
                    match Type_ next with
                    | TypeLparen =>
                        match parseCallLoop fuel' start [] Token0 p'' with
                        | (Ok call, p3) => (Ok (Some call), p3)
                        | (Err e, p3) => (Err e, p3)
                        end
                    | TypeCaret =>
                        (Ok (Some (NewDeref
                                     (NewVariableRef (StringVal start)
                                                     ast.TypeUnknown))), p'')
                    | _ =>
                        (Ok (Some (NewVariableRef (StringVal start)
                                                  ast.TypeUnknown)), p'')
                    end
                end
            | TypeLparen =>
                match notNil (parseExpressionPratt fuel' false 0 p') with
                | (Err e, p'') => (Err e, p'')
                | (Ok expr, p'') =>
                    match expectType [TypeRparen] p'' with
                    | ((_, Some e), p3) => (Err e, p3)
                    | ((_, None), p3) =>
                        match peekIs TypeCaret p3 with
                        | (Err e, p4) => (Err e, p4)
                        | (Ok true, p4) => (Ok (Some (NewDeref expr)), p4)
                        | (Ok false, p4) => (Ok (Some expr), p4)
                        end
                    end
                end
            | _ => (Err (Panic "unreachable"), p')
            end
      end
  end

(** The loop of [parseCall]: [for next.Type != lexer.TypeRparen { … }]. *)
with parseCallLoop (fuel : nat) (first : Token) (args : list Expression)
                   (next : Token) (p : Parser) {struct fuel}
     : result Expression * Parser :=
  match fuel with
  | O => (Err out_of_fuel, p)
  | S fuel' =>
      if TokenType_eqb (Type_ next) TypeRparen
      then (Ok (NewCall (StringVal first) args), p)
      else
        match parseExpressionPratt fuel' true 0 p with
        | (Err e, p') => (Err e, p')
        | (Ok (Some expr), p') =>
            match expectType [TypeRparen; TypeComma] p' with
            | ((_, Some e), p'') => (Err e, p'')
            | ((next', None), p'') =>
                parseCallLoop fuel' first (args ++ [expr]) next' p''
            end
        | (Ok None, p') =>
            match expectType [TypeRparen] p' with
            | ((_, Some e), p'') => (Err e, p'')
            | ((next', None), p'') => parseCallLoop fuel' first args next' p''
            end
        end
  end.

Definition parseExpression (fuel : nat) (optional : bool)
  : M (option Expression) :=
  parseExpressionPratt fuel optional 0.

Definition parseCall (fuel : nat) (first : Token) : M Expression :=
  parseCallLoop fuel first [] Token0.

(** [parseExpression(false)], whose expression is not nil. *)
Definition parseExpression1 (fuel : nat) : M Expression :=
  fun p => notNil (parseExpression fuel false p).

(** [parseLValue] *)
Definition parseLValue (fuel : nat) : M Expression :=
  run first <- nextToken;
  match Type_ first with
  | TypeIdent =>
      let ident := StringVal first in
      run caret <- peekIs TypeCaret;
      if caret then ret (NewDeref (NewVariableRef ident ast.TypeUnknown))
      else ret (NewVariableRef ident ast.TypeUnknown)
  | TypeLparen =>
      run expr <- parseExpression1 fuel;
      run _ <- must (expectType [TypeRparen]);
      run caret <- peekIs TypeCaret;
      if caret then ret (NewDeref expr)
      else fail (Errorf "invalid lvalue: parenthesized expression must be dereferenced with ^")
  | _ => fail (Errorf "invalid lvalue start: %s")
  end.

(** [parseAssign] *)
Definition parseAssign (fuel : nat) (lhs : Expression)
  : M (list Instruction) :=
  run expr <- parseExpression1 fuel;
  ret [Assign lhs expr].

(** [parseDeclare] *)
Definition parseDeclare (fuel : nat) (ident : Token) : M (list Instruction) :=
  run next <- must (peekType [TypeAssign; TypeKeyword; TypeCaret]);
  run (declaredType, next) <-
    (if negb (TokenType_eqb (Type_ next) TypeAssign) then
       run _ <- unread;
       run ty <- parseType;
       run next <- must (peekType [TypeAssign]);
       ret (ty, next)
     else ret (TypeOf ast.TypeUnknown, next));
  let instructions := [Declare_ (StringVal ident) declaredType] in
  if TokenType_eqb (Type_ next) TypeAssign then
    let lvalue := NewVariableRef (StringVal ident) (ast.Kind declaredType) in
    run instr <- parseAssign fuel lvalue;
    ret (instructions ++ instr)%list
  else ret instructions.

(** The initializer that [parseIf] and [parseFor] look for after their
    keyword; [rollback] is what each of them does when there is none. *)
Definition parseInit (fuel : nat) (rollback : M Datatypes.unit)
  : M (list Instruction) :=
  fun p =>
    match expectType [TypeIdent] p with
    | ((_, Some (Panic msg)), p') => (Err (Panic msg), p')
    | ((_, Some _), p') =>
        (run _ <- rollback; ret []) p'
    | ((next, None), p') =>
        match peekType [TypeColon; TypeAssign] p' with
        | ((_, Some (Panic msg)), p'') => (Err (Panic msg), p'')
        | ((_, Some _), p'') => (run _ <- rollback; ret []) p''
        | ((tok, None), p'') =>
            if TokenType_eqb (Type_ tok) TypeColon then
              (run initInstrs <- parseDeclare fuel next;
               run _ <- must (expectType [TypeSemicolon]);
               ret initInstrs) p''
            else if TokenType_eqb (Type_ tok) TypeAssign then
              (let lvalue := NewVariableRef (StringVal next) ast.TypeUnknown in
               run initInstrs <- parseAssign fuel lvalue;
               run _ <- must (expectType [TypeSemicolon]);
               ret initInstrs) p''
            else (run _ <- rollback; ret []) p''
        end
    end.

(** The statement parser.  Every call and every turn of a loop takes one
    unit of [fuel]. *)
Fixpoint parseBlock (fuel : nat) (start : Token) (p : Parser) {struct fuel}
  : result (list Instruction) * Parser :=
  match fuel with
  | O => (Err out_of_fuel, p)
  | S fuel' =>
      if negb (TokenType_eqb (Type_ start) TypeLbrace)
      then (Err (Errorf "expected { at %s, got %s"), p)
      else parseBlockLoop fuel' [] p
  end

(** The loop of [parseBlock]. *)
with parseBlockLoop (fuel : nat) (instructions : list Instruction)
                    (p : Parser) {struct fuel}
     : result (list Instruction) * Parser :=
  match fuel with
  | O => (Err out_of_fuel, p)
  | S fuel' =>
      match nextToken p with
      | (Err e, p') => (Err e, p')
      | (Ok first, p') =>
          match Type_ first with
          | TypeRbrace => (Ok instructions, set_index (index p' - 1) p')
          | TypeKeyword =>
              match Keyword_ first with
              | KeywordReturn =>
                  if Keyword_eqb (currentRetType p') KeywordVoid then
                    parseBlockLoop fuel' (instructions ++ [Return None]) p'
                  else
                    match parseExpression1 fuel' p' with
                    | (Err e, p'') => (Err e, p'')
                    | (Ok expr, p'') =>
                        parseBlockLoop fuel'
                          (instructions ++ [Return (Some expr)]) p''
                    end
              | KeywordIf =>
                  match parseIf fuel' p' with
                  | (Err e, p'') => (Err e, p'')
                  | (Ok inst, p'') =>
                      parseBlockLoop fuel' (instructions ++ [inst]) p''
                  end
              | KeywordFor =>
                  match parseFor fuel' p' with
                  | (Err e, p'') => (Err e, p'')
                  | (Ok inst, p'') =>
                      parseBlockLoop fuel' (instructions ++ [inst]) p''
                  end
              | _ => parseBlockLoop fuel' instructions p'
              end
          | TypeIdent | TypeLparen =>
              let isIdent := TokenType_eqb (Type_ first) TypeIdent in
              match (if isIdent then peekIs TypeColon p' else (Ok false, p'))
              with
              | (Err e, p1) => (Err e, p1)
              | (Ok true, p1) =>
                  match parseDeclare fuel' first p1 with
                  | (Err e, p2) => (Err e, p2)
                  | (Ok instr, p2) =>
                      parseBlockLoop fuel' (instructions ++ instr) p2
                  end
              | (Ok false, p1) =>
                  let p2 := set_index (index p1 - 1) p1 in
                  match
                    match parseLValue fuel' p2 with
                    | (Err (Panic msg), p3) => (Err (Panic msg), p3)
                    | (Err _, p3) => (Ok None, p3)
                    | (Ok lvalueExpr, p3) =>
                        match peekIs TypeAssign p3 with
                        | (Err e, p4) => (Err e, p4)
                        | (Ok true, p4) => (Ok (Some lvalueExpr), p4)
                        | (Ok false, p4) => (Ok None, p4)
                        end
                    end
                  with
                  | (Err e, p4) => (Err e, p4)
                  | (Ok (Some lvalueExpr), p4) =>
                      match parseAssign fuel' lvalueExpr p4 with
                      | (Err e, p5) => (Err e, p5)
                      | (Ok instr, p5) =>
                          parseBlockLoop fuel' (instructions ++ instr) p5
                      end
                  | (Ok None, p4) =>
                      match (if isIdent then peekIs TypeLparen p4
                             else (Ok false, p4)) with
                      | (Err e, p5) => (Err e, p5)
                      | (Ok true, p5) =>
                          match parseCall fuel' first p5 with
                          | (Err e, p6) => (Err e, p6)
                          | (Ok inst, p6) =>
                              parseBlockLoop fuel'
                                (instructions ++ [CallInstr inst]) p6
                          end
                      | (Ok false, p5) =>
                          (Err (Errorf "unexpected statement at %s"), p5)
                      end
                  end
              end
          | _ => parseBlockLoop fuel' instructions p'
          end
      end
  end

with parseIf (fuel : nat) (p : Parser) {struct fuel}
     : result Instruction * Parser :=
  match fuel with
  | O => (Err out_of_fuel, p)
  | S fuel' =>
      match parseInit fuel' unread p with
      | (Err e, p1) => (Err e, p1)
      | (Ok initInstrs, p1) =>
      match parseExpression1 fuel' p1 with
      | (Err e, p2) => (Err e, p2)
      | (Ok cond, p2) =>
      match expectType [TypeLbrace] p2 with
      | ((_, Some e), p3) => (Err e, p3)
      | ((lbrace, None), p3) =>
      match parseBlock fuel' lbrace p3 with
      | (Err e, p4) => (Err e, p4)
      | (Ok thenInstrs, p4) =>
      match expectType [TypeRbrace] p4 with
      | ((_, Some e), p5) => (Err e, p5)
      | ((_, None), p5) =>
      match peekType [TypeKeyword] p5 with
      | ((_, Some e), p6) => (Err e, p6)
      | ((nextElse, None), p6) =>
          if negb (TokenType_eqb (Type_ nextElse) TypeKeyword) then
            (Ok (If initInstrs cond thenInstrs None), p6)
          else if negb (Keyword_eqb (Keyword_ nextElse) KeywordElse) then
            (Ok (If initInstrs cond thenInstrs None),
             set_index (index p6 - 1) p6)
          else
            match peekType [TypeKeyword; TypeLbrace] p6 with
            | ((_, Some e), p7) => (Err e, p7)
            | ((afterElse, None), p7) =>
                if TokenType_eqb (Type_ afterElse) TypeKeyword
                   && Keyword_eqb (Keyword_ afterElse) KeywordIf then
                  match parseIf fuel' p7 with
                  | (Err e, p8) => (Err e, p8)
                  | (Ok elseInstr, p8) =>
                      (Ok (If initInstrs cond thenInstrs (Some elseInstr)),
                       p8)
                  end
                else if TokenType_eqb (Type_ afterElse) TypeLbrace then
                  match parseBlock fuel' lbrace p7 with
                  | (Err e, p8) => (Err e, p8)
                  | (Ok elseInstrs, p8) =>
                      match expectType [TypeRbrace] p8 with
                      | ((_, Some e), p9) => (Err e, p9)
                      | ((_, None), p9) =>
                          (Ok (If initInstrs cond thenInstrs
                                  (Some (Body elseInstrs))), p9)
                      end
                  end
                else (Err (Errorf "expected 'if' or '{' after 'else'"), p7)
            end
      end end end end end end
  end

with parseFor (fuel : nat) (p : Parser) {struct fuel}
     : result Instruction * Parser :=
  match fuel with
  | O => (Err out_of_fuel, p)
  | S fuel' =>
      let index0 := index p in
      match parseInit fuel' (fun q => (Ok tt, set_index index0 q)) p with
      | (Err e, p1) => (Err e, p1)
      | (Ok initInstrs, p1) =>
      match parseExpression1 fuel' p1 with
      | (Err e, p2) => (Err e, p2)
      | (Ok cond, p2) =>
      match peekType [TypeSemicolon] p2 with
      | ((_, Some e), p3) => (Err e, p3)
      | ((semi, None), p3) =>
      match
        (if TokenType_eqb (Type_ semi) TypeSemicolon then
           run start <- must (expectType [TypeIdent]);
           run next <- must (peekType [TypeColon; TypeAssign]);
           if TokenType_eqb (Type_ next) TypeColon then
             parseDeclare fuel' start
           else if TokenType_eqb (Type_ next) TypeAssign then
             parseAssign fuel'
               (NewVariableRef (StringVal start) ast.TypeUnknown)
           else run _ <- unread; ret []
         else ret []) p3
      with
      | (Err e, p4) => (Err e, p4)
      | (Ok postInstrs, p4) =>
      match expectType [TypeLbrace] p4 with
      | ((_, Some e), p5) => (Err e, p5)
      | ((lbrace, None), p5) =>
      match parseBlock fuel' lbrace p5 with
      | (Err e, p6) => (Err e, p6)
      | (Ok bodyInstrs, p6) =>
      match expectType [TypeRbrace] p6 with
      | ((_, Some e), p7) => (Err e, p7)
      | ((_, None), p7) =>
          (Ok (For initInstrs cond postInstrs bodyInstrs), p7)
      end end end end end end end
  end.

(** The loop of [parseAttributes]; every turn consumes a token. *)
Fixpoint attributesLoop (fuel : nat) : M Datatypes.unit :=
  match fuel with
  | O => fail out_of_fuel
  | S fuel' =>
      run tok <- must (expectType [TypeRparen; TypeIdent]);
      if TokenType_eqb (Type_ tok) TypeRparen then ret tt
      else
        let key := StringVal tok in
        run validKey <- (fun p => (ParseAttrKey key, p));
        run next <- must (expectType [TypeAssign; TypeComma; TypeRparen]);
        run (value, next) <-
          (if TokenType_eqb (Type_ next) TypeAssign then
             run valTok <- must (expectType [TypeString; TypeNumber]);
             let value :=
               match Type_ valTok with
               | TypeString => Some (ast.AttrString (StringVal valTok))
               | TypeNumber => Some (ast.AttrInt (NumberVal valTok))
               | _ => None
               end in
             run next <- must (expectType [TypeComma; TypeRparen]);
             ret (value, next)
           else ret (None, next));
        run _ <- (fun p =>
                    (Ok tt,
                     set_attributes (attr_set validKey value (attributes p))
                                    p));
        if TokenType_eqb (Type_ next) TypeRparen then ret tt
        else attributesLoop fuel'
  end.

(** [parseAttributes] *)
Definition parseAttributes (start : Token) : M Datatypes.unit :=
  run _ <- must (expectType [TypeLparen]);
  fun p => attributesLoop (S (List.length (tok p))) p.

(** [parsePackage] *)
Definition parsePackage (start : Token) : M Datatypes.unit :=
  fun p =>
    if negb (String.eqb (cu_Ident (unit p)) "")
    then (Err (Errorf "package already defined at %s, cannot redefine"), p)
    else
      (run pkgName <- must (expectType [TypeIdent]);
       fun p =>
         (Ok tt,
          set_attributes []
            (set_unit (mkCompilationUnit (StringVal pkgName) (attributes p)
                                         (cu_Funcs (unit p))) p))) p.

(** [parseFuncReturnType] *)
Definition parseFuncReturnType : M ast.Type_ :=
  run arrow <- must (peekType [TypeArrow]);
  if TokenType_eqb (Type_ arrow) TypeArrow then parseType
  else ret (TypeOf ast.TypeVoid).

(** [parseFuncParam]; a nil parameter is [None]. *)
Definition parseFuncParam (fuel : nat) : M (option FuncParam) :=
  run nextTok <- must (expectType [TypeRparen; TypeAt; TypeIdent]);
  if TokenType_eqb (Type_ nextTok) TypeRparen then ret None
  else
    run (attrs, nextTok) <-
      (if TokenType_eqb (Type_ nextTok) TypeAt then
         run _ <- parseAttributes nextTok;
         run attrs <- (fun p => (Ok (attributes p), set_attributes [] p));
         run nextTok <- must (expectType [TypeIdent]);
         ret (Some attrs, nextTok)
       else ret (None, nextTok));
    run _ <- must (expectType [TypeColon]);
    run equal <- must (peekType [TypeAssign]);
    run (paramType, equal) <-
      (if negb (TokenType_eqb (Type_ equal) TypeAssign) then
         run paramType <- parseType;
         run equal <- must (peekType [TypeAssign]);
         ret (paramType, equal)
       else ret (TypeOf ast.TypeUnknown, equal));
    run value <-
      (if TokenType_eqb (Type_ equal) TypeAssign
       then parseExpression fuel false
       else ret None);
    ret (Some (mkFuncParam (StringVal nextTok) paramType attrs value)).

(** The parameter loop of [parseFunc]; every turn consumes a token. *)
Fixpoint paramsLoop (fuel : nat) (params : list FuncParam)
  : M (list FuncParam) :=
  match fuel with
  | O => fail out_of_fuel
  | S fuel' =>
      run param <- parseFuncParam fuel';
      match param with
      | None => ret params
      | Some param =>
          let params := (params ++ [param])%list in
          run tok <- must (expectType [TypeComma; TypeRparen]);
          if TokenType_eqb (Type_ tok) TypeRparen then ret params
          else paramsLoop fuel' params
      end
  end.

(** The last element of a slice, if any. *)
Definition last_instr (l : list Instruction) : option Instruction :=
  match rev l with
  | [] => None
  | i :: _ => Some i
  end.

(** [parseFunc] *)
Definition parseFunc (fuel : nat) (name : Token) : M Datatypes.unit :=
  run _ <- must (expectType [TypeLparen]);
  run def <- (fun p => (Ok (NewFuncDef (StringVal name) (attributes p)),
                        set_attributes [] p));
  run params <- paramsLoop fuel [];
  run retType <-
    (fun p =>
       match parseFuncReturnType p with
       | (Err (Panic msg), p') => (Err (Panic msg), p')
       | (Err _, p') =>
           (Err (Errorf "error parsing return type at %s: %w"), p')
       | (Ok t, p') => (Ok t, p')
       end);
  run _ <-
    (fun p =>
       (Ok tt,
        set_currentRetType
          (match ast.Kind retType with
           | ast.TypeVoid => KeywordVoid
           | ast.TypeInt => KeywordInt
           | ast.TypeString => KeywordString
           | _ => KeywordVoid
           end) p));
  run body <-
    (match ast.attr_lookup ast.AttrKeyExtern (fd_Attributes def) with
     | Some _ => ret None
     | None =>
         run lbrace <- must (expectType [TypeLbrace]);
         run instructions <- parseBlock fuel lbrace;
         let addRet :=
           match last_instr instructions with
           | None => true
           | Some i => negb (is_Return i)
           end in
         run instructions <-
           (if addRet then
              match ast.Kind retType with
              | ast.TypeVoid => ret (instructions ++ [Return None])%list
              | _ => fail (Errorf "expected return statement at %s")
              end
            else ret instructions);
         run _ <- must (expectType [TypeRbrace]);
         ret (Some instructions)
     end);
  fun p =>
    (Ok tt,
     set_unit
       (mkCompilationUnit (cu_Ident (unit p)) (cu_Attributes (unit p))
          (cu_Funcs (unit p)
           ++ [mkFuncDef (fd_Ident def) (fd_Attributes def) params
                         (Some retType) body])) p).

(** The loop of [Parse], which only an error ends: the result is the unit
    and that error. *)
Fixpoint ParseLoop (fuel : nat) (p : Parser) : CompilationUnit * error :=
  match fuel with
  | O => (unit p, out_of_fuel)
  | S fuel' =>
      match expectType [TypeKeyword; TypeIdent; TypeAt] p with
      | ((_, Some e), p') => (unit p', e)
      | ((start, None), p') =>
          match
            match Type_ start with
            | TypeAt => parseAttributes start p'
            | TypeKeyword =>
                match Keyword_ start with
                | KeywordPackage => parsePackage start p'
                | _ =>
                    (Err (Errorf "expected package keyword at %s, got %s"),
                     p')
                end
            | TypeIdent =>
                if String.eqb (cu_Ident (unit p')) "" then
                  (Err (Errorf "package must be defined before any other declarations at %s"),
                   p')
                else
                  (run _ <- must (expectType [TypeColon]);
                   run _ <- must (expectType [TypeColon]);
                   run _ <- must (expectKeyword [KeywordFunc]);
                   parseFunc fuel' start) p'
            | _ => (Ok tt, p')
            end
          with
          | (Err e, p'') => (unit p'', e)
          | (Ok _, p'') => ParseLoop fuel' p''
          end
      end
  end.

Definition Parse (fuel : nat) (p : Parser) : CompilationUnit * error :=
  ParseLoop fuel p.

End parser.


(** * Verification *)

(** ** Observations on instruction lists *)

Definition labels_of (l : list ir.Instruction) : list string :=
  flat_map (fun i => match i with ir.Label n => [n] | _ => [] end) l.

Definition targets_of (l : list ir.Instruction) : list string :=
  flat_map (fun i => match i with
                     | ir.Jnz _ t f => [t; f]
                     | ir.Jmp t => [t]
                     | _ => []
                     end) l.



(** Every [Ret] that has a successor is followed by a [Label]. *)
Fixpoint ret_ok (l : list ir.Instruction) : bool :=
  match l with
  | [] => true
  | i :: tl =>
      match i, tl with
      | ir.Ret _, j :: _ => ir.is_Label j && ret_ok tl
      | _, _ => ret_ok tl
      end
  end.

(** ** Reading the number back from a generated name *)

Fixpoint until_us (s : string) : string :=
  match s with
  | EmptyString => EmptyString
  | String c r => if Ascii.eqb c "_" then EmptyString else String c (until_us r)
  end.

Fixpoint after_us (s : string) : string :=
  match s with
  | EmptyString => EmptyString
  | String c r => if Ascii.eqb c "_" then r else after_us r
  end.

Definition parse_unsigned (s : string) : Z :=
  match NilEmpty.uint_of_string s with
  | Some d => Z.of_N (N.of_uint d)
  | None => 0
  end.

Definition parse_num (s : string) : Z :=
  match s with
  | String c r => if Ascii.eqb c "-" then - parse_unsigned r else parse_unsigned s
  | EmptyString => 0
  end.

(** The number of a label [L<number>_<tag>]. *)
Definition label_num (s : string) : Z :=
  match s with
  | String _ r => parse_num (until_us r)
  | EmptyString => 0
  end.

(** The number of an identifier [_<prefix>_<number>]. *)
Definition ident_num (s : string) : Z :=
  match s with
  | String _ r => parse_num (after_us r)
  | EmptyString => 0
  end.

Fixpoint no_us (s : string) : bool :=
  match s with
  | EmptyString => true
  | String c r => negb (Ascii.eqb c "_") && no_us r
  end.

(** ** Measures on the syntax tree *)

Definition sumZ {A : Type} (f : A -> Z) (l : list A) : Z :=
  fold_right (fun a n => f a + n) 0 l.

(** An upper bound on the names (identifiers, labels) that lowering a node
    can ask for: eight per node of the tree. *)
Fixpoint ecost (e : ast.Expression) : Z :=
  match e with
  | ast.Literal _ _ _ _ => 8
  | ast.VariableRef _ _ => 8
  | ast.Deref d _ => 8 + ecost d
  | ast.Binop _ l r _ => 8 + ecost l + ecost r
  | ast.Call _ args _ => 8 + sumZ (fun a => ecost (ast.Value a)) args
  end.

Fixpoint icost (i : ast.Instruction) : Z :=
  match i with
  | ast.Declare_ _ _ => 8
  | ast.Assign lhs value => 8 + ecost lhs + ecost value
  | ast.CallInstr id args ty => ecost (ast.Call id args ty)
  | ast.Return None => 8
  | ast.Return (Some e) => 8 + ecost e
  | ast.If init cond thn els =>
      8 + sumZ icost init + ecost cond + sumZ icost thn
      + match els with Some e => icost e | None => 0 end
  | ast.For init cond post body =>
      8 + sumZ icost init + ecost cond + sumZ icost post + sumZ icost body
  | ast.Body l => 8 + sumZ icost l
  end.


(** ** Induction over the syntax tree *)

Section Expression_induction.
Variable P : ast.Expression -> Prop.
Hypothesis HLiteral : forall ty i b s, P (ast.Literal ty i b s).
Hypothesis HVariableRef : forall x ty, P (ast.VariableRef x ty).
Hypothesis HDeref : forall d ty, P d -> P (ast.Deref d ty).
Hypothesis HBinop : forall op l r ty, P l -> P r -> P (ast.Binop op l r ty).
Hypothesis HCall : forall id args ty,
    Forall (fun a => P (ast.Value a)) args -> P (ast.Call id args ty).

Fixpoint Expression_induction (e : ast.Expression) : P e :=
  match e with
  | ast.Literal ty i b s => HLiteral ty i b s
  | ast.VariableRef x ty => HVariableRef x ty
  | ast.Deref d ty => HDeref d ty (Expression_induction d)
  | ast.Binop op l r ty =>
      HBinop op l r ty (Expression_induction l) (Expression_induction r)
  | ast.Call id args ty =>
      HCall id args ty
        ((fix go (l : list ast.Arg)
           : Forall (fun a => P (ast.Value a)) l :=
            match l with
            | [] => Forall_nil _
            | a :: l' =>
                Forall_cons a
                  (match a return P (ast.Value a) with
                   | ast.mkArg e _ => Expression_induction e
                   end) (go l')
            end) args)
  end.
End Expression_induction.

Section Instruction_induction.
Variable P : ast.Instruction -> Prop.
Hypothesis HDeclare : forall x ty, P (ast.Declare_ x ty).
Hypothesis HAssign : forall lhs value, P (ast.Assign lhs value).
Hypothesis HCallInstr : forall id args ty, P (ast.CallInstr id args ty).
Hypothesis HReturn : forall value, P (ast.Return value).
Hypothesis HIf : forall init cond thn els,
    Forall P init -> Forall P thn ->
    (forall e, els = Some e -> P e) -> P (ast.If init cond thn els).
Hypothesis HFor : forall init cond post body,
    Forall P init -> Forall P post -> Forall P body ->
    P (ast.For init cond post body).
Hypothesis HBody : forall l, Forall P l -> P (ast.Body l).

Fixpoint Instruction_induction (i : ast.Instruction) : P i :=
  let all :=
    fix go (l : list ast.Instruction) : Forall P l :=
      match l with
      | [] => Forall_nil _
      | a :: l' => Forall_cons a (Instruction_induction a) (go l')
      end in
  match i with
  | ast.Declare_ x ty => HDeclare x ty
  | ast.Assign lhs value => HAssign lhs value
  | ast.CallInstr id args ty => HCallInstr id args ty
  | ast.Return value => HReturn value
  | ast.If init cond thn els =>
      HIf init cond thn els (all init) (all thn)
          (match els as o return forall e, o = Some e -> P e with
           | Some e' =>
               fun e H =>
                 match H in _ = o
                       return match o with Some x => P x | None => True end
                 with
                 | eq_refl => Instruction_induction e'
                 end
           | None => fun e H => match H with end
           end)
  | ast.For init cond post body =>
      HFor init cond post body (all init) (all post) (all body)
  | ast.Body l => HBody l (all l)
  end.
End Instruction_induction.

(** ** Frames: what a visit leaves untouched *)

Definition not_Ret (i : ir.Instruction) : bool := negb (ir.is_Ret i).

(** [v'] holds the instructions of [v] followed by new ones, none of which
    is a [Ret]. *)
Definition eframe (v v' : ir.visitor) : Prop :=
  exists new,
    ir.lastInstructions v' = (ir.lastInstructions v ++ new)%list
    /\ forallb not_Ret new = true.

(** [v'] keeps the property [ret_ok] of [v] and its lowered functions. *)
Definition rframe (v v' : ir.visitor) : Prop :=
  (ret_ok (ir.lastInstructions v) = true ->
   ret_ok (ir.lastInstructions v') = true)
  /\ ir.FuncDefs (ir.unit v') = ir.FuncDefs (ir.unit v).

(** The visitor when [VisitFuncDef] starts on the body: the label counter
    and the instruction list are reset, the parameters are lowered. *)
Definition funcStart (fd : ast.FuncDef) (v : ir.visitor) : ir.visitor :=
  snd (ir.lowerParams (ast.fd_Params fd) []
         (ir.set_lastInstructions [] (ir.set_labelCounter 0 v))).

(** ** Sample programs *)

Definition tyInt : option ast.Type_ := Some (ast.mkType ast.TypeInt None).
Definition tyBool : option ast.Type_ := Some (ast.mkType ast.TypeBool None).
Definition tyString : option ast.Type_ := Some (ast.mkType ast.TypeString None).
Definition tyVoid : option ast.Type_ := Some (ast.mkType ast.TypeVoid None).

Definition intLit (n : Z) : ast.Expression := ast.Literal tyInt n false "".
Definition intVar (x : string) : ast.Expression := ast.VariableRef x tyInt.
Definition boolVar (x : string) : ast.Expression := ast.VariableRef x tyBool.

(** [f :: func(x: int) -> int { if x == 1 { return 1 } else { return 2 } }] *)
Definition sample_if : ast.FuncDef :=
  ast.mkFuncDef "f" [] [ast.mkFuncParam "x" tyInt [] None] tyInt
    (Some [ast.If [] (ast.Binop ast.BinOpEq (intVar "x") (intLit 1) tyBool)
                  [ast.Return (Some (intLit 1))]
                  (Some (ast.Body [ast.Return (Some (intLit 2))]))]).

Definition sample_if_unit : ast.CompilationUnit :=
  ast.mkCompilationUnit "main" [] 0 0 [sample_if].

Definition sample_if_ir : ir.CompilationUnit :=
  Eval vm_compute in
    match ir.Lower sample_if_unit with
    | Ok u => u
    | Err _ => ir.NewCompilationUnit
    end.

Definition sample_if_fd : ir.FuncDef :=
  Eval vm_compute in hd (ir.NewFuncDef "" []) (ir.FuncDefs sample_if_ir).

Definition sample_if_block : ir.Block :=
  Eval vm_compute in hd (ir.mkBlock "" []) (ir.fd_Blocks sample_if_fd).

(** ** Label segments *)

Definition label_nums (l : list ir.Instruction) : list Z :=
  map label_num (labels_of l).

Definition cnt (l : list Z) (k : Z) : nat := count_occ Z.eq_dec l k.

(** The labels that a run of instructions [new] defines, by number: each
    number of [(lo, hi]] once, except those in [skip], which were allocated and
    not defined, and in addition the labels [extl], which were allocated
    outside.  Jumps of [new] go to labels of [new] or to the targets [tg]. *)
Definition gseg (lo hi : Z) (skip : list Z) (extl tg : list string)
           (new : list ir.Instruction) : Prop :=
  (forall k,
      (lo < k <= hi ->
       (cnt (label_nums new) k + cnt skip k
        = 1 + cnt (map label_num extl) k)%nat)
      /\ (~ lo < k <= hi ->
          (cnt (label_nums new) k + cnt skip k
           = cnt (map label_num extl) k)%nat))
  /\ incl extl (labels_of new)
  /\ (forall s, In s (targets_of new) -> In s (labels_of new) \/ In s tg).

(** A run of the visitor from [v] to [v'] that asks for at most [n] labels
    appends such a segment, as long as the label counter does not wrap. *)
Definition gspec (n : Z) (skip : list Z) (extl tg : list string)
           (v v' : ir.visitor) : Prop :=
  0 <= n
  /\ (0 <= ir.labelCounter v -> ir.labelCounter v + n < 2 ^ 63 ->
      exists new,
        ir.lastInstructions v' = (ir.lastInstructions v ++ new)%list
        /\ ir.labelCounter v <= ir.labelCounter v' <= ir.labelCounter v + n
        /\ gseg (ir.labelCounter v) (ir.labelCounter v') skip extl tg new).

Definition lspec (n : Z) (v v' : ir.visitor) : Prop := gspec n [] [] [] v v'.

(** The label counter cannot wrap while the body of [fd] is lowered: the
    body asks for fewer than [2^63] labels.  (Eight names a node at most, so
    this leaves out only trees of [2^60] nodes and more.) *)
Definition body_fits (fd : ast.FuncDef) : Prop :=
  forall body, ast.fd_Body fd = Some body -> sumZ icost body < 2 ^ 63.

(** ** The shape of a short-circuit operator *)


(** [a && b] *)
Definition sample_and : ast.Expression :=
  ast.Binop ast.BinOpLogAnd (boolVar "a") (boolVar "b") tyBool.

Definition sample_and_state : ir.visitor :=
  Eval vm_compute in
    match ir.VisitExpression sample_and ir.newVisitor with
    | Ok s => s
    | Err _ => ir.newVisitor
    end.

(** ** Destination segments *)






(** ** Single assignment *)

(** The names that lowering the body of a function can ask for. *)
Definition fcost (fd : ast.FuncDef) : Z :=
  match ast.fd_Body fd with
  | Some body => sumZ icost body
  | None => 0
  end.









(** ** Counters at a function boundary *)








(** ** One counter for every prefix *)

(** [printf("…")], the call of one string literal. *)
Definition sample_call (f s : string) (aty ty : option ast.Type_)
  : ast.Instruction :=
  ast.CallInstr f [ast.mkArg (ast.Literal tyString 0 false s) aty] ty.


(** ** Tokens *)

Definition dquote : ascii := "034".
Definition newline : ascii := "010".

(** A byte that starts a token, a comment or white space in [next]. *)
Definition handled (c : ascii) : bool :=
  Ascii.eqb c "=" || Ascii.eqb c "(" || Ascii.eqb c ")" || Ascii.eqb c "{"
  || Ascii.eqb c "}" || Ascii.eqb c "," || Ascii.eqb c ":" || Ascii.eqb c "@"
  || Ascii.eqb c "+" || Ascii.eqb c "/" || Ascii.eqb c "-"
  || lexer.isWhitespace c || Ascii.eqb c dquote || lexer.isNumeric c
  || lexer.isAlpha c.

(** The tokenizer reaches [t'] from [t] by reading whole tokens. *)
Inductive reaches : lexer.Tokenizer -> lexer.Tokenizer -> Prop :=
| reaches_refl t : reaches t t
| reaches_step t tok t' t'' :
    lexer.next t = Ok (tok, t') -> reaches t' t'' -> reaches t t''.

(** A token that can be the left operand of a binary [-]. *)
Definition value_token (t : lexer.Token) : bool :=
  String.eqb (lexer.Type_ t) lexer.TypeIdent
  || String.eqb (lexer.Type_ t) lexer.TypeNumber
  || String.eqb (lexer.Type_ t) lexer.TypeString
  || String.eqb (lexer.Type_ t) lexer.TypeRparen.

(** A number token whose text starts with [-]. *)
Definition negative_literal (t : lexer.Token) : bool :=
  String.eqb (lexer.Type_ t) lexer.TypeNumber
  && match lexer.StringVal t with
     | String c _ => Ascii.eqb c "-"
     | EmptyString => false
     end.

(** C9 as stated: a [-] is folded into the numeral only after a token that
    cannot be the left operand of a binary [-]. *)
Definition minus_folded_only_after_non_value : Prop :=
  forall input toks,
    lexer.tokenize input = Ok toks ->
    forall n prev tok,
      nth_error toks n = Some prev ->
      nth_error toks (S n) = Some tok ->
      negative_literal tok = true ->
      value_token prev = false.

(** C3 as stated, for the string literal: an input that is an opening quote
    and a body without a closing quote is refused. *)
Definition unterminated_string_fails : Prop :=
  forall body,
    Forall (fun c => c <> dquote /\ c <> "\"%char) body ->
    exists e,
      lexer.tokenize (string_of_list_ascii (dquote :: body)) = Err e.

(** C3 as stated, for the invalid character: an input with a byte outside
    strings and comments that starts no token is refused. *)
Definition invalid_byte_fails : Prop :=
  forall c,
    handled c = false ->
    exists e, lexer.tokenize (String c EmptyString) = Err e.

(** A byte that [next] passes over: white space, or a byte that no case of
    its switch takes. *)
Definition skipped (c : ascii) : bool :=
  lexer.isWhitespace c || negb (handled c).

(** What is left to read, the buffered tokens counted. *)
Definition measure (t : lexer.Tokenizer) : nat :=
  lexer.left (lexer.Scan t) + List.length (lexer.Buffer t).

(** The tokens that successive calls of [next] return, and the tokenizer
    they leave. *)
Inductive run : lexer.Tokenizer -> list lexer.Token -> lexer.Tokenizer -> Prop :=
| run_nil t : run t [] t
| run_cons t tok t' l t'' :
    lexer.next t = Ok (tok, t') -> run t' l t'' -> run t (tok :: l) t''.

(** What [Tokens] returns when [next] fails with [e] after the tokens [l]. *)
Definition tokens_result (l : list lexer.Token) (e : error)
  : result (list lexer.Token) :=
  match e with
  | EOF => Ok l
  | _ => Err e
  end.

(** A result that is a value, the end of the input or the error of
    [strconv.Atoi]. *)
Definition benign {A : Type} (r : result A) : Prop :=
  match r with
  | Ok _ | Err EOF | Err (NumError _) => True
  | Err (Errorf _) | Err (Panic _) => False
  end.

Definition eof_or_ok {A : Type} (r : result A) : Prop :=
  match r with
  | Ok _ | Err EOF => True
  | _ => False
  end.

(** The words that [checkKeyword] takes. *)
Definition is_keyword (s : string) : bool :=
  existsb (String.eqb s) ["func"; "return"; "int"; "string"; "void"; "package"].

(** What stands between the quotes of a string literal: a byte, or a
    backslash and the byte after it. *)
Inductive piece : Type :=
| Plain (c : ascii)
| Escaped (c : ascii).

Definition piece_bytes (x : piece) : list ascii :=
  match x with
  | Plain c => [c]
  | Escaped c => ["\"%char; c]
  end.

Definition piece_ok (x : piece) : bool :=
  match x with
  | Plain c => negb (Ascii.eqb c dquote) && negb (Ascii.eqb c "\")
  | Escaped _ => true
  end.

Definition literal_bytes (ps : list piece) : list ascii :=
  flat_map piece_bytes ps.

Definition line_end (c : ascii) : bool :=
  Ascii.eqb c "010" || Ascii.eqb c "013".

(** A token or comment that the end of the input cuts short. *)
Inductive unfinished : list ascii -> Prop :=
| unfinished_word a w :
    lexer.isAlpha a = true -> forallb lexer.isAlphanumeric w = true ->
    unfinished (a :: w)
| unfinished_number d ds :
    lexer.isNumeric d = true -> forallb lexer.isNumeric ds = true ->
    unfinished (d :: ds)
| unfinished_string ps :
    forallb piece_ok ps = true -> unfinished (dquote :: literal_bytes ps)
| unfinished_comment body :
    forallb (fun c => negb (line_end c)) body = true ->
    unfinished ("/"%char :: "/"%char :: body).

(** The token of a word: a keyword when [checkKeyword] knows it. *)
Definition word_token (text : string) (loc : lexer.Location) : lexer.Token :=
  if is_keyword text
  then lexer.mkToken lexer.TypeKeyword text text text 0 loc
  else lexer.mkToken lexer.TypeIdent "" text text 0 loc.

(** [strconv.Itoa] *)
Definition Itoa (z : Z) : string :=
  if z <? 0 then String "-" (digits (- z)) else digits z.

(** The bytes of the sign of a numeral. *)
Definition sign_bytes (neg : bool) : list ascii :=
  if neg then ["-"%char] else [].

(** The largest absolute value of an [int] of that sign. *)
Definition sign_bound (neg : bool) : Z :=
  if neg then 2 ^ 63 else max_int.

Definition signed (neg : bool) (z : Z) : Z := if neg then - z else z.

(** A [/] or a [-] that starts neither a comment, an arrow nor a numeral:
    [op] is the byte and [c] the byte after it. *)
Definition lone (op c : ascii) : bool :=
  (Ascii.eqb op "/" && negb (Ascii.eqb c "/"))
  || (Ascii.eqb op "-" && negb (Ascii.eqb c ">") && negb (lexer.isNumeric c)).

(** A tokenizer on the bytes [r], the bytes [p] read, the last one first. *)
Definition tokenizer_at (p r : list ascii) : lexer.Tokenizer :=
  lexer.mkTokenizer (lexer.mkScanner p r) [].

(** ** Units that [Lower] takes *)

(** The operators of [VisitBinop]: the two short-circuit ones and those of
    [binOpMap]. *)
Definition opSupported (op : ast.BinOpKind) : bool :=
  match op with
  | ast.BinOpOther _ => false
  | _ => true
  end.

(** The literals of [VisitLiteral]. *)
Definition literalSupported (ty : option ast.Type_) : bool :=
  match ty with
  | Some t =>
      match ast.Kind t with
      | ast.TypeInt | ast.TypeBool | ast.TypeString => true
      | _ => false
      end
  | None => false
  end.

Fixpoint wf_expr (e : ast.Expression) : bool :=
  match e with
  | ast.Literal ty _ _ _ => literalSupported ty
  | ast.VariableRef _ _ => true
  | ast.Deref d _ => wf_expr d
  | ast.Binop op l r _ => wf_expr l && (wf_expr r && opSupported op)
  | ast.Call _ args _ => forallb (fun a => wf_expr (ast.Value a)) args
  end.

(** The left-hand sides of [VisitAssign]. *)
Definition wf_lhs (lhs : ast.Expression) : bool :=
  match lhs with
  | ast.Deref e _ => wf_expr e
  | ast.VariableRef _ _ => true
  | _ => false
  end.

Fixpoint wf_instr (i : ast.Instruction) : bool :=
  match i with
  | ast.Declare_ _ _ => true
  | ast.Assign lhs value => wf_expr value && wf_lhs lhs
  | ast.CallInstr _ args _ => forallb (fun a => wf_expr (ast.Value a)) args
  | ast.Return None => true
  | ast.Return (Some e) => wf_expr e
  | ast.If init cond thn els =>
      forallb wf_instr init
      && (wf_expr cond
          && (forallb wf_instr thn
              && match els with Some e => wf_instr e | None => true end))
  | ast.For init cond post body =>
      forallb wf_instr init
      && (wf_expr cond && (forallb wf_instr body && forallb wf_instr post))
  | ast.Body l => forallb wf_instr l
  end.

(** The [link_name] attribute, when there is one, is a string. *)
Definition wf_linkname (attrs : ast.Attributes) : bool :=
  match ast.attr_lookup ast.AttrKeyLinkname attrs with
  | None | Some (Some (ast.AttrString _)) => true
  | _ => false
  end.

Definition wf_func (fd : ast.FuncDef) : bool :=
  wf_linkname (ast.fd_Attributes fd)
  && match ast.fd_Body fd with
     | Some body => forallb wf_instr body
     | None => true
     end.

Definition wf_unit (cu : ast.CompilationUnit) : bool :=
  forallb wf_func (ast.cu_Funcs cu).

(** [r] is a value when [b] holds and a panic when it does not. *)
Definition settled {A : Type} (b : bool) (r : result A) : Prop :=
  if b then exists a, r = Ok a else exists msg, r = Err (Panic msg).

(** ** What [Lower] keeps of a function *)

(** The IR function [f] has the name, the parameters, the link name, the
    return type and the linkage of [fd], and one block [start] when [fd] has a
    body. *)
Definition lowered_sig (fd : ast.FuncDef) (f : ir.FuncDef) : Prop :=
  ir.fd_Ident f = ast.fd_Ident fd
  /\ ir.fd_Params f
     = map (fun p => ir.NewParamRegular (ir.mapTypeToAbiTy (ast.fp_Type p))
                                        (ast.fp_Ident p))
           (ast.fd_Params fd)
  /\ ir.fd_LinkName f
     = match ast.attr_lookup ast.AttrKeyLinkname (ast.fd_Attributes fd) with
       | Some (Some (ast.AttrString s)) => s
       | _ => ""
       end
  /\ ir.fd_RetTy f
     = match ast.fd_ReturnType fd with
       | Some t =>
           if ast.TypeKind_eqb (ast.Kind t) ast.TypeVoid then None
           else Some (ir.mapTypeToAbiTy (Some t))
       | None => None
       end
  /\ ir.fd_Linkage f
     = match ast.attr_lookup ast.AttrKeyExport (ast.fd_Attributes fd) with
       | Some _ => Some ir.LinkageExport
       | None => None
       end
  /\ match ast.fd_Body fd with
     | Some _ => exists instrs, ir.fd_Blocks f = [ir.mkBlock "start" instrs]
     | None => ir.fd_Blocks f = []
     end.

(** [extern puts :: func(s: string) -> int], linked as [puts], and an exported
    [main] that calls it. *)
Definition sample_extern : ast.FuncDef :=
  ast.mkFuncDef "print"
    [(ast.AttrKeyExtern, None);
     (ast.AttrKeyLinkname, Some (ast.AttrString "puts"))]
    [ast.mkFuncParam "s" tyString [] None] tyInt None.

Definition sample_main : ast.FuncDef :=
  ast.mkFuncDef "main" [(ast.AttrKeyExport, None)] [] tyVoid
    (Some [ast.CallInstr "print"
             [ast.mkArg (ast.Literal tyString 0 false "Hi") tyString] tyInt;
           ast.CallInstr "print"
             [ast.mkArg (ast.Literal tyString 0 false "Hi") tyString] tyInt;
           ast.Return None]).

Definition sample_extern_unit : ast.CompilationUnit :=
  ast.mkCompilationUnit "main" [] 0 0 [sample_extern; sample_main].

Definition sample_extern_ir : ir.CompilationUnit :=
  Eval vm_compute in
    match ir.Lower sample_extern_unit with
    | Ok u => u
    | Err _ => ir.NewCompilationUnit
    end.

(** ** The data definitions of a unit *)

(** The string literals of an expression, in the order in which they are
    lowered. *)
Fixpoint strings_expr (e : ast.Expression) : list string :=
  match e with
  | ast.Literal (Some t) _ _ s =>
      match ast.Kind t with
      | ast.TypeString => [s]
      | _ => []
      end
  | ast.Literal None _ _ _ => []
  | ast.VariableRef _ _ => []
  | ast.Deref d _ => strings_expr d
  | ast.Binop _ l r _ => strings_expr l ++ strings_expr r
  | ast.Call _ args _ => flat_map (fun a => strings_expr (ast.Value a)) args
  end.

(** [VisitAssign] lowers the value before the address; [VisitFor] lowers the
    body before the post statements. *)
Fixpoint strings_instr (i : ast.Instruction) : list string :=
  match i with
  | ast.Declare_ _ _ => []
  | ast.Assign lhs value =>
      strings_expr value
      ++ match lhs with
         | ast.Deref e _ => strings_expr e
         | _ => []
         end
  | ast.CallInstr _ args _ =>
      flat_map (fun a => strings_expr (ast.Value a)) args
  | ast.Return None => []
  | ast.Return (Some e) => strings_expr e
  | ast.If init cond thn els =>
      flat_map strings_instr init ++ strings_expr cond
      ++ flat_map strings_instr thn
      ++ match els with Some e => strings_instr e | None => [] end
  | ast.For init cond post body =>
      flat_map strings_instr init ++ strings_expr cond
      ++ flat_map strings_instr body ++ flat_map strings_instr post
  | ast.Body l => flat_map strings_instr l
  end.

Definition strings_func (fd : ast.FuncDef) : list string :=
  match ast.fd_Body fd with
  | Some body => flat_map strings_instr body
  | None => []
  end.

Definition strings_unit (cu : ast.CompilationUnit) : list string :=
  flat_map strings_func (ast.cu_Funcs cu).

(** The initializer of [NewDataDefStringZ]. *)
Definition data_of (s : string) : list ir.DataItem :=
  [ir.DataItemString s; ir.DataItemInteger 0].

(** The numbers [ks] increase from above [lo] up to [hi] at most. *)
Fixpoint chain (lo hi : Z) (ks : list Z) : Prop :=
  match ks with
  | [] => lo <= hi
  | k :: ks' => lo < k /\ chain k hi ks'
  end.

(** A run of the visitor from [v] to [v'] that asks for at most [n]
    identifiers adds the data definitions of the strings [S], in this order,
    under names [_str_<k>] whose numbers increase, as long as the identifier
    counter does not wrap. *)
Definition drun (n : Z) (S : list string) (v v' : ir.visitor) : Prop :=
  0 <= n
  /\ exists new,
      ir.DataDefs (ir.unit v') = (ir.DataDefs (ir.unit v) ++ new)%list
      /\ map ir.dd_Initializer new = map data_of S
      /\ (0 <= ir.tmpCounter v -> ir.tmpCounter v + n < 2 ^ 63 ->
          ir.tmpCounter v' <= ir.tmpCounter v + n
          /\ exists ks,
              map ir.dd_Ident new = map (sprintf_ident "str") ks
              /\ chain (ir.tmpCounter v) (ir.tmpCounter v') ks).

(** ** The shape of the lowered statements *)

(** [v'] holds the instructions of [v] followed by new ones. *)
Definition appends (v v' : ir.visitor) : Prop :=
  exists new, ir.lastInstructions v' = (ir.lastInstructions v ++ new)%list.

(** The label that [appendInstruction] puts before an instruction that is
    no label: a fresh [block] label when the instruction before is a [Ret]. *)
Definition block_sep (v : ir.visitor) : list ir.Instruction :=
  match ir.last_instr (ir.lastInstructions v) with
  | Some (ir.Ret _) =>
      [ir.Label (sprintf_label (wrap64 (ir.labelCounter v + 1)) "block")]
  | _ => []
  end.

(** What [VisitIf] emits from [v] to [v']: the three labels are made first;
    then come the code [ci] of the initializers, the code [cc] of the
    condition, the conditional jump and the label [T], the code [ct] of the
    then-block, the jump to [E] and the label [F], the code [ce] of the
    else-block, and the label [E]. *)
Definition if_shape (init : list ast.Instruction) (cond : ast.Expression)
           (thn : list ast.Instruction) (els : option ast.Instruction)
           (v v' : ir.visitor) : Prop :=
  let n1 := wrap64 (ir.labelCounter v + 1) in
  let n2 := wrap64 (n1 + 1) in
  let n3 := wrap64 (n2 + 1) in
  let T := sprintf_label n1 "then" in
  let F := sprintf_label n2 "else" in
  let E := sprintf_label n3 "end" in
  exists v1 v2 v3 v4 ci cc ct ce,
    ir.visitAll ir.VisitInstruction init (ir.set_labelCounter n3 v) = Ok v1
    /\ ir.lastInstructions v1 = (ir.lastInstructions v ++ ci)%list
    /\ ir.VisitExpression cond v1 = Ok v2
    /\ ir.lastInstructions v2 = (ir.lastInstructions v1 ++ cc)%list
    /\ let s2 := ir.appendInstruction (ir.NewLabel T)
                   (ir.appendInstruction (ir.NewJnz (ir.lastVal v2) T F) v2) in
       ir.visitAll ir.VisitInstruction thn s2 = Ok v3
       /\ ir.lastInstructions v3 = (ir.lastInstructions s2 ++ ct)%list
       /\ let s3 := ir.appendInstruction (ir.NewLabel F)
                      (ir.appendInstruction (ir.NewJmp E) v3) in
          match els with
          | Some e => ir.VisitInstruction e s3
          | None => Ok s3
          end = Ok v4
          /\ ir.lastInstructions v4 = (ir.lastInstructions s3 ++ ce)%list
          /\ ir.lastInstructions v'
             = (ir.lastInstructions v ++ ci ++ cc ++ block_sep v2
                ++ [ir.Jnz (ir.lastVal v2) T F; ir.Label T] ++ ct
                ++ block_sep v3 ++ [ir.Jmp E; ir.Label F] ++ ce
                ++ [ir.Label E])%list.

(** What [VisitFor] emits from [v] to [v']: the three labels are made first;
    then come the code [ci] of the initializers, the label [S], the code [cc]
    of the condition, the conditional jump and the label [B], the code [cb]
    of the body, the code [cp] of the post statements, the jump back to [S],
    and the label [E]. *)
Definition for_shape (init : list ast.Instruction) (cond : ast.Expression)
           (post body : list ast.Instruction) (v v' : ir.visitor) : Prop :=
  let n1 := wrap64 (ir.labelCounter v + 1) in
  let n2 := wrap64 (n1 + 1) in
  let n3 := wrap64 (n2 + 1) in
  let S := sprintf_label n1 "for" in
  let B := sprintf_label n2 "body" in
  let E := sprintf_label n3 "end" in
  exists v1 v2 v3 v4 ci cc cb cp,
    ir.visitAll ir.VisitInstruction init (ir.set_labelCounter n3 v) = Ok v1
    /\ ir.lastInstructions v1 = (ir.lastInstructions v ++ ci)%list
    /\ let s1 := ir.appendInstruction (ir.NewLabel S) v1 in
       ir.VisitExpression cond s1 = Ok v2
       /\ ir.lastInstructions v2 = (ir.lastInstructions s1 ++ cc)%list
       /\ let s2 := ir.appendInstruction (ir.NewLabel B)
                      (ir.appendInstruction
                         (ir.NewJnz (ir.lastVal v2) B E) v2) in
          ir.visitAll ir.VisitInstruction body s2 = Ok v3
          /\ ir.lastInstructions v3 = (ir.lastInstructions s2 ++ cb)%list
          /\ ir.visitAll ir.VisitInstruction post v3 = Ok v4
          /\ ir.lastInstructions v4 = (ir.lastInstructions v3 ++ cp)%list
          /\ ir.lastInstructions v'
             = (ir.lastInstructions v ++ ci ++ [ir.Label S] ++ cc
                ++ [ir.Jnz (ir.lastVal v2) B E; ir.Label B] ++ cb ++ cp
                ++ block_sep v4 ++ [ir.Jmp S; ir.Label E])%list.

(** The [if] of [sample_if]. *)
Definition sample_if_instr : ast.Instruction :=
  ast.If [] (ast.Binop ast.BinOpEq (intVar "x") (intLit 1) tyBool)
         [ast.Return (Some (intLit 1))]
         (Some (ast.Body [ast.Return (Some (intLit 2))])).

Definition sample_if_state : ir.visitor :=
  Eval vm_compute in
    match ir.VisitInstruction sample_if_instr ir.newVisitor with
    | Ok s => s
    | Err _ => ir.newVisitor
    end.

(** [for i = 0; i < n; i = i + 1 { print("x") }] *)
Definition sample_for_instr : ast.Instruction :=
  ast.For [ast.Assign (intVar "i") (intLit 0)]
          (ast.Binop ast.BinOpLt (intVar "i") (intVar "n") tyBool)
          [ast.Assign (intVar "i")
                      (ast.Binop ast.BinOpAdd (intVar "i") (intLit 1) tyInt)]
          [sample_call "print" "x" tyString tyVoid].

Definition sample_for_state : ir.visitor :=
  Eval vm_compute in
    match ir.VisitInstruction sample_for_instr ir.newVisitor with
    | Ok s => s
    | Err _ => ir.newVisitor
    end.

(** ** The shape of the lowered operations *)

(** What [VisitBinop] emits from [v] to [v'] for an operator [op] of
    [binOpMap], mapped to [irOp]: the code of the left operand, which ends in
    [v1]; the result temporary is made; the code of the right operand, which
    ends in [v2]; and then, for [+] and [-] with a pointer on exactly one
    side, the other side times four in a fresh [idx] temporary and the
    operation on the pointer and that temporary, in this order; else the
    operation on the two values. *)
Definition arith_shape (op : ast.BinOpKind) (irOp : ir.BinOpKind)
           (l r : ast.Expression) (ty : option ast.Type_)
           (v v' : ir.visitor) : Prop :=
  exists v1 v2,
    ir.VisitExpression l (ir.set_lastType None (ir.set_lastVal None v)) = Ok v1
    /\ let left := ir.lastVal v1 in
       let leftType := ir.lastType v1 in
       let res :=
         ir.NewValIdent (sprintf_ident "tmp" (wrap64 (ir.tmpCounter v1 + 1))) in
       ir.VisitExpression r
         (ir.set_lastType None
            (ir.set_lastVal None
               (ir.set_tmpCounter (wrap64 (ir.tmpCounter v1 + 1)) v1))) = Ok v2
       /\ let right := ir.lastVal v2 in
          let rightType := ir.lastType v2 in
          let idx :=
            ir.NewValIdent
              (sprintf_ident "idx" (wrap64 (ir.tmpCounter v2 + 1))) in
          ir.lastVal v' = res /\ ir.lastType v' = ty
          /\ ir.lastInstructions v'
             = (ir.lastInstructions v2 ++ block_sep v2
                ++ if ir.isAddSub op
                      && xorb (ir.isPointer leftType) (ir.isPointer rightType)
                   then [ir.Binop ir.BinOpMul idx
                           (if ir.isPointer leftType then right else left)
                           (ir.NewValInteger 4);
                         ir.Binop irOp res
                           (if ir.isPointer leftType then left else right)
                           idx]
                   else [ir.Binop irOp res left right])%list.

Definition tyIntPtr : option ast.Type_ :=
  Some (ast.mkType ast.TypePointer (Some (ast.mkType ast.TypeInt None))).

(** [i - p], the pointer on the right. *)
Definition sample_ptr : ast.Expression :=
  ast.Binop ast.BinOpSub (intVar "i") (ast.VariableRef "p" tyIntPtr) tyIntPtr.

Definition sample_ptr_state : ir.visitor :=
  Eval vm_compute in
    match ir.VisitExpression sample_ptr ir.newVisitor with
    | Ok s => s
    | Err _ => ir.newVisitor
    end.

(** What [VisitAssign] emits from [v] to [v']: the code [cv] of the value,
    and then, for a variable, the move into it; for a dereference, the code
    [cp] of the pointer and the store. *)
Definition assign_shape (lhs value : ast.Expression) (v v' : ir.visitor)
  : Prop :=
  exists v1 cv,
    ir.VisitExpression value (ir.set_lastVal None v) = Ok v1
    /\ ir.lastInstructions v1 = (ir.lastInstructions v ++ cv)%list
    /\ match lhs with
       | ast.VariableRef x _ =>
           ir.lastInstructions v'
           = (ir.lastInstructions v ++ cv ++ block_sep v1
              ++ [ir.Binop ir.BinOpAdd (ir.NewValIdent x) (ir.lastVal v1)
                           (ir.NewValInteger 0)])%list
       | ast.Deref p _ =>
           exists v2 cp,
             ir.VisitExpression p (ir.set_lastVal None v1) = Ok v2
             /\ ir.lastInstructions v2 = (ir.lastInstructions v1 ++ cp)%list
             /\ ir.lastInstructions v'
                = (ir.lastInstructions v ++ cv ++ cp ++ block_sep v2
                   ++ [ir.Store (ir.lastVal v2) (ir.lastVal v1)])%list
       | _ => False
       end.

(** [**p = f("s")]: the address is itself loaded through [p]. *)
Definition sample_store : ast.Instruction :=
  ast.Assign (ast.Deref (ast.Deref (ast.VariableRef "p" tyIntPtr) tyIntPtr)
                        tyInt)
             (ast.Call "f" [ast.mkArg (ast.Literal tyString 0 false "s")
                                      tyString] tyInt).

Definition sample_store_state : ir.visitor :=
  Eval vm_compute in
    match ir.VisitInstruction sample_store ir.newVisitor with
    | Ok s => s
    | Err _ => ir.newVisitor
    end.

(** What [VisitCall] emits from [v] to [v']: the code of the arguments, one
    after the other, which ends in [w], and the call of the callee, resolved
    among the functions lowered before, on the values of the arguments, each
    with the ABI type of the type of the argument.  The value is a fresh
    temporary; the type that the visitor holds is left as the arguments left
    it. *)
Definition call_shape (id : string) (args : list ast.Arg)
           (v v' : ir.visitor) : Prop :=
  exists irArgs w ret,
    ir.lowerArgs ir.VisitExpression args [] v = Ok (irArgs, w)
    /\ map ir.arg_AbiTy irArgs
       = map (fun a => ir.mapTypeToAbiTy (ast.ArgType a)) args
    /\ ir.lastVal v'
       = ir.NewValIdent (sprintf_ident "tmp" (wrap64 (ir.tmpCounter w + 1)))
    /\ ir.lastType v' = ir.lastType w
    /\ ir.tmpCounter v' = wrap64 (ir.tmpCounter w + 1)
    /\ ir.lastInstructions v'
       = (ir.lastInstructions w ++ block_sep w
          ++ [ir.Call ret
                (ir.NewValGlobal
                   (ir.calleeIdent id (ir.FuncDefs (ir.unit v))))
                irArgs])%list.

(** The visitor after [sample_extern] is lowered, and then [print(p)]. *)
Definition sample_after_extern : ir.visitor :=
  Eval vm_compute in
    match ir.VisitFuncDef sample_extern ir.newVisitor with
    | Ok s => s
    | Err _ => ir.newVisitor
    end.

Definition sample_print : ast.Expression :=
  ast.Call "print" [ast.mkArg (ast.VariableRef "p" tyIntPtr) tyString] tyVoid.

Definition sample_print_state : ir.visitor :=
  Eval vm_compute in
    match ir.VisitExpression sample_print sample_after_extern with
    | Ok s => s
    | Err _ => ir.newVisitor
    end.

(** ** The parser's place in its tokens *)

(** The tokens of [p] from the index [j] on. *)
Definition tokens_from (p : parser.Parser) (j : Z) : list parser.Token :=
  skipn (Z.to_nat j) (parser.tok p).

Definition is_type (tt : parser.TokenType) (t : parser.Token) : bool :=
  parser.TokenType_eqb (parser.Type_ t) tt.

(** The type that a keyword names in [parseType]. *)
Definition baseType (k : parser.Keyword) : option ast.Type_ :=
  match k with
  | parser.KeywordInt => Some (parser.TypeOf ast.TypeInt)
  | parser.KeywordString => Some (parser.TypeOf ast.TypeString)
  | parser.KeywordBool => Some (parser.TypeOf ast.TypeBool)
  | parser.KeywordVoid => Some (parser.TypeOf ast.TypeVoid)
  | _ => None
  end.

(** Sample tokens. *)
Definition tk (t : parser.TokenType) : parser.Token :=
  parser.mkToken t (parser.KeywordOther "") "" 0 0%nat.
Definition kw (k : parser.Keyword) : parser.Token :=
  parser.mkToken parser.TypeKeyword k "" 0 0%nat.
Definition tid (s : string) : parser.Token :=
  parser.mkToken parser.TypeIdent (parser.KeywordOther "") s 0 0%nat.
Definition tnum (n : Z) : parser.Token :=
  parser.mkToken parser.TypeNumber (parser.KeywordOther "") "" n 0%nat.
Definition tstr (s : string) : parser.Token :=
  parser.mkToken parser.TypeString (parser.KeywordOther "") s 0 0%nat.

(** ** Chains of operators *)

(** The expression of a primary of one token: a number, a string, [true] or
    [false], or an identifier that no parenthesis and no caret follows. *)
Definition atom_expr (t : parser.Token) : option parser.Expression :=
  match parser.Type_ t with
  | parser.TypeNumber => Some (parser.NewIntLiteral (parser.NumberVal t))
  | parser.TypeString => Some (parser.NewStringLiteral (parser.StringVal t))
  | parser.TypeIdent =>
      Some (parser.NewVariableRef (parser.StringVal t) ast.TypeUnknown)
  | parser.TypeBool | parser.TypeKeyword =>
      match parser.Keyword_ t with
      | parser.KeywordTrue => Some (parser.NewBoolLiteral true)
      | parser.KeywordFalse => Some (parser.NewBoolLiteral false)
      | _ => None
      end
  | _ => None
  end.

Definition is_atom (t : parser.Token) : bool :=
  match atom_expr t with Some _ => true | None => false end.

Definition is_op (t : parser.Token) : bool :=
  match parser.opPrecedence (parser.Type_ t) with
  | Some _ => true
  | None => false
  end.

Definition prec (o : parser.Token) : Z :=
  match parser.opPrecedence (parser.Type_ o) with
  | Some info => parser.precedence info
  | None => 0
  end.

Definition op_kind (o : parser.Token) : ast.BinOpKind :=
  match parser.opPrecedence (parser.Type_ o) with
  | Some info => parser.kind info
  | None => ast.BinOpOther ""
  end.

(** A tree of operator tokens over atom tokens. *)
Inductive tree : Type :=
| Leaf (a : parser.Token)
| Node (l : tree) (o : parser.Token) (r : tree).

(** The tokens of a tree, from left to right. *)
Fixpoint tokens_of (t : tree) : list parser.Token :=
  match t with
  | Leaf a => [a]
  | Node l o r => tokens_of l ++ o :: tokens_of r
  end.

Fixpoint expr_of (t : tree) : parser.Expression :=
  match t with
  | Leaf a =>
      match atom_expr a with
      | Some e => e
      | None => parser.NewIntLiteral 0
      end
  | Node l o r => parser.NewBinop (op_kind o) (expr_of l) (expr_of r)
  end.

(** The leaves are atoms and the nodes operators. *)
Fixpoint shaped (t : tree) : bool :=
  match t with
  | Leaf a => is_atom a
  | Node l o r => shaped l && is_op o && shaped r
  end.

(** Every operator of the tree has the precedence [n] at least. *)
Fixpoint ops_ge (n : Z) (t : tree) : Prop :=
  match t with
  | Leaf _ => True
  | Node l o r => n <= prec o /\ ops_ge n l /\ ops_ge n r
  end.

(** The tree follows the precedences, the operators of one precedence
    grouping to the left: under an operator, the operators on its left bind
    as tightly at least, and those on its right more tightly. *)
Fixpoint climbs (t : tree) : Prop :=
  match t with
  | Leaf _ => True
  | Node l o r =>
      climbs l /\ climbs r /\ ops_ge (prec o) l /\ ops_ge (prec o + 1) r
  end.

(** An atom and the pairs of an operator and an atom that follow it. *)
Definition pairs_tokens (rest : list (parser.Token * parser.Token))
  : list parser.Token :=
  flat_map (fun oa => [fst oa; snd oa]) rest.

Definition chain_tokens (a0 : parser.Token)
           (rest : list (parser.Token * parser.Token)) : list parser.Token :=
  a0 :: pairs_tokens rest.

Definition chain_ok (a0 : parser.Token)
           (rest : list (parser.Token * parser.Token)) : bool :=
  is_atom a0 && forallb (fun oa => is_op (fst oa) && is_atom (snd oa)) rest.

(** What can follow a primary of one token without being taken into the
    expression: the end of the tokens, or a token that is no operator, no
    left parenthesis and no caret. *)
Definition stop_ok (stop : list parser.Token) : bool :=
  match stop with
  | [] => true
  | e :: _ =>
      negb (existsb (parser.TokenType_eqb (parser.Type_ e))
                    (parser.TypeLparen :: parser.TypeCaret :: parser.binops))
  end.

(** The first operator of what is left binds less tightly than [n]. *)
Definition head_lt (n : Z) (rest : list (parser.Token * parser.Token))
  : Prop :=
  match rest with
  | [] => True
  | (o, _) :: _ => prec o < n
  end.

(** What follows an identifier that is a primary by itself. *)
Definition no_suffix (ts : list parser.Token) : Prop :=
  match ts with
  | [] => True
  | n :: _ =>
      existsb (parser.TokenType_eqb (parser.Type_ n))
              [parser.TypeLparen; parser.TypeCaret] = false
  end.

(** The loop and the call, for chains of [n] pairs at most. *)
Definition loop_spec (n : nat) : Prop :=
  forall rest p j lhs stop minPrec fuel,
    (List.length rest <= n)%nat ->
    0 <= j ->
    tokens_from p j = (pairs_tokens rest ++ stop)%list ->
    forallb (fun oa => is_op (fst oa) && is_atom (snd oa)) rest = true ->
    stop_ok stop = true ->
    shaped lhs = true -> climbs lhs -> ops_ge minPrec lhs ->
    match rest with
    | [] => True
    | (o, _) :: _ => ops_ge (prec o) lhs
    end ->
    (2 * n + 1 <= fuel)%nat ->
    exists t rest1 rest2,
      rest = (rest1 ++ rest2)%list
      /\ tokens_of t = (tokens_of lhs ++ pairs_tokens rest1)%list
      /\ shaped t = true /\ climbs t /\ ops_ge minPrec t /\ head_lt minPrec rest2
      /\ parser.prattLoop fuel minPrec (expr_of lhs) (parser.set_index j p)
         = (Ok (Some (expr_of t)),
            parser.set_index (j + Z.of_nat (List.length (pairs_tokens rest1)))
                             p).

Definition pratt_spec (n : nat) : Prop :=
  forall rest p j a0 stop minPrec fuel optional,
    (List.length rest <= n)%nat ->
    0 <= j ->
    tokens_from p j = (chain_tokens a0 rest ++ stop)%list ->
    chain_ok a0 rest = true ->
    stop_ok stop = true ->
    (2 * n + 2 <= fuel)%nat ->
    exists t rest1 rest2,
      rest = (rest1 ++ rest2)%list
      /\ tokens_of t = chain_tokens a0 rest1
      /\ shaped t = true /\ climbs t /\ ops_ge minPrec t /\ head_lt minPrec rest2
      /\ parser.parseExpressionPratt fuel optional minPrec
           (parser.set_index j p)
         = (Ok (Some (expr_of t)),
            parser.set_index
              (j + Z.of_nat (List.length (chain_tokens a0 rest1))) p).

(** The tokens of [1 + 2 * 3 - 4 ;]. *)
Definition sample_sum : parser.Parser :=
  parser.New [tnum 1; tk parser.TypePlus; tnum 2; tk parser.TypeStar; tnum 3;
              tk parser.TypeMinus; tnum 4; tk parser.TypeSemicolon].

(** ** Calls and blocks *)

(** The expression parser reads [e] from the [n] tokens at [j], with the
    fuel [F] at least. *)
Definition parses (p : parser.Parser) (j : Z) (n : nat)
           (e : parser.Expression) (F : nat) : Prop :=
  forall fuel,
    (F <= fuel)%nat ->
    parser.parseExpression fuel true (parser.set_index j p)
    = (Ok (Some e), parser.set_index (j + Z.of_nat n) p).

(** The token at [j] has the type [tt]. *)
Definition token_is (p : parser.Parser) (j : Z) (tt : parser.TokenType)
  : Prop :=
  match tokens_from p j with
  | t :: _ => is_type tt t = true
  | [] => False
  end.

(** The arguments of a call, from the token after its left parenthesis at
    [j] to the token after its right parenthesis at [k]: expressions that
    commas separate, the last of which a comma may follow. *)
Inductive call_args (p : parser.Parser)
  : Z -> list parser.Expression -> Z -> nat -> Prop :=
| args_end j :
    0 <= j -> token_is p j parser.TypeRparen ->
    call_args p j [] (j + 1) 3
| args_last j n e F :
    0 <= j -> parses p j n e F ->
    token_is p (j + Z.of_nat n) parser.TypeRparen ->
    call_args p j [e] (j + Z.of_nat n + 1) (S (Nat.max F 1))
| args_more j n e F es k G :
    0 <= j -> parses p j n e F ->
    token_is p (j + Z.of_nat n) parser.TypeComma ->
    call_args p (j + Z.of_nat n + 1) es k G ->
    call_args p j (e :: es) k (S (Nat.max F G)).

(** The tokens of [1, "s",)] after [f(]. *)
Definition sample_args : parser.Parser :=
  parser.New [tid "f"; tk parser.TypeLparen; tnum 1; tk parser.TypeComma;
              tstr "s"; tk parser.TypeComma; tk parser.TypeRparen].

(** A token with which no statement starts and no block ends: neither a
    right brace, an identifier or a left parenthesis, nor one of the keywords
    [return], [if] and [for]. *)
Definition starts_nothing (t : parser.Token) : bool :=
  match parser.Type_ t with
  | parser.TypeRbrace | parser.TypeIdent | parser.TypeLparen => false
  | parser.TypeKeyword =>
      match parser.Keyword_ t with
      | parser.KeywordReturn | parser.KeywordIf | parser.KeywordFor => false
      | _ => true
      end
  | _ => true
  end.

(** What ends the tokens of a block: nothing, or a right brace. *)
Definition block_end (tail : list parser.Token) : bool :=
  match tail with
  | [] => true
  | r :: _ => is_type parser.TypeRbrace r
  end.

(** The tokens of [{ 1 + ; }]. *)
Definition sample_junk : parser.Parser :=
  parser.New [tk parser.TypeLbrace; tnum 1; tk parser.TypePlus;
              tk parser.TypeSemicolon; tk parser.TypeRbrace].

(** ** Functions *)

(** The tokens between the parameters of a function and its body and the
    return type that they declare: none for [void], or an arrow, carets and
    the keyword of a type. *)
Inductive declares : list parser.Token -> ast.Type_ -> Prop :=
| declares_void : declares [] (parser.TypeOf ast.TypeVoid)
| declares_type ar cs t base :
    is_type parser.TypeArrow ar = true ->
    forallb (is_type parser.TypeCaret) cs = true ->
    is_type parser.TypeKeyword t = true ->
    baseType (parser.Keyword_ t) = Some base ->
    declares (ar :: cs ++ [t]) (parser.pointerTo (List.length cs) base).

(** The keyword that [parseFunc] keeps for the [return] statements of the
    body of a function of the return type [T]. *)
Definition retKeyword (T : ast.Type_) : parser.Keyword :=
  match ast.Kind T with
  | ast.TypeInt => parser.KeywordInt
  | ast.TypeString => parser.KeywordString
  | _ => parser.KeywordVoid
  end.

(** The unit of [p] with one more function, without attributes and
    parameters. *)
Definition with_func (p : parser.Parser) (name : parser.Token)
           (T : ast.Type_) (body : list parser.Instruction)
  : parser.CompilationUnit :=
  parser.mkCompilationUnit
    (parser.cu_Ident (parser.unit p)) (parser.cu_Attributes (parser.unit p))
    (parser.cu_Funcs (parser.unit p)
     ++ [parser.mkFuncDef (parser.StringVal name) [] []
                          (Some T) (Some body)]).

(** Whether [parseFunc] adds a return to the instructions of a body. *)
Definition addRet (instrs : list parser.Instruction) : bool :=
  match parser.last_instr instrs with
  | None => true
  | Some i => negb (parser.is_Return i)
  end.

(** The tokens of [f :: func() -> bool { return true }], and those of
    [f :: func() { 1 }]. *)
Definition sample_bool_func : parser.Parser :=
  parser.New [tid "f"; tk parser.TypeColon; tk parser.TypeColon;
              kw parser.KeywordFunc; tk parser.TypeLparen;
              tk parser.TypeRparen; tk parser.TypeArrow;
              kw parser.KeywordBool; tk parser.TypeLbrace;
              kw parser.KeywordReturn; kw parser.KeywordTrue;
              tk parser.TypeRbrace].

Definition sample_void_func : parser.Parser :=
  parser.New [tid "f"; tk parser.TypeColon; tk parser.TypeColon;
              kw parser.KeywordFunc; tk parser.TypeLparen;
              tk parser.TypeRparen; tk parser.TypeLbrace; tnum 1;
              tk parser.TypeRbrace].

(** ** Units *)

(** The tokens of a function without attributes, parameters and statements,
    [name :: func() rt { junk }], and the return type that [rt] declares. *)
Record simple_func : Type := mkSimpleFunc {
  sf_name : parser.Token;
  sf_colon1 : parser.Token;
  sf_colon2 : parser.Token;
  sf_func : parser.Token;
  sf_lp : parser.Token;
  sf_rp : parser.Token;
  sf_rt : list parser.Token;
  sf_type : ast.Type_;
  sf_lb : parser.Token;
  sf_junk : list parser.Token;
  sf_rb : parser.Token
}.

Definition sf_tokens (g : simple_func) : list parser.Token :=
  sf_name g :: sf_colon1 g :: sf_colon2 g :: sf_func g :: sf_lp g :: sf_rp g
    :: sf_rt g ++ sf_lb g :: sf_junk g ++ [sf_rb g].

Definition sf_ok (g : simple_func) : Prop :=
  is_type parser.TypeIdent (sf_name g) = true
  /\ is_type parser.TypeColon (sf_colon1 g) = true
  /\ is_type parser.TypeColon (sf_colon2 g) = true
  /\ is_type parser.TypeKeyword (sf_func g) = true
  /\ parser.Keyword_ (sf_func g) = parser.KeywordFunc
  /\ is_type parser.TypeLparen (sf_lp g) = true
  /\ is_type parser.TypeRparen (sf_rp g) = true
  /\ declares (sf_rt g) (sf_type g)
  /\ ast.Kind (sf_type g) = ast.TypeVoid
  /\ is_type parser.TypeLbrace (sf_lb g) = true
  /\ forallb starts_nothing (sf_junk g) = true
  /\ is_type parser.TypeRbrace (sf_rb g) = true.

(** The function that the unit gets for it. *)
Definition sf_def (g : simple_func) : parser.FuncDef :=
  parser.mkFuncDef (parser.StringVal (sf_name g)) [] []
                   (Some (sf_type g)) (Some [parser.Return None]).

(** [f :: func() { 1 }] and [g :: func() -> void { }]. *)
Definition sample_f : simple_func :=
  mkSimpleFunc (tid "f") (tk parser.TypeColon) (tk parser.TypeColon)
               (kw parser.KeywordFunc) (tk parser.TypeLparen)
               (tk parser.TypeRparen) [] (parser.TypeOf ast.TypeVoid)
               (tk parser.TypeLbrace) [tnum 1] (tk parser.TypeRbrace).

Definition sample_g : simple_func :=
  mkSimpleFunc (tid "g") (tk parser.TypeColon) (tk parser.TypeColon)
               (kw parser.KeywordFunc) (tk parser.TypeLparen)
               (tk parser.TypeRparen)
               [tk parser.TypeArrow; kw parser.KeywordVoid]
               (parser.TypeOf ast.TypeVoid)
               (tk parser.TypeLbrace) [] (tk parser.TypeRbrace).

(** ** Facts on formatting *)

Lemma wrap64_small (z : Z) : - 2 ^ 63 <= z < 2 ^ 63 -> wrap64 z = z.
Proof.
  intros H. unfold wrap64. rewrite Z.mod_small; lia.
Qed.

Lemma string_app_assoc (a b c : string) : ((a ++ b) ++ c = a ++ (b ++ c))%string.
Proof.
  induction a as [|x a IH]; simpl; [reflexivity | now rewrite IH].
Qed.

Lemma uint_of_string_zeros (n : nat) (s : string) (d : Decimal.uint) :
  NilEmpty.uint_of_string s = Some d ->
  exists d', NilEmpty.uint_of_string (zeros n ++ s) = Some d'
             /\ N.of_uint d' = N.of_uint d.
Proof.
  intros H. induction n as [|n (d' & E & E')]; simpl.
  - now exists d.
  - exists (Decimal.D0 d'). rewrite E. split; [reflexivity | exact E'].
Qed.

Lemma parse_unsigned_pad0 (w : nat) (k : Z) :
  0 <= k ->
  parse_unsigned (pad0 w (digits k)) = k
  /\ exists d, NilEmpty.uint_of_string (pad0 w (digits k)) = Some d.
Proof.
  intros Hk. unfold parse_unsigned, pad0, digits.
  destruct (uint_of_string_zeros
              (w - String.length (NilEmpty.string_of_uint (N.to_uint (Z.to_N k))))
              _ _ (NilEmpty.usu (N.to_uint (Z.to_N k)))) as (d' & E & E').
  rewrite E, E', DecimalN.Unsigned.of_to. split; [now apply Z2N.id | now exists d'].
Qed.

Lemma parse_num_unsigned (s : string) (d : Decimal.uint) :
  NilEmpty.uint_of_string s = Some d -> parse_num s = parse_unsigned s.
Proof.
  destruct s as [|c r]; [reflexivity|]. cbn [parse_num].
  destruct (Ascii.eqb c "-") eqn:E; [|reflexivity].
  apply Ascii.eqb_eq in E. subst c. cbn.
  destruct (NilEmpty.uint_of_string r); discriminate.
Qed.

Lemma parse_num_sprintf_04d (k : Z) : parse_num (sprintf_04d k) = k.
Proof.
  unfold sprintf_04d. destruct (k <? 0) eqn:E.
  - apply Z.ltb_lt in E. cbn [parse_num]. cbn [Ascii.eqb Bool.eqb].
    destruct (parse_unsigned_pad0 3 (- k)) as [P _]; [lia|]. rewrite P. lia.
  - apply Z.ltb_ge in E.
    destruct (parse_unsigned_pad0 4 k E) as [P [d D]].
    now rewrite (parse_num_unsigned _ d D).
Qed.

Lemma no_us_app (a b : string) :
  no_us (a ++ b) = no_us a && no_us b.
Proof.
  induction a as [|c a IH]; simpl; [reflexivity|].
  rewrite IH. now rewrite andb_assoc.
Qed.

Lemma no_us_zeros (n : nat) : no_us (zeros n) = true.
Proof. induction n; simpl; auto. Qed.

Lemma no_us_string_of_uint (d : Decimal.uint) :
  no_us (NilEmpty.string_of_uint d) = true.
Proof. induction d; simpl; auto. Qed.

Lemma no_us_sprintf_04d (k : Z) : no_us (sprintf_04d k) = true.
Proof.
  unfold sprintf_04d, pad0, digits. destruct (k <? 0); cbn [no_us];
    now rewrite ?no_us_app, ?no_us_zeros, ?no_us_string_of_uint.
Qed.

Lemma until_us_app (a t : string) :
  no_us a = true -> until_us (a ++ String "_" t) = a.
Proof.
  induction a as [|c a IH]; simpl; intros H; [reflexivity|].
  apply andb_true_iff in H as [Hc Ha].
  destruct (Ascii.eqb c "_"); [discriminate|]. now rewrite IH.
Qed.

Lemma after_us_app (a t : string) :
  no_us a = true -> after_us (a ++ String "_" t) = t.
Proof.
  induction a as [|c a IH]; simpl; intros H; [reflexivity|].
  apply andb_true_iff in H as [Hc Ha].
  destruct (Ascii.eqb c "_"); [discriminate|]. now rewrite IH.
Qed.

Lemma label_num_sprintf (k : Z) (tag : string) :
  label_num (sprintf_label k tag) = k.
Proof.
  unfold sprintf_label, label_num. simpl.
  rewrite until_us_app by apply no_us_sprintf_04d.
  apply parse_num_sprintf_04d.
Qed.

Lemma ident_num_sprintf (p : string) (k : Z) :
  no_us p = true -> ident_num (sprintf_ident p k) = k.
Proof.
  intros Hp. unfold sprintf_ident, ident_num. simpl.
  rewrite after_us_app by assumption.
  apply parse_num_sprintf_04d.
Qed.

(** ** The primitives of the visitor *)

Arguments ir.appendInstruction : simpl never.
Arguments sprintf_label : simpl never.
Arguments sprintf_ident : simpl never.

Lemma bind_Ok {A B : Type} (m : result A) (f : A -> result B) (b : B) :
  bind m f = Ok b -> exists a, m = Ok a /\ f a = Ok b.
Proof.
  destruct m as [a|e]; simpl; intros H; [now exists a | discriminate].
Qed.

Ltac inv_bind H :=
  let a := fresh "v" in
  let E := fresh "E" in
  apply bind_Ok in H; destruct H as (a & E & H).

Lemma last_instr_snoc (l : list ir.Instruction) (x : ir.Instruction) :
  ir.last_instr (l ++ [x]) = Some x.
Proof. unfold ir.last_instr. now rewrite rev_unit. Qed.

Lemma last_instr_cons (i j : ir.Instruction) (l : list ir.Instruction) :
  ir.last_instr (i :: j :: l) = ir.last_instr (j :: l).
Proof.
  unfold ir.last_instr.
  change (i :: j :: l) with ([i] ++ (j :: l))%list. rewrite rev_app_distr.
  destruct (rev (j :: l)) eqn:E; [|reflexivity].
  apply (f_equal (@List.length _)) in E. rewrite length_rev in E. discriminate.
Qed.

Lemma ret_ok_snoc (l : list ir.Instruction) (x : ir.Instruction) :
  ret_ok (l ++ [x]) =
  ret_ok l && match ir.last_instr l with
              | Some (ir.Ret _) => ir.is_Label x
              | _ => true
              end.
Proof.
  induction l as [|i l IH]; [now destruct x|].
  destruct l as [|j l].
  - destruct i, x; reflexivity.
  - rewrite last_instr_cons.
    change ((i :: j :: l) ++ [x])%list with (i :: ((j :: l) ++ [x]))%list.
    change (((j :: l) ++ [x]))%list with (j :: (l ++ [x]))%list in *.
    destruct i;
      try (change (ret_ok (?a :: j :: l ++ [x])) with (ret_ok (j :: l ++ [x]));
           change (ret_ok (?a :: j :: l)) with (ret_ok (j :: l)); exact IH).
    change (ret_ok (ir.Ret val :: j :: l ++ [x]))
      with (ir.is_Label j && ret_ok (j :: l ++ [x])).
    change (ret_ok (ir.Ret val :: j :: l))
      with (ir.is_Label j && ret_ok (j :: l)).
    rewrite IH. now rewrite andb_assoc.
Qed.

(** The label that [appendInstruction] puts before an instruction that
    follows a [Ret]. *)
Lemma appendInstruction_instrs (i : ir.Instruction) (v : ir.visitor) :
  exists blk,
    ir.lastInstructions (ir.appendInstruction i v)
    = (ir.lastInstructions v ++ blk ++ [i])%list
    /\ ir.tmpCounter (ir.appendInstruction i v) = ir.tmpCounter v
    /\ ir.lastVal (ir.appendInstruction i v) = ir.lastVal v
    /\ ir.lastType (ir.appendInstruction i v) = ir.lastType v
    /\ ((blk = []
         /\ ir.labelCounter (ir.appendInstruction i v) = ir.labelCounter v)
        \/ (ir.is_Label i = false
            /\ (exists r,
                   ir.last_instr (ir.lastInstructions v) = Some (ir.Ret r))
            /\ blk = [ir.Label (sprintf_label (wrap64 (ir.labelCounter v + 1))
                                              "block")]
            /\ ir.labelCounter (ir.appendInstruction i v)
               = wrap64 (ir.labelCounter v + 1))).
Proof.
  unfold ir.appendInstruction.
  destruct (ir.is_Label i) eqn:L.
  - exists []. repeat split; now left.
  - destruct (ir.last_instr (ir.lastInstructions v)) as [[]|] eqn:E;
      try (exists []; repeat split; now left).
    eexists. split; [cbn; rewrite <- app_assoc; reflexivity|].
    repeat split. right. repeat split. now eexists.
Qed.

Lemma appendInstruction_ret_ok (i : ir.Instruction) (v : ir.visitor) :
  ret_ok (ir.lastInstructions v) = true ->
  ret_ok (ir.lastInstructions (ir.appendInstruction i v)) = true.
Proof.
  intros H. unfold ir.appendInstruction.
  destruct (ir.is_Label i) eqn:L.
  - cbn. rewrite ret_ok_snoc, H. destruct (ir.last_instr _) as [[]|]; auto.
  - destruct (ir.last_instr (ir.lastInstructions v)) as [[]|] eqn:E; cbn;
      rewrite ?ret_ok_snoc, ?last_instr_snoc, ?H, ?E; auto.
Qed.

Lemma appendInstruction_last (i : ir.Instruction) (v : ir.visitor) :
  ir.last_instr (ir.lastInstructions (ir.appendInstruction i v)) = Some i.
Proof.
  destruct (appendInstruction_instrs i v) as (blk & -> & _).
  now rewrite app_assoc, last_instr_snoc.
Qed.

(** ** Expressions emit no [Ret]; every visit keeps [ret_ok] *)

Lemma eframe_refl (v : ir.visitor) : eframe v v.
Proof. exists []. now rewrite app_nil_r. Qed.

Lemma eframe_trans (a b c : ir.visitor) : eframe a b -> eframe b c -> eframe a c.
Proof.
  intros (n1 & E1 & F1) (n2 & E2 & F2). exists (n1 ++ n2)%list.
  rewrite E2, E1, app_assoc, forallb_app, F1, F2. now split.
Qed.

Lemma eframe_same (v w w' : ir.visitor) :
  ir.lastInstructions w' = ir.lastInstructions w -> eframe v w -> eframe v w'.
Proof. intros E (n & E1 & F1). exists n. now rewrite E. Qed.

Lemma eframe_append (v w : ir.visitor) (i : ir.Instruction) :
  ir.is_Ret i = false -> eframe v w -> eframe v (ir.appendInstruction i w).
Proof.
  intros R H. apply (eframe_trans v w); [assumption|].
  destruct (appendInstruction_instrs i w) as (blk & E & _ & _ & _ & B).
  exists (blk ++ [i])%list. split; [assumption|].
  rewrite forallb_app. unfold not_Ret at 2. simpl. rewrite R. simpl.
  destruct B as [[-> _] | (_ & _ & -> & _)]; reflexivity.
Qed.

Lemma rframe_refl (v : ir.visitor) : rframe v v.
Proof. split; auto. Qed.

Lemma rframe_trans (a b c : ir.visitor) : rframe a b -> rframe b c -> rframe a c.
Proof. intros [H1 E1] [H2 E2]. split; [auto | congruence]. Qed.

Lemma rframe_same (v w w' : ir.visitor) :
  ir.lastInstructions w' = ir.lastInstructions w ->
  ir.FuncDefs (ir.unit w') = ir.FuncDefs (ir.unit w) ->
  rframe v w -> rframe v w'.
Proof. unfold rframe. intros -> ->. auto. Qed.

Lemma appendInstruction_unit (i : ir.Instruction) (v : ir.visitor) :
  ir.unit (ir.appendInstruction i v) = ir.unit v.
Proof.
  unfold ir.appendInstruction.
  destruct (ir.is_Label i); [reflexivity|].
  now destruct (ir.last_instr (ir.lastInstructions v)) as [[]|].
Qed.

Lemma rframe_append (v w : ir.visitor) (i : ir.Instruction) :
  rframe v w -> rframe v (ir.appendInstruction i w).
Proof.
  intros [H E]. split.
  - intros R. now apply appendInstruction_ret_ok, H.
  - now rewrite appendInstruction_unit.
Qed.

(** Chains a frame through setters, appended instructions and sub-visits;
    [use_IH] closes the frame of a sub-visit. *)
Ltac frame_chain use_IH :=
  lazymatch goal with
  | |- eframe ?v ?v => apply eframe_refl
  | |- rframe ?v ?v => apply rframe_refl
  | |- eframe ?v (ir.appendInstruction ?i ?w) =>
      apply eframe_append; [reflexivity | frame_chain use_IH]
  | |- rframe ?v (ir.appendInstruction ?i ?w) =>
      apply rframe_append; frame_chain use_IH
  | E : _ ?b = Ok ?w |- eframe ?v ?w =>
      apply (eframe_trans v b w); [frame_chain use_IH | use_IH]
  | E : _ ?b = Ok ?w |- rframe ?v ?w =>
      apply (rframe_trans v b w); [frame_chain use_IH | use_IH]
  | E : _ ?b = Ok (_, ?w) |- eframe ?v ?w =>
      apply (eframe_trans v b w); [frame_chain use_IH | use_IH]
  | E : _ ?b = Ok (_, ?w) |- rframe ?v ?w =>
      apply (rframe_trans v b w); [frame_chain use_IH | use_IH]
  | |- eframe ?v (?f ?x ?w) =>
      apply (eframe_same v w); [reflexivity | frame_chain use_IH]
  | |- rframe ?v (?f ?x ?w) =>
      apply (rframe_same v w); [reflexivity | reflexivity | frame_chain use_IH]
  end.

Lemma VisitLiteral_frame ty i b s v v' :
  ir.VisitLiteral ty i b s v = Ok v' -> eframe v v' /\ rframe v v'.
Proof.
  unfold ir.VisitLiteral. destruct ty as [t|]; [|discriminate].
  intros H. inv_bind H. injection H as <-.
  destruct (ast.Kind t); try discriminate; try destruct b;
    injection E as <-; split; frame_chain idtac.
Qed.

Lemma arithBinop_frame op ty left leftType res v v' :
  ir.arithBinop op ty left leftType res v = Ok v' -> eframe v v' /\ rframe v v'.
Proof.
  unfold ir.arithBinop. destruct (ir.binOpMap op) as [irOp|]; [|discriminate].
  destruct (ir.isAddSub op && _); cbn -[ir.appendInstruction];
    repeat match goal with
           | |- context [if ?c then _ else _] => destruct c
           | |- context [match ?x with Some _ => _ | None => _ end] => destruct x
           end;
    cbn -[ir.appendInstruction];
    intros H; injection H as <-; split; frame_chain idtac.
Qed.

Lemma shortCircuit_frame isAnd left res lowerRhs v v' :
  (forall w w', lowerRhs w = Ok w' -> eframe w w' /\ rframe w w') ->
  ir.shortCircuit isAnd left res lowerRhs v = Ok v' ->
  eframe v v' /\ rframe v v'.
Proof.
  intros IH. unfold ir.shortCircuit. cbn -[ir.appendInstruction].
  intros H. inv_bind H. injection H as <-.
  split; frame_chain ltac:(eapply IH; eassumption).
Qed.

Lemma finishCall_frame calleeVal args ty v :
  eframe v (ir.finishCall calleeVal args ty v)
  /\ rframe v (ir.finishCall calleeVal args ty v).
Proof.
  unfold ir.finishCall. cbn -[ir.appendInstruction].
  destruct ty as [t|]; [destruct (negb _)|]; split; frame_chain idtac.
Qed.

Lemma lowerArgs_frame visit args :
  Forall (fun a => forall w w', visit (ast.Value a) w = Ok w' ->
                                eframe w w' /\ rframe w w') args ->
  forall acc v acc' v',
    ir.lowerArgs visit args acc v = Ok (acc', v') ->
    eframe v v' /\ rframe v v'.
Proof.
  induction 1 as [|a args Ha Hargs IH]; intros acc v acc' v' H.
  - injection H as <- <-. split; frame_chain idtac.
  - cbn in H. inv_bind H. apply IH in H.
    split; [apply (eframe_trans _ v0) | apply (rframe_trans _ v0)];
      try apply H; frame_chain ltac:(eapply Ha; eassumption).
Qed.

Lemma VisitExpression_frame (e : ast.Expression) :
  forall v v', ir.VisitExpression e v = Ok v' -> eframe v v' /\ rframe v v'.
Proof.
  induction e as [ty i b s | x ty | d ty IH | op l r ty IHl IHr | id args ty IH]
    using Expression_induction; intros v v' H.
  - now apply VisitLiteral_frame in H.
  - injection H as <-. split; frame_chain idtac.
  - cbn -[ir.appendInstruction] in H. inv_bind H. injection H as <-.
    split; frame_chain ltac:(eapply IH; eassumption).
  - cbn -[ir.appendInstruction ir.shortCircuit ir.arithBinop] in H.
    inv_bind H.
    assert (F : eframe v v0 /\ rframe v v0)
      by (split; frame_chain ltac:(eapply IHl; eassumption)).
    assert (G : forall w, eframe v0 w /\ rframe v0 w -> eframe v w /\ rframe v w).
    { intros w [G1 G2]. split;
        [apply (eframe_trans v v0) | apply (rframe_trans v v0)];
        solve [assumption | apply F]. }
    clear E.
    destruct op;
      try (inv_bind H; apply arithBinop_frame in H;
           apply G; split;
           [apply (eframe_trans _ v1) | apply (rframe_trans _ v1)];
           try apply H; frame_chain ltac:(eapply IHr; eassumption)).
    + apply G. split;
        frame_chain ltac:(eapply shortCircuit_frame; [exact IHr | eassumption]).
    + apply G. split;
        frame_chain ltac:(eapply shortCircuit_frame; [exact IHr | eassumption]).
  - cbn -[ir.finishCall] in H. inv_bind H. destruct v0 as [irArgs v0].
    injection H as <-. apply (lowerArgs_frame _ _ IH) in E.
    destruct (finishCall_frame
                (ir.NewValGlobal (ir.calleeIdent id (ir.FuncDefs (ir.unit v))))
                irArgs ty v0) as [F1 F2].
    split; [apply (eframe_trans _ v0) | apply (rframe_trans _ v0)];
      solve [assumption | apply E].
Qed.

(** ** Instructions keep [ret_ok] *)

Lemma visitAll_rframe {A : Type} (visit : A -> ir.visitor -> result ir.visitor)
      (l : list A) :
  Forall (fun a => forall w w', visit a w = Ok w' -> rframe w w') l ->
  forall v v', ir.visitAll visit l v = Ok v' -> rframe v v'.
Proof.
  induction 1 as [|a l Ha Hl IH]; intros v v' H.
  - injection H as <-. apply rframe_refl.
  - cbn in H. inv_bind H. apply (rframe_trans _ v0); eauto.
Qed.

Lemma VisitAssign_rframe lhs value v v' :
  ir.VisitAssign lhs value v = Ok v' -> rframe v v'.
Proof.
  unfold ir.VisitAssign. intros H. inv_bind H.
  destruct lhs; try discriminate; [|inv_bind H]; injection H as <-;
    frame_chain ltac:(eapply VisitExpression_frame; eassumption).
Qed.

Lemma VisitReturn_rframe value v v' :
  ir.VisitReturn value v = Ok v' -> rframe v v'.
Proof.
  unfold ir.VisitReturn. destruct value as [e|]; intros H;
    [inv_bind H|]; injection H as <-;
    frame_chain ltac:(eapply VisitExpression_frame; eassumption).
Qed.

Lemma VisitInstruction_rframe (i : ast.Instruction) :
  forall v v', ir.VisitInstruction i v = Ok v' -> rframe v v'.
Proof.
  induction i as [x ty | lhs value | id args ty | value
                 | init cond thn els IHinit IHthn IHels
                 | init cond post body IHinit IHpost IHbody
                 | l IH] using Instruction_induction; intros v v' H.
  - injection H as <-. apply rframe_refl.
  - now apply VisitAssign_rframe in H.
  - now apply VisitExpression_frame in H.
  - now apply VisitReturn_rframe in H.
  - cbn -[ir.appendInstruction] in H.
    do 3 inv_bind H. destruct els as [e|]; inv_bind H; injection H as <-;
      [|injection E2 as <-];
      frame_chain ltac:(first [ eapply VisitExpression_frame; eassumption
                              | eapply visitAll_rframe; [|eassumption]; eassumption
                              | eapply IHels; [reflexivity | eassumption] ]).
  - cbn -[ir.appendInstruction] in H.
    do 4 inv_bind H. injection H as <-.
    frame_chain ltac:(first [ eapply VisitExpression_frame; eassumption
                            | eapply visitAll_rframe; [|eassumption]; eassumption ]).
  - cbn in H. eapply visitAll_rframe; [|eassumption]; eassumption.
Qed.

(** ** Functions and units *)

Lemma lowerParams_fields ps : forall acc v,
  let v' := snd (ir.lowerParams ps acc v) in
  ir.lastInstructions v' = ir.lastInstructions v
  /\ ir.labelCounter v' = ir.labelCounter v
  /\ ir.tmpCounter v' = ir.tmpCounter v
  /\ ir.unit v' = ir.unit v.
Proof.
  induction ps as [|p ps IH]; intros acc v; [now cbn|].
  cbn. match goal with
       | |- context [ir.lowerParams ps ?a ?w] =>
           destruct (IH a w) as (E1 & E2 & E3 & E4)
       end.
  cbn in *. now rewrite E1, E2, E3, E4.
Qed.

Lemma funcStart_fields fd v :
  ir.lastInstructions (funcStart fd v) = []
  /\ ir.labelCounter (funcStart fd v) = 0
  /\ ir.tmpCounter (funcStart fd v) = ir.tmpCounter v
  /\ ir.unit (funcStart fd v) = ir.unit v.
Proof.
  unfold funcStart.
  destruct (lowerParams_fields (ast.fd_Params fd) []
              (ir.set_lastInstructions [] (ir.set_labelCounter 0 v)))
    as (E1 & E2 & E3 & E4).
  now rewrite E1, E2, E3, E4.
Qed.

(** What [VisitFuncDef] adds to the unit: one function, with no block when
    the definition has no body and else with the single block of the
    instructions lowered from the body. *)
Lemma VisitFuncDef_inv fd v v' :
  ir.VisitFuncDef fd v = Ok v' ->
  exists irFunc vb,
    v' = ir.add_FuncDef irFunc vb
    /\ ir.fd_Ident irFunc = ast.fd_Ident fd
    /\ ((ast.fd_Body fd = None /\ vb = funcStart fd v
         /\ ir.fd_Blocks irFunc = [])
        \/ (exists body,
               ast.fd_Body fd = Some body
               /\ ir.VisitBody body (funcStart fd v) = Ok vb
               /\ ir.fd_Blocks irFunc
                  = [ir.mkBlock "start" (ir.lastInstructions vb)])).
Proof.
  unfold ir.VisitFuncDef, funcStart.
  destruct (ir.lowerParams _ _ _) as [params v0]. cbn [snd].
  intros H. inv_bind H. inv_bind H. destruct v2 as [irFunc vb].
  injection H as <-. exists irFunc, vb. split; [reflexivity|].
  assert (B : ir.fd_Blocks v1 = [] /\ ir.fd_Ident v1 = ast.fd_Ident fd).
  { destruct (ast.attr_lookup ast.AttrKeyLinkname _) as [[[]|]|];
      try discriminate; injection E as <-; now cbn. }
  destruct B as [B I].
  set (f1 := match ast.fd_ReturnType fd with Some _ => _ | None => _ end) in *.
  assert (B1 : ir.fd_Blocks f1 = [] /\ ir.fd_Ident f1 = ast.fd_Ident fd).
  { subst f1. destruct (ast.fd_ReturnType fd); [destruct (negb _)|]; now cbn. }
  set (f2 := match ast.attr_lookup ast.AttrKeyExport _ with
             | Some _ => _ | None => _ end) in *.
  assert (B2 : ir.fd_Blocks f2 = [] /\ ir.fd_Ident f2 = ast.fd_Ident fd).
  { subst f2. destruct (ast.attr_lookup ast.AttrKeyExport _); now cbn. }
  destruct B2 as [B2 I2].
  destruct (ast.fd_Body fd) as [body|].
  - inv_bind E0. injection E0 as <- <-. split; [exact I2|].
    right. exists body. cbn. now rewrite B2.
  - injection E0 as <- <-. split; [exact I2|]. left. auto.
Qed.

Lemma visitAll_FuncDefs (Q : ir.FuncDef -> Prop) (I : ir.visitor -> Prop)
      (P : ast.FuncDef -> Prop) :
  (forall fd v v',
      P fd -> I v -> ir.VisitFuncDef fd v = Ok v' ->
      I v' /\ exists f,
        ir.FuncDefs (ir.unit v') = (ir.FuncDefs (ir.unit v) ++ [f])%list
        /\ Q f) ->
  forall funcs v v',
    Forall P funcs -> I v ->
    ir.visitAll ir.VisitFuncDef funcs v = Ok v' ->
    Forall Q (ir.FuncDefs (ir.unit v)) ->
    I v' /\ Forall Q (ir.FuncDefs (ir.unit v')).
Proof.
  intros Step funcs. induction funcs as [|fd funcs IH]; intros v v' HP HI H HQ.
  - injection H as <-. auto.
  - cbn in H. inv_bind H. inversion HP as [|? ? P1 P2]; subst.
    destruct (Step fd v v0 P1 HI E) as (I0 & f & E0 & Qf).
    apply (IH v0 v' P2 I0 H). rewrite E0.
    apply Forall_app. split; [assumption | now constructor].
Qed.

Lemma visitAll_Instruction_rframe body v v' :
  ir.visitAll ir.VisitInstruction body v = Ok v' -> rframe v v'.
Proof.
  apply visitAll_rframe. apply Forall_forall. intros i _.
  apply VisitInstruction_rframe.
Qed.

Lemma ret_ok_nth (l : list ir.Instruction) :
  ret_ok l = true ->
  forall n r, nth_error l n = Some (ir.Ret r) ->
              (S n < List.length l)%nat ->
              exists name, nth_error l (S n) = Some (ir.Label name).
Proof.
  induction l as [|i l IH]; intros H n r Hn Hlen; [destruct n; discriminate|].
  destruct n as [|n].
  - injection Hn as ->. destruct l as [|j l]; [cbn in Hlen; lia|].
    cbn in H. apply andb_true_iff in H as [H _].
    destruct j; try discriminate. now eexists.
  - cbn in Hn, Hlen.
    assert (H' : ret_ok l = true).
    { destruct i, l; cbn in H; try assumption; try reflexivity.
      now apply andb_true_iff in H as [_ H]. }
    apply (IH H' n r Hn). lia.
Qed.

(** Whatever holds of the instructions lowered from each body holds of each
    block of the lowered unit. *)
Lemma Lower_blocks (Q : list ir.Instruction -> Prop) (P : ast.FuncDef -> Prop) :
  (forall fd v body vb,
      P fd -> ast.fd_Body fd = Some body ->
      ir.VisitBody body (funcStart fd v) = Ok vb ->
      Q (ir.lastInstructions vb)) ->
  forall cu u,
    Forall P (ast.cu_Funcs cu) ->
    ir.Lower cu = Ok u ->
    forall fd blk,
      In fd (ir.FuncDefs u) -> In blk (ir.fd_Blocks fd) ->
      Q (ir.b_Instructions blk).
Proof.
  intros Step cu u HP H fd blk Hfd Hblk.
  unfold ir.Lower in H. inv_bind H. injection H as <-.
  unfold ir.VisitCompilationUnit in E.
  pose (Q' := fun f : ir.FuncDef =>
                forall b, In b (ir.fd_Blocks f) -> Q (ir.b_Instructions b)).
  assert (A : True /\ Forall Q' (ir.FuncDefs (ir.unit v))).
  { apply (visitAll_FuncDefs Q' (fun _ => True) P)
      with (funcs := ast.cu_Funcs cu) (v := ir.newVisitor);
      [| exact HP | exact I | exact E | constructor].
    intros f w w' Pf _ V. split; [exact I|].
    destruct (VisitFuncDef_inv f w w' V) as (irFunc & vb & -> & _ & C).
    exists irFunc. destruct C as [(_ & -> & B) | (body & Hb & V' & B)].
    - destruct (funcStart_fields f w) as (_ & _ & _ & U). cbn. rewrite U.
      split; [reflexivity|]. intros b. rewrite B. intros [].
    - pose proof (visitAll_Instruction_rframe _ _ _ V') as [_ U].
      destruct (funcStart_fields f w) as (_ & _ & _ & U').
      cbn. rewrite U, U'. split; [reflexivity|].
      intros b. rewrite B. intros [<-|[]]. cbn. exact (Step f w body vb Pf Hb V'). }
  destruct A as [_ A]. rewrite Forall_forall in A. exact (A fd Hfd blk Hblk).
Qed.

(** C4.  In every function of a successfully lowered unit, a [Ret] that is
    not the last instruction of the function's instruction list is followed
    immediately by a [Label]. *)
Theorem C4_ret_followed_by_label :
  forall cu u,
    ir.Lower cu = Ok u ->
    forall fd blk,
      In fd (ir.FuncDefs u) -> In blk (ir.fd_Blocks fd) ->
      forall n r,
        nth_error (ir.b_Instructions blk) n = Some (ir.Ret r) ->
        (S n < List.length (ir.b_Instructions blk))%nat ->
        exists name,
          nth_error (ir.b_Instructions blk) (S n) = Some (ir.Label name).
Proof.
  intros cu u H fd blk Hfd Hblk.
  apply ret_ok_nth.
  apply (Lower_blocks (fun l => ret_ok l = true) (fun _ => True))
    with (cu := cu) (u := u) (fd := fd); auto.
  - intros f w body vb _ _ V.
    apply visitAll_Instruction_rframe in V. destruct V as [R _].
    apply R. now destruct (funcStart_fields f w) as (-> & _).
  - apply Forall_forall. auto.
Qed.

Lemma C4_ret_followed_by_label_witness :
  ir.Lower sample_if_unit = Ok sample_if_ir
  /\ nth_error (ir.b_Instructions sample_if_block) 3
     = Some (ir.Ret (Some (Some (ir.ValInteger 1))))
  /\ exists name,
      nth_error (ir.b_Instructions sample_if_block) 4 = Some (ir.Label name).
Proof.
  split; [reflexivity|]. split; [reflexivity|].
  apply (C4_ret_followed_by_label sample_if_unit sample_if_ir eq_refl
           sample_if_fd sample_if_block (or_introl eq_refl) (or_introl eq_refl)
           3 (Some (Some (ir.ValInteger 1))) eq_refl).
  cbn. lia.
Defined.

(** ** Labels: every number once, every jump to a defined label *)

Lemma labels_of_app (a b : list ir.Instruction) :
  labels_of (a ++ b) = (labels_of a ++ labels_of b)%list.
Proof. apply flat_map_app. Qed.

Lemma targets_of_app (a b : list ir.Instruction) :
  targets_of (a ++ b) = (targets_of a ++ targets_of b)%list.
Proof. apply flat_map_app. Qed.

Lemma label_nums_app (a b : list ir.Instruction) :
  label_nums (a ++ b) = (label_nums a ++ label_nums b)%list.
Proof. unfold label_nums. now rewrite labels_of_app, map_app. Qed.

Lemma cnt_app (a b : list Z) (k : Z) : cnt (a ++ b) k = (cnt a k + cnt b k)%nat.
Proof. apply count_occ_app. Qed.

Lemma cnt_cons (a : Z) (l : list Z) (k : Z) :
  cnt (a :: l) k = ((if Z.eq_dec a k then 1 else 0) + cnt l k)%nat.
Proof. unfold cnt. cbn. now destruct (Z.eq_dec a k). Qed.

Lemma cnt_nil (k : Z) : cnt [] k = 0%nat.
Proof. reflexivity. Qed.

Ltac unwrap :=
  repeat match goal with
         | |- context [wrap64 ?z] => rewrite (wrap64_small z) by lia
         | H : context [wrap64 ?z] |- _ => rewrite (wrap64_small z) in H by lia
         end.

Ltac cnt_solve :=
  cbn [app map];
  repeat rewrite cnt_app; repeat rewrite cnt_cons; repeat rewrite cnt_nil;
  repeat match goal with
         | |- context [Z.eq_dec ?a ?b] => destruct (Z.eq_dec a b)
         end;
  lia.

Lemma gspec_refl (v : ir.visitor) : gspec 0 [] [] [] v v.
Proof.
  split; [lia|]. intros _ _. exists []. rewrite app_nil_r.
  split; [reflexivity|]. split; [lia|]. split; [|split].
  - intros k. split; intros; [lia | reflexivity].
  - intros x [].
  - intros s [].
Qed.

Lemma gspec_same (v w w' : ir.visitor) n s e t :
  ir.lastInstructions w' = ir.lastInstructions w ->
  ir.labelCounter w' = ir.labelCounter w ->
  gspec n s e t v w -> gspec n s e t v w'.
Proof.
  intros E1 E2 [Hn H]. split; [assumption|]. intros A B.
  destruct (H A B) as (new & E & R & G). exists new. rewrite E1, E2. auto.
Qed.

Lemma gspec_trans (a b c : ir.visitor) n1 s1 e1 t1 n2 s2 e2 t2 :
  gspec n1 s1 e1 t1 a b -> gspec n2 s2 e2 t2 b c ->
  gspec (n1 + n2) (s1 ++ s2) (e1 ++ e2) (t1 ++ t2) a c.
Proof.
  intros [N1 H1] [N2 H2]. split; [lia|]. intros A B.
  destruct H1 as (new1 & E1 & R1 & G1 & I1 & T1); [lia | lia |].
  destruct H2 as (new2 & E2 & R2 & G2 & I2 & T2); [lia | lia |].
  exists (new1 ++ new2)%list.
  split; [rewrite E2, E1, app_assoc; reflexivity|]. split; [lia|].
  split; [|split].
  - intros k. specialize (G1 k). specialize (G2 k).
    rewrite label_nums_app, map_app, !cnt_app. lia.
  - rewrite labels_of_app.
    apply incl_app; [apply incl_appl | apply incl_appr]; assumption.
  - intros x. rewrite targets_of_app, labels_of_app, !in_app_iff.
    intros [H|H]; [destruct (T1 x H) | destruct (T2 x H)]; auto.
Qed.

Lemma gspec_alloc (w : ir.visitor) :
  gspec 1 [wrap64 (ir.labelCounter w + 1)] [] [] w
        (ir.set_labelCounter (wrap64 (ir.labelCounter w + 1)) w).
Proof.
  split; [lia|]. intros A B. exists []. cbn. rewrite app_nil_r. unwrap.
  split; [reflexivity|]. split; [lia|]. split; [|split].
  - intros k. split; intros; cnt_solve.
  - intros x [].
  - intros s [].
Qed.

Lemma gspec_append_label (s : string) (w : ir.visitor) :
  gspec 0 [] [s] [] w (ir.appendInstruction (ir.Label s) w).
Proof.
  split; [lia|]. intros A B.
  destruct (appendInstruction_instrs (ir.Label s) w)
    as (blk & E & _ & _ & _ & [[-> L] | (F & _)]); [|discriminate F].
  exists [ir.Label s]. rewrite L. split; [exact E|]. split; [lia|].
  split; [|split].
  - intros k. rewrite cnt_nil, Nat.add_0_r. split; intros; [lia | reflexivity].
  - intros x [<-|[]]. now left.
  - intros x [].
Qed.

Lemma gspec_append (i : ir.Instruction) (w : ir.visitor) :
  ir.is_Label i = false ->
  gspec 1 [] [] (targets_of [i]) w (ir.appendInstruction i w).
Proof.
  intros NL. split; [lia|]. intros A B.
  assert (L0 : labels_of [i] = []) by (destruct i; try reflexivity; discriminate).
  destruct (appendInstruction_instrs i w)
    as (blk & E & _ & _ & _ & [[-> L] | (_ & _ & -> & L)]).
  - exists [i]. rewrite L. split; [exact E|]. split; [lia|].
    unfold gseg, label_nums. rewrite L0. split; [|split].
    + intros k. split; intros; [lia | reflexivity].
    + intros x [].
    + intros x H. now right.
  - rewrite L. unwrap.
    exists [ir.Label (sprintf_label (ir.labelCounter w + 1) "block"); i].
    split; [rewrite E; unwrap; reflexivity|]. split; [lia|].
    unfold gseg, label_nums.
    change [ir.Label (sprintf_label (ir.labelCounter w + 1) "block"); i]
      with ([ir.Label (sprintf_label (ir.labelCounter w + 1) "block")] ++ [i])%list.
    rewrite labels_of_app, targets_of_app, L0. cbn [labels_of flat_map app map].
    rewrite label_num_sprintf by lia. split; [|split].
    + intros k. split; intros; cnt_solve.
    + intros x [].
    + intros x H. now right.
Qed.

(** Once every label that was allocated and not defined on the spot is
    defined, and every open jump goes to one of them, the run is closed. *)
Lemma gspec_resolve (v v' : ir.visitor) n m s e t :
  gspec n s e t v v' ->
  n <= m ->
  incl t e ->
  (0 <= ir.labelCounter v -> ir.labelCounter v + m < 2 ^ 63 ->
   forall k, cnt s k = cnt (map label_num e) k) ->
  lspec m v v'.
Proof.
  intros [N H] Hm It Hs. split; [lia|]. intros A B.
  destruct H as (new & E & R & G & I & T); [lia | lia |].
  exists new. split; [exact E|]. split; [lia|]. split; [|split].
  - intros k. specialize (G k). specialize (Hs A B k). cbn [map]. rewrite cnt_nil. lia.
  - intros x [].
  - intros x Hx. left. destruct (T x Hx) as [?|Ht]; [assumption|].
    apply I, It, Ht.
Qed.

Ltac gchain use_IH :=
  lazymatch goal with
  | |- gspec _ _ _ _ ?v ?v => apply gspec_refl
  | |- gspec _ _ _ _ ?v (ir.appendInstruction (ir.NewLabel ?s) ?w) =>
      eapply (gspec_trans v w); [gchain use_IH | apply gspec_append_label]
  | |- gspec _ _ _ _ ?v (ir.appendInstruction (ir.Label ?s) ?w) =>
      eapply (gspec_trans v w); [gchain use_IH | apply gspec_append_label]
  | |- gspec _ _ _ _ ?v (ir.appendInstruction ?i ?w) =>
      eapply (gspec_trans v w); [gchain use_IH | apply gspec_append; reflexivity]
  | |- gspec _ _ _ _ ?v (ir.set_labelCounter ?c ?w) =>
      eapply (gspec_trans v w); [gchain use_IH | apply (gspec_alloc w)]
  | E : _ ?b = Ok ?w |- gspec _ _ _ _ ?v ?w =>
      eapply (gspec_trans v b); [gchain use_IH | use_IH]
  | E : _ ?b = Ok (_, ?w) |- gspec _ _ _ _ ?v ?w =>
      eapply (gspec_trans v b); [gchain use_IH | use_IH]
  | |- gspec _ _ _ _ ?v (?f ?x ?w) =>
      eapply (gspec_same v w); [reflexivity | reflexivity | gchain use_IH]
  end.

Lemma sumZ_nonneg {A : Type} (f : A -> Z) (l : list A) :
  Forall (fun a => 0 <= f a) l -> 0 <= sumZ f l.
Proof. induction 1; unfold sumZ in *; cbn; lia. Qed.

Lemma sumZ_cons {A : Type} (f : A -> Z) (a : A) (l : list A) :
  sumZ f (a :: l) = f a + sumZ f l.
Proof. reflexivity. Qed.

Lemma ecost_nonneg (e : ast.Expression) : 0 <= ecost e.
Proof.
  induction e using Expression_induction; cbn [ecost]; try lia.
  pose proof (sumZ_nonneg (fun a => ecost (ast.Value a)) args H). lia.
Qed.

Lemma sumZ_ecost_nonneg (args : list ast.Arg) :
  0 <= sumZ (fun a => ecost (ast.Value a)) args.
Proof.
  apply sumZ_nonneg, Forall_forall. intros a _. apply ecost_nonneg.
Qed.

Lemma icost_nonneg (i : ast.Instruction) : 0 <= icost i.
Proof.
  induction i using Instruction_induction; cbn [icost].
  - lia.
  - pose proof (ecost_nonneg lhs). pose proof (ecost_nonneg value). lia.
  - apply ecost_nonneg.
  - destruct value as [e|]; [pose proof (ecost_nonneg e)|]; lia.
  - pose proof (sumZ_nonneg icost init H).
    pose proof (sumZ_nonneg icost thn H0).
    pose proof (ecost_nonneg cond).
    destruct els as [e|]; [pose proof (H1 e eq_refl)|]; lia.
  - pose proof (sumZ_nonneg icost init H).
    pose proof (sumZ_nonneg icost post H0).
    pose proof (sumZ_nonneg icost body H1).
    pose proof (ecost_nonneg cond). lia.
  - pose proof (sumZ_nonneg icost l H). lia.
Qed.

Lemma sumZ_icost_nonneg (l : list ast.Instruction) : 0 <= sumZ icost l.
Proof.
  apply sumZ_nonneg, Forall_forall. intros a _. apply icost_nonneg.
Qed.

(** Brings the sign of every cost in sight into the context. *)
Ltac cost_facts :=
  repeat match goal with
         | |- context [ecost ?e] =>
             lazymatch goal with
             | _ : 0 <= ecost e |- _ => fail
             | _ => pose proof (ecost_nonneg e)
             end
         | _ : context [ecost ?e] |- _ =>
             lazymatch goal with
             | _ : 0 <= ecost e |- _ => fail
             | _ => pose proof (ecost_nonneg e)
             end
         | _ : context [icost ?e] |- _ =>
             lazymatch goal with
             | _ : 0 <= icost e |- _ => fail
             | _ => pose proof (icost_nonneg e)
             end
         | _ : context [sumZ icost ?l] |- _ =>
             lazymatch goal with
             | _ : 0 <= sumZ icost l |- _ => fail
             | _ => pose proof (sumZ_icost_nonneg l)
             end
         | _ : context [sumZ (fun a => ecost (ast.Value a)) ?l] |- _ =>
             lazymatch goal with
             | _ : 0 <= sumZ (fun a => ecost (ast.Value a)) l |- _ => fail
             | _ => pose proof (sumZ_ecost_nonneg l)
             end
         end.

Ltac incl_solve := cbn [app targets_of flat_map]; intros ?x; cbn; tauto.

Ltac skip_solve :=
  let A := fresh "A" in
  let B := fresh "B" in
  let k := fresh "k" in
  intros A B k; cbn [ir.labelCounter ir.set_labelCounter app map];
  cbn [ecost icost] in B; cost_facts; unwrap; repeat rewrite label_num_sprintf by lia; cnt_solve.

Ltac gclose use_IH :=
  eapply gspec_resolve; [gchain use_IH | cbn [ecost icost]; try lia | incl_solve | skip_solve].

Lemma VisitLiteral_lspec ty i b s v v' :
  ir.VisitLiteral ty i b s v = Ok v' -> lspec 8 v v'.
Proof.
  unfold ir.VisitLiteral. destruct ty as [t|]; [|discriminate].
  intros H. inv_bind H. injection H as <-.
  destruct (ast.Kind t); try discriminate; try destruct b;
    injection E as <-; gclose idtac.
Qed.

Lemma arithBinop_lspec op ty left leftType res v v' :
  ir.arithBinop op ty left leftType res v = Ok v' -> lspec 2 v v'.
Proof.
  unfold ir.arithBinop. destruct (ir.binOpMap op) as [irOp|]; [|discriminate].
  destruct (ir.isAddSub op && _); cbn -[ir.appendInstruction];
    repeat match goal with
           | |- context [if ?c then _ else _] => destruct c
           | |- context [match ?x with Some _ => _ | None => _ end] => destruct x
           end;
    cbn -[ir.appendInstruction];
    intros H; injection H as <-; gclose idtac.
Qed.

Lemma shortCircuit_lspec isAnd left res lowerRhs c v v' :
  0 <= c ->
  (forall w w', lowerRhs w = Ok w' -> lspec c w w') ->
  ir.shortCircuit isAnd left res lowerRhs v = Ok v' ->
  lspec (7 + c) v v'.
Proof.
  intros C IH H. unfold ir.shortCircuit in H. cbn -[ir.appendInstruction] in H.
  inv_bind H. injection H as <-.
  destruct isAnd; gclose ltac:(eapply IH; eassumption).
Qed.

Lemma finishCall_lspec calleeVal args ty v :
  lspec 1 v (ir.finishCall calleeVal args ty v).
Proof.
  unfold ir.finishCall. cbn -[ir.appendInstruction].
  destruct ty as [t|]; [destruct (negb _)|]; gclose idtac.
Qed.

Lemma lowerArgs_lspec visit args :
  Forall (fun a => forall w w', visit (ast.Value a) w = Ok w' ->
                                lspec (ecost (ast.Value a)) w w') args ->
  forall acc v acc' v',
    ir.lowerArgs visit args acc v = Ok (acc', v') ->
    lspec (sumZ (fun a => ecost (ast.Value a)) args) v v'.
Proof.
  induction 1 as [|a args Ha Hargs IH]; intros acc v acc' v' H.
  - injection H as <- <-. apply gspec_refl.
  - cbn in H. inv_bind H. apply IH in H.
    eapply gspec_resolve;
      [eapply (gspec_trans v v0); [gchain ltac:(eapply Ha; eassumption) | exact H]
      | rewrite sumZ_cons; lia | incl_solve | skip_solve].
Qed.

Lemma VisitExpression_lspec (e : ast.Expression) :
  forall v v', ir.VisitExpression e v = Ok v' -> lspec (ecost e) v v'.
Proof.
  induction e as [ty i b s | x ty | d ty IH | op l r ty IHl IHr | id args ty IH]
    using Expression_induction; intros v v' H.
  - now apply VisitLiteral_lspec in H.
  - injection H as <-. gclose idtac.
  - cbn -[ir.appendInstruction] in H. inv_bind H. injection H as <-.
    gclose ltac:(eapply IH; eassumption).
  - cbn -[ir.appendInstruction ir.shortCircuit ir.arithBinop] in H.
    inv_bind H.
    destruct op;
      try (inv_bind H;
           gclose ltac:(first [ eapply IHl; eassumption
                              | eapply IHr; eassumption
                              | eapply arithBinop_lspec; eassumption ])).
    + gclose ltac:(first [ eapply IHl; eassumption
                         | eapply shortCircuit_lspec; [apply ecost_nonneg | exact IHr | eassumption] ]).
    + gclose ltac:(first [ eapply IHl; eassumption
                         | eapply shortCircuit_lspec; [apply ecost_nonneg | exact IHr | eassumption] ]).
  - cbn -[ir.finishCall] in H. inv_bind H. destruct v0 as [irArgs v0].
    injection H as <-.
    apply (lowerArgs_lspec _ _ IH) in E.
    eapply gspec_resolve;
      [eapply gspec_trans; [exact E | apply finishCall_lspec]
      | cbn [ecost]; lia | incl_solve | skip_solve].
Qed.

Lemma visitAll_lspec (l : list ast.Instruction) :
  Forall (fun a => forall w w', ir.VisitInstruction a w = Ok w' ->
                                lspec (icost a) w w') l ->
  forall v v', ir.visitAll ir.VisitInstruction l v = Ok v' ->
               lspec (sumZ icost l) v v'.
Proof.
  induction 1 as [|a l Ha Hl IH]; intros v v' H.
  - injection H as <-. apply gspec_refl.
  - cbn in H. inv_bind H. apply IH in H. apply Ha in E.
    eapply gspec_resolve;
      [eapply (gspec_trans v v0); [exact E | exact H]
      | rewrite sumZ_cons; lia | incl_solve | skip_solve].
Qed.

Lemma VisitAssign_lspec lhs value v v' :
  ir.VisitAssign lhs value v = Ok v' ->
  lspec (8 + ecost lhs + ecost value) v v'.
Proof.
  unfold ir.VisitAssign. intros H. inv_bind H.
  destruct lhs; try discriminate; [|inv_bind H]; injection H as <-;
    gclose ltac:(eapply VisitExpression_lspec; eassumption).
Qed.

Lemma VisitReturn_lspec value v v' :
  ir.VisitReturn value v = Ok v' -> lspec (icost (ast.Return value)) v v'.
Proof.
  unfold ir.VisitReturn. destruct value as [e|]; intros H;
    [inv_bind H|]; injection H as <-;
    gclose ltac:(eapply VisitExpression_lspec; eassumption).
Qed.

Lemma VisitInstruction_lspec (i : ast.Instruction) :
  forall v v', ir.VisitInstruction i v = Ok v' -> lspec (icost i) v v'.
Proof.
  induction i as [x ty | lhs value | id args ty | value
                 | init cond thn els IHinit IHthn IHels
                 | init cond post body IHinit IHpost IHbody
                 | l IH] using Instruction_induction; intros v v' H.
  - injection H as <-. gclose idtac.
  - now apply VisitAssign_lspec in H.
  - now apply VisitExpression_lspec in H.
  - now apply VisitReturn_lspec in H.
  - cbn -[ir.appendInstruction] in H.
    do 3 inv_bind H. destruct els as [e|]; inv_bind H; injection H as <-;
      [|injection E2 as <-];
      gclose ltac:(first [ eapply VisitExpression_lspec; eassumption
                         | eapply visitAll_lspec; [|eassumption]; eassumption
                         | eapply IHels; [reflexivity | eassumption] ]).
  - cbn -[ir.appendInstruction] in H.
    do 4 inv_bind H. injection H as <-.
    gclose ltac:(first [ eapply VisitExpression_lspec; eassumption
                       | eapply visitAll_lspec; [|eassumption]; eassumption ]).
  - cbn in H.
    eapply gspec_resolve;
      [eapply visitAll_lspec; eassumption
      | cbn [icost]; lia | incl_solve | skip_solve].
Qed.

Lemma VisitBody_lspec (body : list ast.Instruction) v v' :
  ir.VisitBody body v = Ok v' -> lspec (sumZ icost body) v v'.
Proof.
  apply visitAll_lspec, Forall_forall. intros i _.
  apply VisitInstruction_lspec.
Qed.

(** ** Jump targets *)

Lemma cnt_le_1_NoDup (l : list string) :
  (forall k, (cnt (map label_num l) k <= 1)%nat) -> NoDup l.
Proof.
  intros H. apply (NoDup_map_inv label_num).
  apply (NoDup_count_occ Z.eq_dec). exact H.
Qed.

Lemma body_labels (fd : ast.FuncDef) (v : ir.visitor)
      (body : list ast.Instruction) (vb : ir.visitor) :
  sumZ icost body < 2 ^ 63 ->
  ir.VisitBody body (funcStart fd v) = Ok vb ->
  0 <= ir.labelCounter vb
  /\ gseg 0 (ir.labelCounter vb) [] [] [] (ir.lastInstructions vb).
Proof.
  intros B V. apply VisitBody_lspec in V. destruct V as [_ V].
  destruct (funcStart_fields fd v) as (I0 & L0 & _).
  rewrite I0, L0 in V. destruct V as (new & E & R & G); [lia | lia |].
  cbn in E. rewrite E. split; [lia | exact G].
Qed.

(** C5.  In every function of a successfully lowered unit, every label named
    by a [Jnz] or a [Jmp] occurs as a [Label] instruction exactly once in the
    instruction list of that function. *)
Theorem C5_jump_targets_defined_once :
  forall cu u,
    Forall body_fits (ast.cu_Funcs cu) ->
    ir.Lower cu = Ok u ->
    forall fd blk,
      In fd (ir.FuncDefs u) -> In blk (ir.fd_Blocks fd) ->
      forall s,
        In s (targets_of (ir.b_Instructions blk)) ->
        count_occ string_dec (labels_of (ir.b_Instructions blk)) s = 1%nat.
Proof.
  intros cu u F H fd blk Hfd Hblk.
  apply (Lower_blocks
           (fun l => forall s, In s (targets_of l) ->
                               count_occ string_dec (labels_of l) s = 1%nat)
           body_fits) with (cu := cu) (u := u) (fd := fd); auto.
  clear. intros fd v body vb Fit Hb V s Hs.
  destruct (body_labels fd v body vb (Fit body Hb) V) as (_ & G & _ & T).
  apply NoDup_count_occ'.
  - apply cnt_le_1_NoDup. intros k. specialize (G k).
    fold (label_nums (ir.lastInstructions vb)).
    cbn [map] in G. rewrite !cnt_nil in G.
    destruct (Z_lt_dec 0 k); [destruct (Z_le_dec k (ir.labelCounter vb))|]; lia.
  - destruct (T s Hs) as [?|[]]. assumption.
Qed.

Lemma C5_jump_targets_defined_once_witness :
  Forall body_fits (ast.cu_Funcs sample_if_unit)
  /\ ir.Lower sample_if_unit = Ok sample_if_ir
  /\ In "L0003_end" (targets_of (ir.b_Instructions sample_if_block))
  /\ count_occ string_dec (labels_of (ir.b_Instructions sample_if_block))
               "L0003_end" = 1%nat.
Proof.
  assert (F : Forall body_fits (ast.cu_Funcs sample_if_unit)).
  { repeat constructor. intros body E. injection E as <-. vm_compute. reflexivity. }
  assert (T : In "L0003_end" (targets_of (ir.b_Instructions sample_if_block))).
  { cbn. tauto. }
  split; [exact F|]. split; [reflexivity|]. split; [exact T|].
  exact (C5_jump_targets_defined_once sample_if_unit sample_if_ir F eq_refl
           sample_if_fd sample_if_block (or_introl eq_refl) (or_introl eq_refl)
           "L0003_end" T).
Defined.

(** ** The shape of a lowered short-circuit operator *)

Lemma appendInstruction_plain (i : ir.Instruction) (v : ir.visitor) :
  (ir.is_Label i = true
   \/ exists j, ir.last_instr (ir.lastInstructions v) = Some j
                /\ ir.is_Ret j = false) ->
  ir.lastInstructions (ir.appendInstruction i v)
  = (ir.lastInstructions v ++ [i])%list.
Proof.
  intros H.
  destruct (appendInstruction_instrs i v)
    as (blk & E & _ & _ & _ & [[-> _] | (NL & (r & L) & _)]); [exact E|].
  destruct H as [H | (j & Hj & R)]; [congruence|].
  rewrite L in Hj. injection Hj as <-. discriminate R.
Qed.

Lemma eframe_last (w w' : ir.visitor) :
  eframe w w' ->
  (exists j, ir.last_instr (ir.lastInstructions w) = Some j
             /\ ir.is_Ret j = false) ->
  exists j, ir.last_instr (ir.lastInstructions w') = Some j
            /\ ir.is_Ret j = false.
Proof.
  intros (new & E & F) H. rewrite E.
  destruct new as [|a new] using rev_ind; [now rewrite app_nil_r|].
  rewrite app_assoc, last_instr_snoc. exists a. split; [reflexivity|].
  rewrite forallb_app in F. apply andb_true_iff in F as [_ F].
  cbn in F. rewrite andb_true_r in F. unfold not_Ret in F.
  now destruct (ir.is_Ret a).
Qed.



(** The instructions of [a && b], lowered by a fresh visitor. *)
Example sample_and_instructions :
  ir.lastInstructions sample_and_state
  = [ir.Jnz (Some (ir.ValIdent "a")) "L0001_true" "L0002_false";
     ir.Label "L0002_false";
     ir.Binop ir.BinOpAdd (Some (ir.ValIdent "_tmp_0001"))
              (Some (ir.ValIdent "a")) (Some (ir.ValInteger 0));
     ir.Jmp "L0003_end";
     ir.Label "L0001_true";
     ir.Binop ir.BinOpAdd (Some (ir.ValIdent "_tmp_0001"))
              (Some (ir.ValIdent "b")) (Some (ir.ValInteger 0));
     ir.Label "L0003_end"].
Proof. reflexivity. Qed.

(** ** Destinations: who writes which local *)

























(** ** Single assignment, as far as it goes *)








(** ** Counters at a function boundary *)




(** ** One counter for every prefix *)



(** ** The tokenizer *)

Lemma numeric_class (d : ascii) :
  lexer.isNumeric d = true ->
  Ascii.eqb d "=" = false /\ Ascii.eqb d "(" = false
  /\ Ascii.eqb d ")" = false /\ Ascii.eqb d "{" = false
  /\ Ascii.eqb d "}" = false /\ Ascii.eqb d "," = false
  /\ Ascii.eqb d ":" = false /\ Ascii.eqb d "@" = false
  /\ Ascii.eqb d "+" = false /\ Ascii.eqb d "/" = false
  /\ Ascii.eqb d "-" = false /\ lexer.isWhitespace d = false
  /\ Ascii.eqb d "034" = false /\ Ascii.eqb d ">" = false.
Proof.
  destruct d as [[] [] [] [] [] [] [] []]; vm_compute; intros H;
    try discriminate H; repeat split.
Qed.

Lemma readWhile_spec (keep : ascii -> bool) (ds : list ascii) :
  forall buf p c r fuel,
    forallb keep ds = true -> keep c = false ->
    (List.length ds < fuel)%nat ->
    lexer.readWhile keep fuel buf (lexer.mkScanner p (ds ++ c :: r))
    = Ok ((buf ++ ds)%list, lexer.mkScanner (rev ds ++ p) (c :: r)).
Proof.
  induction ds as [|d ds IH]; intros buf p c r fuel K C F;
    (destruct fuel as [|fuel]; [cbn in F; lia|]).
  - cbn. rewrite C. now rewrite app_nil_r.
  - cbn in K. apply andb_true_iff in K as [Kd K]. cbn. rewrite Kd.
    rewrite IH by (try assumption; cbn in F; lia).
    now rewrite <- !app_assoc.
Qed.

(** [next] on a numeral: the digits up to the first other byte are the text
    of the token, after what [buf] holds, and [Atoi] decides. *)
Lemma nextLoop_number fuel buf p d ds c r :
  lexer.isNumeric d = true -> forallb lexer.isNumeric ds = true ->
  lexer.isNumeric c = false ->
  lexer.nextLoop (S fuel) buf (lexer.mkScanner p (d :: ds ++ c :: r))
  = do num <- lexer.Atoi (buf ++ d :: ds);
    Ok (lexer.mkToken lexer.TypeNumber "" ""
                      (string_of_list_ascii (buf ++ d :: ds)) num
                      (S (List.length p)),
        lexer.mkScanner (rev ds ++ d :: p) (c :: r)).
Proof.
  intros D DS C.
  destruct (numeric_class d D)
    as (E1 & E2 & E3 & E4 & E5 & E6 & E7 & E8 & E9 & E10 & E11 & E12 & E13 & _).
  cbn -[lexer.readWhile lexer.Atoi lexer.isWhitespace lexer.isNumeric].
  rewrite E1, E2, E3, E4, E5, E6, E7, E8, E9, E10, E11, E12, E13, D.
  unfold lexer.left. cbn [lexer.rest].
  rewrite readWhile_spec by (try assumption; rewrite length_app; cbn; lia).
  cbn [bind]. now rewrite <- app_assoc.
Qed.

Lemma skipped_class (c : ascii) :
  skipped c = true ->
  Ascii.eqb c "=" = false /\ Ascii.eqb c "(" = false
  /\ Ascii.eqb c ")" = false /\ Ascii.eqb c "{" = false
  /\ Ascii.eqb c "}" = false /\ Ascii.eqb c "," = false
  /\ Ascii.eqb c ":" = false /\ Ascii.eqb c "@" = false
  /\ Ascii.eqb c "+" = false /\ Ascii.eqb c "/" = false
  /\ Ascii.eqb c "-" = false
  /\ (lexer.isWhitespace c = true
      \/ lexer.isWhitespace c = false /\ Ascii.eqb c "034" = false
         /\ lexer.isNumeric c = false /\ lexer.isAlpha c = false).
Proof.
  destruct c as [[] [] [] [] [] [] [] []]; vm_compute; intros H;
    try discriminate H; repeat split; auto.
Qed.

Lemma nextLoop_skipped fuel buf p c r :
  skipped c = true ->
  lexer.nextLoop (S fuel) buf (lexer.mkScanner p (c :: r))
  = lexer.nextLoop fuel buf (lexer.mkScanner (c :: p) r).
Proof.
  intros H.
  destruct (skipped_class c H)
    as (E1 & E2 & E3 & E4 & E5 & E6 & E7 & E8 & E9 & E10 & E11 & W).
  cbn -[lexer.isWhitespace lexer.isNumeric lexer.isAlpha].
  rewrite E1, E2, E3, E4, E5, E6, E7, E8, E9, E10, E11.
  destruct W as [W|(W & Q & N & A)].
  - now rewrite W.
  - now rewrite W, Q, N, A.
Qed.

Lemma nextLoop_skip (ws : list ascii) :
  forall fuel buf p r,
    forallb skipped ws = true ->
    lexer.nextLoop (List.length ws + fuel) buf (lexer.mkScanner p (ws ++ r))
    = lexer.nextLoop fuel buf (lexer.mkScanner (rev ws ++ p) r).
Proof.
  induction ws as [|w ws IH]; intros fuel buf p r H; [reflexivity|].
  cbn in H. apply andb_true_iff in H as [Hw H].
  cbn [List.length Nat.add app]. rewrite nextLoop_skipped by assumption.
  rewrite IH by assumption. cbn [rev]. now rewrite <- app_assoc.
Qed.

(** [next] on [-] and a digit: the [-] goes into the buffer and the numeral
    is read after it. *)
Lemma nextLoop_minus fuel p d r :
  lexer.isNumeric d = true ->
  lexer.nextLoop (S fuel) [] (lexer.mkScanner p ("-"%char :: d :: r))
  = lexer.nextLoop fuel ["-"%char] (lexer.mkScanner ("-"%char :: p) (d :: r)).
Proof.
  intros D. destruct (numeric_class d D) as (_ & _ & _ & _ & _ & _ & _ & _ & _
                                             & _ & _ & _ & _ & E).
  cbn -[lexer.isNumeric]. now rewrite E, D.
Qed.

(** *** Every token reads a byte *)

Lemma Scanner_Next_inv s c s' :
  lexer.Scanner_Next s = Ok (c, s') ->
  lexer.rest s = c :: lexer.rest s'
  /\ s' = lexer.mkScanner (c :: lexer.consumed s) (lexer.rest s').
Proof.
  unfold lexer.Scanner_Next. destruct (lexer.rest s) as [|x r]; [discriminate|].
  intros H. injection H as <- <-. now split.
Qed.

Lemma skipComment_rest fuel : forall s s',
  lexer.skipComment fuel s = Ok s' ->
  (List.length (lexer.rest s') < List.length (lexer.rest s))%nat.
Proof.
  induction fuel as [|fuel IH]; intros s s' H; [discriminate|].
  cbn in H. inv_bind H. destruct v as [c s1].
  apply Scanner_Next_inv in E as [E _]. rewrite E. cbn [List.length].
  destruct (_ || _).
  - injection H as <-. lia.
  - apply IH in H. lia.
Qed.

Lemma readString_rest fuel : forall buf s buf' s',
  lexer.readString fuel buf s = Ok (buf', s') ->
  (List.length (lexer.rest s') < List.length (lexer.rest s))%nat.
Proof.
  induction fuel as [|fuel IH]; intros buf s buf' s' H; [discriminate|].
  cbn in H. inv_bind H. destruct v as [c s1].
  apply Scanner_Next_inv in E as [E _]. rewrite E. cbn [List.length].
  destruct (Ascii.eqb c "034").
  - injection H as <- <-. lia.
  - destruct (Ascii.eqb c "\").
    + inv_bind H. destruct v as [c2 s2].
      apply Scanner_Next_inv in E0 as [E0 _]. rewrite E0. cbn [List.length].
      apply IH in H. lia.
    + apply IH in H. lia.
Qed.

Lemma readWhile_rest keep fuel : forall buf s buf' s',
  lexer.readWhile keep fuel buf s = Ok (buf', s') ->
  (List.length (lexer.rest s') <= List.length (lexer.rest s))%nat.
Proof.
  induction fuel as [|fuel IH]; intros buf s buf' s' H; [discriminate|].
  cbn in H. inv_bind H. destruct v as [c s1].
  apply Scanner_Next_inv in E as [E E']. rewrite E. cbn [List.length].
  destruct (keep c).
  - apply IH in H. lia.
  - injection H as <- <-. rewrite E'. cbn. lia.
Qed.

Lemma nextLoop_rest fuel : forall buf s tok s',
  lexer.nextLoop fuel buf s = Ok (tok, s') ->
  (List.length (lexer.rest s') < List.length (lexer.rest s))%nat.
Proof.
  induction fuel as [|fuel IH]; intros buf s tok s' H; [discriminate|].
  cbn -[lexer.isWhitespace lexer.isNumeric lexer.isAlpha lexer.Atoi
        lexer.checkKeyword lexer.Scanner_Unread lexer.skipComment
        lexer.readString lexer.readWhile lexer.left] in H.
  inv_bind H. destruct v as [c s1].
  apply Scanner_Next_inv in E as [E E']. rewrite E. cbn [List.length].
  unfold lexer.simple in H.
  repeat match type of H with
         | (if ?b then _ else _) = _ => destruct b
         | Ok _ = Ok _ => injection H as <- <-; lia
         end.
  - (* [/] *)
    inv_bind H. destruct v as [c2 s2].
    apply Scanner_Next_inv in E0 as [E0 E0'].
    destruct (Ascii.eqb c2 "/").
    + inv_bind H. apply skipComment_rest in E1. apply IH in H.
      rewrite E0. cbn [List.length]. lia.
    + apply IH in H. rewrite E0' in H. cbn in H. rewrite E0.
      cbn [List.length]. lia.
  - (* [-] *)
    inv_bind H. destruct v as [c2 s2].
    apply Scanner_Next_inv in E0 as [E0 E0'].
    rewrite E0. cbn [List.length].
    destruct (Ascii.eqb c2 ">"); [injection H as <- <-; lia|].
    destruct (lexer.isNumeric c2); apply IH in H; rewrite E0' in H;
      cbn in H; lia.
  - apply IH in H. lia.
  - inv_bind H. destruct v as [b s2]. injection H as <- <-.
    apply readString_rest in E0. lia.
  - inv_bind H. destruct v as [b s2]. inv_bind H. injection H as <- <-.
    apply readWhile_rest in E0. lia.
  - inv_bind H. destruct v as [b s2].
    destruct (lexer.checkKeyword _) as [kw []]; injection H as <- <-;
      apply readWhile_rest in E0; lia.
  - apply IH in H. lia.
Qed.

Lemma next_measure t tok t' :
  lexer.next t = Ok (tok, t') -> (measure t' < measure t)%nat.
Proof.
  unfold lexer.next, measure, lexer.left.
  destruct (lexer.Buffer t) as [|b bs].
  - intros H. inv_bind H. destruct v as [tk s]. injection H as <- <-.
    apply nextLoop_rest in E. cbn. lia.
  - intros H. injection H as <- <-. cbn. lia.
Qed.


(** *** Enough fuel *)

Lemma skipComment_eof_or_ok fuel : forall s,
  (List.length (lexer.rest s) < fuel)%nat ->
  eof_or_ok (lexer.skipComment fuel s).
Proof.
  induction fuel as [|fuel IH]; intros [p r] L; [cbn in L; lia|].
  destruct r as [|c r]; [exact I|]. cbn in L |- *.
  destruct (_ || _); [exact I|]. apply IH. cbn. lia.
Qed.

Lemma readString_eof_or_ok fuel : forall buf s,
  (List.length (lexer.rest s) < fuel)%nat ->
  eof_or_ok (lexer.readString fuel buf s).
Proof.
  induction fuel as [|fuel IH]; intros buf [p r] L; [cbn in L; lia|].
  destruct r as [|c r]; [exact I|]. cbn in L |- *.
  destruct (Ascii.eqb c "034"); [exact I|].
  destruct (Ascii.eqb c "\").
  - destruct r as [|c2 r]; [exact I|]. cbn in L |- *. apply IH. cbn. lia.
  - apply IH. cbn. lia.
Qed.

Lemma readWhile_eof_or_ok keep fuel : forall buf s,
  (List.length (lexer.rest s) < fuel)%nat ->
  eof_or_ok (lexer.readWhile keep fuel buf s).
Proof.
  induction fuel as [|fuel IH]; intros buf [p r] L; [cbn in L; lia|].
  destruct r as [|c r]; [exact I|]. cbn in L |- *.
  destruct (keep c); [|exact I]. apply IH. cbn. lia.
Qed.

Lemma Atoi_benign buf : benign (lexer.Atoi buf).
Proof.
  unfold lexer.Atoi.
  destruct buf as [|c r]; [exact I|].
  destruct (Ascii.eqb c "-"); [|destruct (Ascii.eqb c "+")];
    repeat match goal with
           | |- benign (match ?x with _ => _ end) => destruct x
           | |- benign (if ?b then _ else _) => destruct b
           end; exact I.
Qed.

Lemma eof_or_ok_bind {A B : Type} (m : result A) (f : A -> result B) :
  eof_or_ok m -> (forall a, m = Ok a -> benign (f a)) -> benign (bind m f).
Proof.
  destruct m as [a|[]]; cbn; auto; contradiction.
Qed.

Lemma nextLoop_benign fuel : forall buf s,
  (List.length (lexer.rest s) < fuel)%nat ->
  benign (lexer.nextLoop fuel buf s).
Proof.
  induction fuel as [|fuel IH]; intros buf [p r] L; [cbn in L; lia|].
  destruct r as [|c r]; [exact I|]. cbn [lexer.rest List.length] in L.
  destruct r as [|c2 r];
    cbn -[lexer.isWhitespace lexer.isNumeric lexer.isAlpha lexer.Atoi
          lexer.checkKeyword lexer.skipComment lexer.readString
          lexer.readWhile lexer.left];
    unfold lexer.simple;
    repeat match goal with
           | |- benign (if ?b then _ else _) => destruct b
           | |- benign (Ok _) => exact I
           | |- benign (Err EOF) => exact I
           | |- benign (lexer.nextLoop _ _ _) => apply IH; cbn in *; lia
           end.
  all: try (apply eof_or_ok_bind;
            [first [apply skipComment_eof_or_ok | apply readString_eof_or_ok
                   | apply readWhile_eof_or_ok]; unfold lexer.left; cbn; lia|];
            intros a Ha).
  all: try (apply IH; apply skipComment_rest in Ha; cbn in *; lia).
  all: try (destruct a as [b s2]; cbn; exact I).
  all: try (destruct a as [b s2]; destruct (lexer.checkKeyword _) as [kw []];
            exact I).
  all: destruct a as [b s2]; generalize (Atoi_benign b);
    destruct (lexer.Atoi b) as [n|[]]; cbn; auto.
Qed.

Lemma next_benign t : benign (lexer.next t).
Proof.
  unfold lexer.next. destruct (lexer.Buffer t); [|exact I].
  generalize (nextLoop_benign (lexer.left (lexer.Scan t)) []
                (lexer.Scan t) ltac:(unfold lexer.left; lia)).
  destruct (lexer.nextLoop _ _ _) as [[tok s]|[]]; cbn; auto.
Qed.

(** With enough fuel [nextLoop] does not depend on it. *)
Lemma nextLoop_fuel f1 : forall f2 buf s,
  (List.length (lexer.rest s) < f1)%nat ->
  (List.length (lexer.rest s) < f2)%nat ->
  lexer.nextLoop f1 buf s = lexer.nextLoop f2 buf s.
Proof.
  induction f1 as [|f1 IH]; intros f2 buf [p r] L1 L2; [cbn in L1; lia|].
  destruct f2 as [|f2]; [cbn in L2; lia|].
  destruct r as [|c r]; [reflexivity|]. cbn [lexer.rest List.length] in L1, L2.
  destruct r as [|c2 r];
    cbn -[lexer.isWhitespace lexer.isNumeric lexer.isAlpha lexer.Atoi
          lexer.checkKeyword lexer.skipComment lexer.readString
          lexer.readWhile lexer.left];
    repeat match goal with
           | |- ?x = ?x => reflexivity
           | |- lexer.nextLoop _ _ _ = lexer.nextLoop _ _ _ =>
               apply IH; cbn in *; lia
           | |- (if ?b then _ else _) = _ => destruct b
           end.
  all: destruct (lexer.skipComment _ _) as [s3|e] eqn:E; [|reflexivity];
    cbn [bind]; apply skipComment_rest in E; apply IH; cbn in *; lia.
Qed.

Lemma next_nextLoop fuel p r :
  (List.length r < fuel)%nat ->
  lexer.next (lexer.mkTokenizer (lexer.mkScanner p r) [])
  = do (tok, s) <- lexer.nextLoop fuel [] (lexer.mkScanner p r);
    Ok (tok, lexer.mkTokenizer s []).
Proof.
  intros L. unfold lexer.next. cbn [lexer.Buffer lexer.Scan].
  now rewrite (nextLoop_fuel _ fuel) by (unfold lexer.left; cbn; lia).
Qed.

(** *** The loop of [Tokens] *)

Lemma measure_pos t : (0 < measure t)%nat.
Proof. unfold measure, lexer.left. lia. Qed.

Lemma run_tokensLoop t0 l t e :
  run t0 l t -> lexer.next t = Err e ->
  forall fuel acc,
    (measure t0 <= fuel)%nat ->
    lexer.tokensLoop fuel acc t0 = tokens_result (acc ++ l) e.
Proof.
  induction 1 as [t|t tok t' l t'' N R IH]; intros Ht fuel acc F;
    (destruct fuel as [|fuel]; [pose proof (measure_pos t); lia|]); cbn.
  - rewrite Ht, app_nil_r. now destruct e.
  - rewrite N, (IH Ht) by (apply next_measure in N; lia).
    now rewrite <- app_assoc.
Qed.

Lemma run_exists n : forall t0,
  (measure t0 <= n)%nat ->
  exists l t e, run t0 l t /\ lexer.next t = Err e.
Proof.
  induction n as [|n IH]; intros t0 M; [pose proof (measure_pos t0); lia|].
  destruct (lexer.next t0) as [[tok t1]|e] eqn:N.
  - destruct (IH t1) as (l & t & e & R & E);
      [apply next_measure in N; lia|].
    exists (tok :: l), t, e. split; [now apply (run_cons _ _ t1)|exact E].
  - exists [], t0, e. split; [constructor|exact N].
Qed.

Lemma run_Tokens t0 l t e :
  run t0 l t -> lexer.next t = Err e -> lexer.Tokens t0 = tokens_result l e.
Proof.
  intros R E. unfold lexer.Tokens.
  now rewrite (run_tokensLoop t0 l t e R E) by (unfold measure; lia).
Qed.

(** *** Numerals *)

Lemma numeric_uint_char (d : ascii) :
  lexer.isNumeric d = true ->
  exists f : Decimal.uint -> Decimal.uint,
    forall s, NilEmpty.uint_of_string (String d s)
              = option_map f (NilEmpty.uint_of_string s).
Proof.
  destruct d as [[] [] [] [] [] [] [] []]; vm_compute; intros H;
    try discriminate H; eexists; intros s;
    change (NilEmpty.uint_of_string (String ?c s))
      with (uint_of_char c (NilEmpty.uint_of_string s));
    destruct (NilEmpty.uint_of_string s); reflexivity.
Qed.

Lemma numeric_uint (ds : list ascii) :
  forallb lexer.isNumeric ds = true ->
  exists u, NilEmpty.uint_of_string (string_of_list_ascii ds) = Some u.
Proof.
  induction ds as [|d ds IH]; cbn [forallb string_of_list_ascii]; intros H.
  - now exists Decimal.Nil.
  - apply andb_true_iff in H as [D H]. destruct (IH H) as [u E].
    destruct (numeric_uint_char d D) as (f & F).
    rewrite F, E. now eexists.
Qed.

Lemma parse_unsigned_nonneg s : 0 <= parse_unsigned s.
Proof.
  unfold parse_unsigned. destruct (NilEmpty.uint_of_string s); lia.
Qed.

(** [strconv.Atoi] on a numeral without sign. *)
Lemma Atoi_numeral d ds :
  lexer.isNumeric d = true -> forallb lexer.isNumeric ds = true ->
  lexer.Atoi (d :: ds)
  = if parse_unsigned (string_of_list_ascii (d :: ds)) <=? max_int
    then Ok (parse_unsigned (string_of_list_ascii (d :: ds)))
    else Err (NumError (string_of_list_ascii (d :: ds))).
Proof.
  intros D DS.
  destruct (numeric_class d D) as (_ & _ & _ & _ & _ & _ & _ & _ & P & _ & M & _).
  destruct (numeric_uint (d :: ds)) as [u U]; [cbn; now rewrite D|].
  pose proof (parse_unsigned_nonneg (string_of_list_ascii (d :: ds))) as NN.
  unfold lexer.Atoi, parse_unsigned in *. rewrite M, P, U in *.
  unfold max_int.
  destruct (- 2 ^ 63 <=? Z.of_N (N.of_uint u)) eqn:L;
    [reflexivity | apply Z.leb_gt in L; lia].
Qed.

(** [strconv.Atoi] on a numeral after [-]. *)
Lemma Atoi_negative d ds :
  lexer.isNumeric d = true -> forallb lexer.isNumeric ds = true ->
  lexer.Atoi ("-"%char :: d :: ds)
  = if parse_unsigned (string_of_list_ascii (d :: ds)) <=? 2 ^ 63
    then Ok (- parse_unsigned (string_of_list_ascii (d :: ds)))
    else Err (NumError (string_of_list_ascii ("-"%char :: d :: ds))).
Proof.
  intros D DS.
  destruct (numeric_uint (d :: ds)) as [u U]; [cbn; now rewrite D|].
  pose proof (parse_unsigned_nonneg (string_of_list_ascii (d :: ds))) as NN.
  unfold lexer.Atoi, parse_unsigned in *.
  cbn [Ascii.eqb Bool.eqb]. rewrite U in *.
  destruct (- Z.of_N (N.of_uint u) <=? 2 ^ 63 - 1) eqn:L;
    [|apply Z.leb_gt in L; lia].
  rewrite andb_true_r.
  destruct (Z.of_N (N.of_uint u) <=? 2 ^ 63) eqn:L2;
    destruct (- 2 ^ 63 <=? - Z.of_N (N.of_uint u)) eqn:L3; try reflexivity;
    rewrite ?Z.leb_le, ?Z.leb_gt in *; lia.
Qed.

Lemma numeric_string_of_uint (u : Decimal.uint) :
  forallb lexer.isNumeric (list_ascii_of_string (NilEmpty.string_of_uint u))
  = true.
Proof. induction u; cbn; auto. Qed.

(** The decimal numeral of a number: digits only, at least one, and the
    number is its value. *)
Lemma digits_numeral (n : Z) :
  0 <= n ->
  exists d ds,
    list_ascii_of_string (digits n) = d :: ds
    /\ lexer.isNumeric d = true /\ forallb lexer.isNumeric ds = true
    /\ parse_unsigned (string_of_list_ascii (d :: ds)) = n.
Proof.
  intros Hn. pose proof (numeric_string_of_uint (N.to_uint (Z.to_N n))) as F.
  assert (P : parse_unsigned (digits n) = n).
  { unfold parse_unsigned, digits.
    rewrite NilEmpty.usu, DecimalN.Unsigned.of_to. now apply Z2N.id. }
  fold (digits n) in F.
  destruct (list_ascii_of_string (digits n)) as [|d ds] eqn:E.
  - exfalso. unfold digits in E.
    destruct (Z.to_N n) as [|q]; [discriminate E|]. cbn [N.to_uint] in E.
    pose proof (DecimalPos.Unsigned.to_uint_nonnil q) as NNil.
    destruct (Pos.to_uint q); try discriminate E. now apply NNil.
  - exists d, ds. cbn in F. apply andb_true_iff in F as [D DS].
    repeat split; try assumption.
    rewrite <- E, string_of_list_ascii_of_string. exact P.
Qed.

(** *** Strings, comments and words *)

Lemma readString_spec (ps : list piece) :
  forall buf p r fuel,
    forallb piece_ok ps = true ->
    (List.length (literal_bytes ps) < fuel)%nat ->
    lexer.readString fuel buf
      (lexer.mkScanner p (literal_bytes ps ++ dquote :: r))
    = Ok ((buf ++ literal_bytes ps)%list,
          lexer.mkScanner (dquote :: rev (literal_bytes ps) ++ p) r).
Proof.
  unfold literal_bytes.
  induction ps as [|x ps IH]; intros buf p r fuel K F;
    (destruct fuel as [|fuel]; [cbn in F; lia|]).
  - cbn. now rewrite app_nil_r.
  - cbn [forallb] in K. apply andb_true_iff in K as [Kx K].
    destruct x as [c|c]; cbn [flat_map piece_bytes app] in F |- *.
    + cbn in Kx. apply andb_true_iff in Kx as [Q B].
      apply negb_true_iff in Q, B. unfold dquote in Q.
      cbn -[Ascii.eqb]. rewrite Q, B.
      rewrite IH by (try assumption; cbn in F; lia).
      cbn [rev]. now rewrite <- !app_assoc.
    + cbn. rewrite IH by (try assumption; cbn in F; lia).
      cbn [rev]. now rewrite <- !app_assoc.
Qed.

Lemma readString_eof (ps : list piece) :
  forall buf p fuel,
    forallb piece_ok ps = true ->
    (List.length (literal_bytes ps) < fuel)%nat ->
    lexer.readString fuel buf (lexer.mkScanner p (literal_bytes ps))
    = Err EOF.
Proof.
  unfold literal_bytes.
  induction ps as [|x ps IH]; intros buf p fuel K F;
    (destruct fuel as [|fuel]; [cbn in F; lia|]); [reflexivity|].
  cbn [forallb] in K. apply andb_true_iff in K as [Kx K].
  destruct x as [c|c]; cbn [flat_map piece_bytes app] in F |- *.
  - cbn in Kx. apply andb_true_iff in Kx as [Q B].
    apply negb_true_iff in Q, B. unfold dquote in Q.
    cbn -[Ascii.eqb]. rewrite Q, B.
    apply IH; [assumption | cbn in F; lia].
  - cbn. apply IH; [assumption | cbn in F; lia].
Qed.

Lemma readWhile_eof (keep : ascii -> bool) (ds : list ascii) :
  forall buf p fuel,
    forallb keep ds = true -> (List.length ds < fuel)%nat ->
    lexer.readWhile keep fuel buf (lexer.mkScanner p ds) = Err EOF.
Proof.
  induction ds as [|d ds IH]; intros buf p fuel K F;
    (destruct fuel as [|fuel]; [cbn in F; lia|]); [reflexivity|].
  cbn in K. apply andb_true_iff in K as [Kd K]. cbn. rewrite Kd.
  apply IH; [assumption | cbn in F; lia].
Qed.

Lemma skipComment_spec (body : list ascii) :
  forall p e r fuel,
    forallb (fun c => negb (line_end c)) body = true ->
    line_end e = true -> (List.length body < fuel)%nat ->
    lexer.skipComment fuel (lexer.mkScanner p (body ++ e :: r))
    = Ok (lexer.mkScanner (e :: rev body ++ p) r).
Proof.
  unfold line_end.
  induction body as [|b body IH]; intros p e r fuel K E F;
    (destruct fuel as [|fuel]; [cbn in F; lia|]).
  - cbn -[Ascii.eqb]. now rewrite E.
  - cbn [forallb] in K. apply andb_true_iff in K as [Kb K].
    apply negb_true_iff in Kb. cbn -[Ascii.eqb]. rewrite Kb.
    rewrite IH by (try assumption; cbn in F; lia).
    cbn [rev]. now rewrite <- !app_assoc.
Qed.

Lemma skipComment_eof (body : list ascii) :
  forall p fuel,
    forallb (fun c => negb (line_end c)) body = true ->
    (List.length body < fuel)%nat ->
    lexer.skipComment fuel (lexer.mkScanner p body) = Err EOF.
Proof.
  unfold line_end.
  induction body as [|b body IH]; intros p fuel K F;
    (destruct fuel as [|fuel]; [cbn in F; lia|]); [reflexivity|].
  cbn [forallb] in K. apply andb_true_iff in K as [Kb K].
  apply negb_true_iff in Kb. cbn -[Ascii.eqb]. rewrite Kb.
  apply IH; [assumption | cbn in F; lia].
Qed.

Lemma alpha_class (a : ascii) :
  lexer.isAlpha a = true ->
  Ascii.eqb a "=" = false /\ Ascii.eqb a "(" = false
  /\ Ascii.eqb a ")" = false /\ Ascii.eqb a "{" = false
  /\ Ascii.eqb a "}" = false /\ Ascii.eqb a "," = false
  /\ Ascii.eqb a ":" = false /\ Ascii.eqb a "@" = false
  /\ Ascii.eqb a "+" = false /\ Ascii.eqb a "/" = false
  /\ Ascii.eqb a "-" = false /\ lexer.isWhitespace a = false
  /\ Ascii.eqb a "034" = false /\ lexer.isNumeric a = false.
Proof.
  destruct a as [[] [] [] [] [] [] [] []]; vm_compute; intros H;
    try discriminate H; repeat split.
Qed.

Lemma checkKeyword_spec (s : string) :
  lexer.checkKeyword s = (if is_keyword s then s else "", is_keyword s).
Proof.
  unfold lexer.checkKeyword, is_keyword. cbn [existsb].
  repeat (destruct (String.eqb s _) eqn:E;
          [apply String.eqb_eq in E; subst s; reflexivity | clear E]).
  reflexivity.
Qed.

Lemma nextLoop_word fuel buf p a w c r :
  lexer.isAlpha a = true -> forallb lexer.isAlphanumeric w = true ->
  lexer.isAlphanumeric c = false ->
  lexer.nextLoop (S fuel) buf (lexer.mkScanner p (a :: w ++ c :: r))
  = Ok (word_token (string_of_list_ascii (buf ++ a :: w)) (S (List.length p)),
        lexer.mkScanner (rev w ++ a :: p) (c :: r)).
Proof.
  intros A W C.
  destruct (alpha_class a A)
    as (E1 & E2 & E3 & E4 & E5 & E6 & E7 & E8 & E9 & E10 & E11 & E12 & E13 & E14).
  cbn -[lexer.readWhile lexer.isWhitespace lexer.isNumeric lexer.isAlpha
        lexer.checkKeyword].
  rewrite E1, E2, E3, E4, E5, E6, E7, E8, E9, E10, E11, E12, E13, E14, A.
  unfold lexer.left. cbn [lexer.rest].
  rewrite readWhile_spec by (try assumption; rewrite length_app; cbn; lia).
  cbn [bind]. rewrite <- app_assoc. cbn [app].
  rewrite checkKeyword_spec. unfold word_token.
  now destruct (is_keyword _).
Qed.

Lemma nextLoop_string fuel buf p ps r :
  forallb piece_ok ps = true ->
  lexer.nextLoop (S fuel) buf
    (lexer.mkScanner p (dquote :: literal_bytes ps ++ dquote :: r))
  = Ok (lexer.mkToken lexer.TypeString "" ""
          (string_of_list_ascii (buf ++ literal_bytes ps)) 0
          (S (List.length p)),
        lexer.mkScanner (dquote :: rev (literal_bytes ps) ++ dquote :: p) r).
Proof.
  intros K. unfold dquote.
  cbn -[lexer.readString literal_bytes].
  unfold lexer.left. cbn [lexer.rest].
  change "034"%char with dquote.
  rewrite readString_spec by (try assumption; rewrite length_app; cbn; lia).
  reflexivity.
Qed.

Lemma nextLoop_comment fuel buf p body e r :
  forallb (fun c => negb (line_end c)) body = true -> line_end e = true ->
  lexer.nextLoop (S fuel) buf
    (lexer.mkScanner p ("/"%char :: "/"%char :: body ++ e :: r))
  = lexer.nextLoop fuel buf
      (lexer.mkScanner (e :: rev body ++ "/"%char :: "/"%char :: p) r).
Proof.
  intros K E. cbn -[lexer.skipComment].
  unfold lexer.left. cbn [lexer.rest].
  rewrite skipComment_spec by (try assumption; rewrite length_app; cbn; lia).
  reflexivity.
Qed.

Lemma nextLoop_slash fuel buf p c r :
  Ascii.eqb c "/" = false ->
  lexer.nextLoop (S fuel) buf (lexer.mkScanner p ("/"%char :: c :: r))
  = lexer.nextLoop fuel buf (lexer.mkScanner ("/"%char :: p) (c :: r)).
Proof. intros E. cbn -[Ascii.eqb]. cbn [Ascii.eqb Bool.eqb]. now rewrite E. Qed.

Lemma nextLoop_lone_minus fuel buf p c r :
  Ascii.eqb c ">" = false -> lexer.isNumeric c = false ->
  lexer.nextLoop (S fuel) buf (lexer.mkScanner p ("-"%char :: c :: r))
  = lexer.nextLoop fuel buf (lexer.mkScanner ("-"%char :: p) (c :: r)).
Proof.
  intros E N. cbn -[Ascii.eqb lexer.isNumeric]. cbn [Ascii.eqb Bool.eqb].
  now rewrite E, N.
Qed.

Lemma nextLoop_arrow fuel buf p r :
  lexer.nextLoop (S fuel) buf (lexer.mkScanner p ("-"%char :: ">"%char :: r))
  = Ok (lexer.mkToken lexer.TypeArrow "" "" "->" 0 (S (List.length p)),
        lexer.mkScanner (">"%char :: "-"%char :: p) r).
Proof. reflexivity. Qed.

(** A numeral with its sign: the place of the token is that of the first
    digit, since [start] is taken again after the [continue]. *)
Lemma nextLoop_signed fuel p neg d ds c r :
  lexer.isNumeric d = true -> forallb lexer.isNumeric ds = true ->
  lexer.isNumeric c = false ->
  lexer.nextLoop (S (S fuel)) []
    (lexer.mkScanner p (sign_bytes neg ++ d :: ds ++ c :: r))
  = do num <- lexer.Atoi (sign_bytes neg ++ d :: ds);
    Ok (lexer.mkToken lexer.TypeNumber "" ""
          (string_of_list_ascii (sign_bytes neg ++ d :: ds)) num
          (S (List.length (sign_bytes neg ++ p))),
        lexer.mkScanner (rev ds ++ d :: sign_bytes neg ++ p) (c :: r)).
Proof.
  intros D DS C. destruct neg; cbn [sign_bytes app].
  - rewrite nextLoop_minus by assumption.
    now rewrite nextLoop_number by assumption.
  - now rewrite nextLoop_number by assumption.
Qed.

Lemma Atoi_signed neg d ds :
  lexer.isNumeric d = true -> forallb lexer.isNumeric ds = true ->
  lexer.Atoi (sign_bytes neg ++ d :: ds)
  = if parse_unsigned (string_of_list_ascii (d :: ds)) <=? sign_bound neg
    then Ok (signed neg (parse_unsigned (string_of_list_ascii (d :: ds))))
    else Err (NumError (string_of_list_ascii (sign_bytes neg ++ d :: ds))).
Proof.
  intros D DS. destruct neg; cbn [sign_bytes sign_bound signed app].
  - now apply Atoi_negative.
  - now apply Atoi_numeral.
Qed.

Lemma nextLoop_unfinished tail :
  unfinished tail ->
  forall fuel buf p,
    (List.length tail < fuel)%nat ->
    lexer.nextLoop fuel buf (lexer.mkScanner p tail) = Err EOF.
Proof.
  intros U fuel buf p F. destruct fuel as [|fuel]; [lia|].
  destruct U as [a w A W|d ds D DS|ps K|body K].
  - destruct (alpha_class a A)
      as (E1 & E2 & E3 & E4 & E5 & E6 & E7 & E8 & E9 & E10 & E11 & E12 & E13
          & E14).
    cbn -[lexer.readWhile lexer.isWhitespace lexer.isNumeric lexer.isAlpha
          lexer.checkKeyword].
    rewrite E1, E2, E3, E4, E5, E6, E7, E8, E9, E10, E11, E12, E13, E14, A.
    unfold lexer.left. cbn [lexer.rest].
    now rewrite readWhile_eof by (try assumption; lia).
  - destruct (numeric_class d D)
      as (E1 & E2 & E3 & E4 & E5 & E6 & E7 & E8 & E9 & E10 & E11 & E12 & E13
          & _).
    cbn -[lexer.readWhile lexer.Atoi lexer.isWhitespace lexer.isNumeric].
    rewrite E1, E2, E3, E4, E5, E6, E7, E8, E9, E10, E11, E12, E13, D.
    unfold lexer.left. cbn [lexer.rest].
    now rewrite readWhile_eof by (try assumption; lia).
  - unfold dquote. cbn -[lexer.readString literal_bytes].
    unfold lexer.left. cbn [lexer.rest].
    now rewrite readString_eof by (try assumption; lia).
  - cbn -[lexer.skipComment]. unfold lexer.left. cbn [lexer.rest].
    now rewrite skipComment_eof by (try assumption; lia).
Qed.

Lemma next_skip_to p ws r :
  forallb skipped ws = true ->
  lexer.next (lexer.mkTokenizer (lexer.mkScanner p (ws ++ r)) [])
  = do (tok, s) <- lexer.nextLoop (S (S (List.length r))) []
                     (lexer.mkScanner (rev ws ++ p) r);
    Ok (tok, lexer.mkTokenizer s []).
Proof.
  intros W.
  rewrite (next_nextLoop (List.length ws + S (S (List.length r))))
    by (rewrite length_app; lia).
  now rewrite nextLoop_skip.
Qed.

Lemma next_eq_nextLoop f f' p r p' r' :
  (List.length r < f)%nat -> (List.length r' < f')%nat ->
  lexer.nextLoop f [] (lexer.mkScanner p r)
  = lexer.nextLoop f' [] (lexer.mkScanner p' r') ->
  lexer.next (tokenizer_at p r) = lexer.next (tokenizer_at p' r').
Proof.
  intros L L' E. unfold tokenizer_at.
  rewrite (next_nextLoop f), (next_nextLoop f') by assumption. now rewrite E.
Qed.

Lemma next_numeral p ws neg d ds c r :
  forallb skipped ws = true ->
  lexer.isNumeric d = true -> forallb lexer.isNumeric ds = true ->
  lexer.isNumeric c = false ->
  lexer.next (tokenizer_at p (ws ++ sign_bytes neg ++ d :: ds ++ c :: r))
  = do num <- lexer.Atoi (sign_bytes neg ++ d :: ds);
    Ok (lexer.mkToken lexer.TypeNumber "" ""
          (string_of_list_ascii (sign_bytes neg ++ d :: ds)) num
          (S (List.length (sign_bytes neg ++ rev ws ++ p))),
        tokenizer_at (rev ds ++ d :: sign_bytes neg ++ rev ws ++ p) (c :: r)).
Proof.
  intros W D DS C. unfold tokenizer_at.
  rewrite (next_nextLoop
             (List.length ws + S (S (S (List.length (ds ++ c :: r))))))
    by (rewrite !length_app; destruct neg; cbn; rewrite ?length_app; cbn; lia).
  rewrite nextLoop_skip, nextLoop_signed by assumption.
  now destruct (lexer.Atoi _).
Qed.

(** *** Properties of the tokenizer *)

(** X1. [Tokens] always returns, and what it returns is read off the
    successive calls of [next]: the tokens up to the first call that fails,
    when that failure is the end of the input, and that failure alone, the
    tokens dropped, when it is another error. *)
Theorem X1_Tokens_iterates_next (t0 : lexer.Tokenizer) :
  exists l t e,
    run t0 l t /\ lexer.next t = Err e
    /\ lexer.Tokens t0 = tokens_result l e.
Proof.
  destruct (run_exists (measure t0) t0 (le_n _)) as (l & t & e & R & E).
  exists l, t, e. repeat split; try assumption. now apply (run_Tokens t0 l t).
Qed.

(** X2. The only error of [Tokens] is the one of [strconv.Atoi]: on every
    input it returns a list of tokens or a [NumError]; no byte and no end of
    the input, wherever it falls, is reported. *)
Theorem X2_Tokens_fails_only_in_Atoi (t0 : lexer.Tokenizer) :
  (exists l, lexer.Tokens t0 = Ok l)
  \/ (exists s, lexer.Tokens t0 = Err (NumError s)).
Proof.
  destruct (run_exists (measure t0) t0 (le_n _)) as (l & t & e & R & E).
  rewrite (run_Tokens t0 l t e R E).
  pose proof (next_benign t) as B. rewrite E in B.
  destruct e; cbn in B |- *; try contradiction; eauto.
Qed.

(** X3. A call of [next] that returns a token takes a token from the buffer
    or at least one byte from the scanner: what is left to read gets
    strictly smaller, which is why the loop of [Tokens] ends. *)
Theorem X3_next_consumes (t t' : lexer.Tokenizer) (tok : lexer.Token) :
  lexer.next t = Ok (tok, t') ->
  (List.length (lexer.rest (lexer.Scan t')) + List.length (lexer.Buffer t')
   < List.length (lexer.rest (lexer.Scan t)) + List.length (lexer.Buffer t))%nat.
Proof.
  intros N. apply next_measure in N. unfold measure, lexer.left in N. lia.
Qed.

Lemma X3_next_consumes_witness :
  (List.length (list_ascii_of_string ")") + 0
   < List.length (list_ascii_of_string "()") + 0)%nat.
Proof.
  exact (X3_next_consumes (tokenizer_at [] (list_ascii_of_string "()"))
           (tokenizer_at ["("%char] (list_ascii_of_string ")"))
           (lexer.mkToken lexer.TypeLparen "" "" "(" 0 1%nat) eq_refl).
Defined.

(** X4. A numeral whose value is out of the range of [int] (above
    [2^63 - 1], or above [2^63] after a [-]) makes [Tokens] fail with the
    [NumError] of [strconv.Atoi] on the text of the numeral, wherever the
    numeral stands; the tokens read before it are not returned. *)
Theorem X4_Tokens_numeral_out_of_range
        (t0 : lexer.Tokenizer) (l : list lexer.Token)
        (p ws : list ascii) (neg : bool) (d : ascii) (ds : list ascii)
        (c : ascii) (r : list ascii) :
  run t0 l (tokenizer_at p (ws ++ sign_bytes neg ++ d :: ds ++ c :: r)) ->
  forallb skipped ws = true ->
  lexer.isNumeric d = true -> forallb lexer.isNumeric ds = true ->
  lexer.isNumeric c = false ->
  sign_bound neg < parse_unsigned (string_of_list_ascii (d :: ds)) ->
  lexer.Tokens t0
  = Err (NumError (string_of_list_ascii (sign_bytes neg ++ d :: ds))).
Proof.
  intros R W D DS C V.
  apply (run_Tokens t0 l _ (NumError _) R).
  rewrite next_numeral, Atoi_signed by assumption.
  destruct (_ <=? _) eqn:L; [apply Z.leb_le in L; lia|reflexivity].
Qed.

Lemma X4_Tokens_numeral_out_of_range_witness :
  lexer.tokenize "x = -9223372036854775809 " 
  = Err (NumError "-9223372036854775809").
Proof.
  apply (X4_Tokens_numeral_out_of_range
           (lexer.NewTokenizer (lexer.NewScanner "x = -9223372036854775809 "))
           [lexer.mkToken lexer.TypeIdent "" "x" "x" 0 1%nat;
            lexer.mkToken lexer.TypeEquals "" "" "=" 0 3%nat]
           (list_ascii_of_string "= x") [" "%char] true "9"%char
           (list_ascii_of_string "223372036854775809") " "%char []);
    try reflexivity.
  eapply run_cons; [reflexivity|]. eapply run_cons; [reflexivity|].
  apply run_nil.
Defined.

(** X5. Bytes that start no token, such as [#], [;] or [*], are passed over
    like white space: [next] behaves as if they had been read already, and
    reports nothing. *)
Theorem X5_next_skips_unhandled_bytes (p ws r : list ascii) :
  forallb skipped ws = true ->
  lexer.next (tokenizer_at p (ws ++ r))
  = lexer.next (tokenizer_at (rev ws ++ p) r).
Proof.
  intros W.
  apply (next_eq_nextLoop (List.length ws + S (List.length r))
                          (S (List.length r)));
    [rewrite length_app; lia | lia | now apply nextLoop_skip].
Qed.

Lemma X5_next_skips_unhandled_bytes_witness :
  lexer.next (tokenizer_at [] (list_ascii_of_string "#$ ;*x "))
  = lexer.next (tokenizer_at (list_ascii_of_string "*; $#")
                             (list_ascii_of_string "x ")).
Proof.
  exact (X5_next_skips_unhandled_bytes [] (list_ascii_of_string "#$ ;*")
           (list_ascii_of_string "x ") eq_refl).
Defined.

(** X6. A [-] directly before a digit is folded into the numeral whatever
    was read before it: the token is a [Number] whose text starts with [-]
    and whose value is the negated value of the digits.  Without the [-] the
    value is that of the digits.  The place of the token is that of the first
    digit. *)
Theorem X6_next_signed_numeral
        (p ws : list ascii) (neg : bool) (d : ascii) (ds : list ascii)
        (c : ascii) (r : list ascii) :
  forallb skipped ws = true ->
  lexer.isNumeric d = true -> forallb lexer.isNumeric ds = true ->
  lexer.isNumeric c = false ->
  parse_unsigned (string_of_list_ascii (d :: ds)) <= sign_bound neg ->
  lexer.next (tokenizer_at p (ws ++ sign_bytes neg ++ d :: ds ++ c :: r))
  = Ok (lexer.mkToken lexer.TypeNumber "" ""
          (string_of_list_ascii (sign_bytes neg ++ d :: ds))
          (signed neg (parse_unsigned (string_of_list_ascii (d :: ds))))
          (S (List.length (sign_bytes neg ++ rev ws ++ p))),
        tokenizer_at (rev ds ++ d :: sign_bytes neg ++ rev ws ++ p) (c :: r)).
Proof.
  intros W D DS C V.
  rewrite next_numeral, Atoi_signed by assumption.
  destruct (_ <=? _) eqn:L; [reflexivity|apply Z.leb_gt in L; lia].
Qed.

(** After the numeral [3], [-1] is read as one token. *)
Lemma X6_next_signed_numeral_witness :
  lexer.next (tokenizer_at ["3"%char] (list_ascii_of_string "-1;"))
  = Ok (lexer.mkToken lexer.TypeNumber "" "" "-1" (-1) 3%nat,
        tokenizer_at (list_ascii_of_string "1-3") [";"%char]).
Proof.
  exact (X6_next_signed_numeral ["3"%char] [] true "1"%char [] ";"%char []
           eq_refl eq_refl eq_refl eq_refl ltac:(vm_compute; discriminate)).
Defined.

(** X7. What [strconv.Itoa] writes, [next] reads back: the decimal text of
    any [int], followed by a byte that is no digit, gives the [Number] token
    with that text and that value. *)
Theorem X7_next_reads_Itoa_back
        (p ws : list ascii) (n : Z) (c : ascii) (r : list ascii) :
  forallb skipped ws = true ->
  - 2 ^ 63 <= n <= max_int ->
  lexer.isNumeric c = false ->
  exists loc q,
    lexer.next (tokenizer_at p (ws ++ list_ascii_of_string (Itoa n) ++ c :: r))
    = Ok (lexer.mkToken lexer.TypeNumber "" "" (Itoa n) n loc,
          tokenizer_at q (c :: r)).
Proof.
  intros W R C. unfold Itoa, max_int in *.
  destruct (n <? 0) eqn:S; [apply Z.ltb_lt in S|apply Z.ltb_ge in S].
  - destruct (digits_numeral (- n)) as (d & ds & E & D & DS & V); [lia|].
    cbn [list_ascii_of_string]. rewrite E.
    change (("-"%char :: d :: ds) ++ c :: r)%list
      with (sign_bytes true ++ d :: ds ++ c :: r)%list.
    rewrite next_numeral, Atoi_signed by assumption. rewrite V.
    cbn [sign_bound signed sign_bytes app].
    destruct (_ <=? _) eqn:L; [|apply Z.leb_gt in L; lia].
    cbn [bind]. rewrite Z.opp_involutive, <- E.
    cbn [string_of_list_ascii]. rewrite string_of_list_ascii_of_string.
    now eexists _, _.
  - destruct (digits_numeral n) as (d & ds & E & D & DS & V); [lia|].
    rewrite E.
    change ((d :: ds) ++ c :: r)%list
      with (sign_bytes false ++ d :: ds ++ c :: r)%list.
    rewrite next_numeral, Atoi_signed by assumption. rewrite V.
    cbn [sign_bound signed sign_bytes app]. unfold max_int.
    destruct (_ <=? _) eqn:L; [|apply Z.leb_gt in L; lia].
    cbn [bind]. rewrite <- E, string_of_list_ascii_of_string.
    now eexists _, _.
Qed.

Lemma X7_next_reads_Itoa_back_witness :
  exists loc q,
    lexer.next (tokenizer_at [] (list_ascii_of_string " -9223372036854775808)"))
    = Ok (lexer.mkToken lexer.TypeNumber "" "" "-9223372036854775808"
            (- 2 ^ 63) loc,
          tokenizer_at q [")"%char]).
Proof.
  apply (X7_next_reads_Itoa_back [] [" "%char] (- 2 ^ 63) ")"%char []);
    [reflexivity | unfold max_int; lia | reflexivity].
Defined.

(** X8. A letter or [_] followed by letters, digits and [_], up to a byte
    that is none of these, is one token: a [Keyword] when the word is one of
    the six that [checkKeyword] knows, the keyword being the word itself, and
    an [Identifier] otherwise; the byte after the word is left to read. *)
Theorem X8_next_word
        (p ws : list ascii) (a : ascii) (w : list ascii) (c : ascii)
        (r : list ascii) :
  forallb skipped ws = true ->
  lexer.isAlpha a = true -> forallb lexer.isAlphanumeric w = true ->
  lexer.isAlphanumeric c = false ->
  lexer.next (tokenizer_at p (ws ++ a :: w ++ c :: r))
  = Ok (word_token (string_of_list_ascii (a :: w))
                   (S (List.length (rev ws ++ p))),
        tokenizer_at (rev w ++ a :: rev ws ++ p) (c :: r)).
Proof.
  intros W A AN C. unfold tokenizer_at.
  rewrite (next_nextLoop (List.length ws + S (S (List.length (w ++ c :: r)))))
    by (rewrite !length_app; cbn [List.length]; rewrite ?length_app;
        cbn [List.length]; lia).
  rewrite nextLoop_skip, nextLoop_word by assumption. reflexivity.
Qed.

Lemma X8_next_word_witness :
  lexer.next (tokenizer_at [] (list_ascii_of_string " return_1 return;"))
  = Ok (lexer.mkToken lexer.TypeIdent "" "return_1" "return_1" 0 2%nat,
        tokenizer_at (list_ascii_of_string "1_nruter ")
                     (list_ascii_of_string " return;"))
  /\ lexer.next (tokenizer_at (list_ascii_of_string "1_nruter ")
                              (list_ascii_of_string " return;"))
     = Ok (lexer.mkToken lexer.TypeKeyword "return" "return" "return" 0 11%nat,
           tokenizer_at (list_ascii_of_string "nruter 1_nruter ") [";"%char]).
Proof.
  split.
  - exact (X8_next_word [] [" "%char] "r"%char (list_ascii_of_string "eturn_1")
             " "%char (list_ascii_of_string "return;")
             eq_refl eq_refl eq_refl eq_refl).
  - exact (X8_next_word (list_ascii_of_string "1_nruter ") [" "%char] "r"%char
             (list_ascii_of_string "eturn") ";"%char []
             eq_refl eq_refl eq_refl eq_refl).
Defined.

(** X9. A string literal is read up to the first quote that no backslash
    precedes.  The text of the token is what stands between the quotes, byte
    for byte: a backslash and the byte after it are both kept, no escape is
    decoded. *)
Theorem X9_next_string_literal
        (p ws : list ascii) (ps : list piece) (r : list ascii) :
  forallb skipped ws = true ->
  forallb piece_ok ps = true ->
  lexer.next (tokenizer_at p (ws ++ dquote :: literal_bytes ps ++ dquote :: r))
  = Ok (lexer.mkToken lexer.TypeString "" ""
          (string_of_list_ascii (literal_bytes ps)) 0
          (S (List.length (rev ws ++ p))),
        tokenizer_at (dquote :: rev (literal_bytes ps) ++ dquote :: rev ws ++ p)
                     r).
Proof.
  intros W K. unfold tokenizer_at.
  rewrite (next_nextLoop
             (List.length ws
              + S (S (List.length (literal_bytes ps ++ dquote :: r)))))
    by (rewrite !length_app; cbn [List.length]; rewrite ?length_app;
        cbn [List.length]; lia).
  rewrite nextLoop_skip, nextLoop_string by assumption. reflexivity.
Qed.

Lemma X9_next_string_literal_witness :
  lexer.next (tokenizer_at []
                (dquote :: list_ascii_of_string "a\" ++ dquote
                 :: list_ascii_of_string "b\n" ++ dquote :: [")"%char]))
  = Ok (lexer.mkToken lexer.TypeString "" ""
          (string_of_list_ascii
             (list_ascii_of_string "a\" ++ dquote
              :: list_ascii_of_string "b\n")) 0 1%nat,
        tokenizer_at
          (dquote :: list_ascii_of_string "n\b" ++ dquote
           :: list_ascii_of_string "\a" ++ [dquote])
          [")"%char]).
Proof.
  exact (X9_next_string_literal [] []
           [Plain "a"; Escaped dquote; Plain "b"; Escaped "n"] [")"%char]
           eq_refl eq_refl).
Defined.

(** X10. A comment, from [//] to the first line feed or carriage return, is
    passed over with that byte: [next] goes on after it. *)
Theorem X10_next_skips_line_comment
        (p ws body : list ascii) (e : ascii) (r : list ascii) :
  forallb skipped ws = true ->
  forallb (fun c => negb (line_end c)) body = true ->
  line_end e = true ->
  lexer.next (tokenizer_at p (ws ++ "/"%char :: "/"%char :: body ++ e :: r))
  = lexer.next
      (tokenizer_at (e :: rev body ++ "/"%char :: "/"%char :: rev ws ++ p) r).
Proof.
  intros W K E.
  apply (next_eq_nextLoop
           (List.length ws + S (S (S (List.length (body ++ e :: r)))))
           (S (S (List.length (body ++ e :: r)))));
    [ rewrite !length_app; cbn [List.length]; rewrite ?length_app;
      cbn [List.length]; lia
    | rewrite length_app; cbn [List.length]; lia | ].
  now rewrite nextLoop_skip, nextLoop_comment.
Qed.

Lemma X10_next_skips_line_comment_witness :
  lexer.next
    (tokenizer_at [] (list_ascii_of_string " // x = 1" ++ newline
                      :: list_ascii_of_string "y "))
  = lexer.next
      (tokenizer_at (newline :: list_ascii_of_string "1 = x // ")
                    (list_ascii_of_string "y ")).
Proof.
  exact (X10_next_skips_line_comment [] [" "%char]
           (list_ascii_of_string " x = 1") newline (list_ascii_of_string "y ")
           eq_refl eq_refl eq_refl).
Defined.

(** X11. A [/] that starts no comment, and a [-] that starts neither an
    arrow nor a numeral, give no token and no error: [next] drops the byte
    and goes on with the one after it. *)
Theorem X11_next_drops_lone_operator
        (p ws : list ascii) (op c : ascii) (r : list ascii) :
  forallb skipped ws = true ->
  lone op c = true ->
  lexer.next (tokenizer_at p (ws ++ op :: c :: r))
  = lexer.next (tokenizer_at (op :: rev ws ++ p) (c :: r)).
Proof.
  intros W L.
  apply (next_eq_nextLoop (List.length ws + S (S (List.length (c :: r))))
                          (S (List.length (c :: r))));
    [rewrite !length_app; cbn; lia | lia |].
  rewrite nextLoop_skip by assumption.
  unfold lone in L. apply orb_true_iff in L as [L|L].
  - apply andb_true_iff in L as [O C]. apply Ascii.eqb_eq in O. subst op.
    apply negb_true_iff in C. now apply nextLoop_slash.
  - apply andb_true_iff in L as [L N]. apply andb_true_iff in L as [O C].
    apply Ascii.eqb_eq in O. subst op.
    apply negb_true_iff in C, N. now apply nextLoop_lone_minus.
Qed.

Lemma X11_next_drops_lone_operator_witness :
  lexer.next (tokenizer_at ["a"%char] (list_ascii_of_string " - b "))
  = lexer.next (tokenizer_at (list_ascii_of_string "- a")
                             (list_ascii_of_string " b ")).
Proof.
  exact (X11_next_drops_lone_operator ["a"%char] [" "%char] "-"%char " "%char
           (list_ascii_of_string "b ") eq_refl eq_refl).
Defined.

(** X12. A word, a numeral, a string literal or a comment that the end of
    the input cuts short is dropped without an error: [Tokens] returns the
    tokens read before it.  So an identifier or a numeral that is the last
    byte of the input is lost, and so is a string without its closing
    quote. *)
Theorem X12_Tokens_drops_unfinished_tail
        (t0 : lexer.Tokenizer) (l : list lexer.Token)
        (p ws tail : list ascii) :
  run t0 l (tokenizer_at p (ws ++ tail)) ->
  forallb skipped ws = true ->
  unfinished tail ->
  lexer.Tokens t0 = Ok l.
Proof.
  intros R W U. apply (run_Tokens t0 l _ EOF R). unfold tokenizer_at.
  rewrite (next_nextLoop (List.length ws + S (List.length tail)))
    by (rewrite length_app; lia).
  rewrite nextLoop_skip by assumption.
  now rewrite (nextLoop_unfinished tail U) by lia.
Qed.

Lemma X12_Tokens_drops_unfinished_tail_witness :
  lexer.tokenize "package main"
  = Ok [lexer.mkToken lexer.TypeKeyword "package" "package" "package" 0 1%nat].
Proof.
  apply (X12_Tokens_drops_unfinished_tail
           (lexer.NewTokenizer (lexer.NewScanner "package main"))
           [lexer.mkToken lexer.TypeKeyword "package" "package" "package" 0
                          1%nat]
           (list_ascii_of_string "egakcap") [" "%char]
           (list_ascii_of_string "main")).
  - eapply run_cons; [reflexivity|]. apply run_nil.
  - reflexivity.
  - now apply (unfinished_word "m" (list_ascii_of_string "ain")).
Defined.

(** ** Properties of the lowering *)

Lemma settled_bind {A B : Type} (b1 b2 : bool) (m : result A)
      (f : A -> result B) :
  settled b1 m -> (forall a, m = Ok a -> settled b2 (f a)) ->
  settled (b1 && b2) (bind m f).
Proof.
  unfold settled. destruct b1; cbn [andb].
  - intros [a ->] H. exact (H a eq_refl).
  - intros [msg ->] _. now exists msg.
Qed.

Lemma settled_true {A B : Type} (b : bool) (m : result A) (f : A -> result B) :
  settled b m -> (forall a, exists x, f a = Ok x) -> settled b (bind m f).
Proof.
  intros H F. rewrite <- (andb_true_r b). apply settled_bind; [exact H|].
  intros a _. apply F.
Qed.

Lemma VisitLiteral_settled ty i b s v :
  settled (literalSupported ty) (ir.VisitLiteral ty i b s v).
Proof.
  unfold literalSupported, ir.VisitLiteral.
  destruct ty as [[k el]|]; [|now eexists].
  destruct k, b; cbn; now eexists.
Qed.

Lemma arithBinop_settled op ty left leftType res v :
  opSupported op = true ->
  op <> ast.BinOpLogAnd -> op <> ast.BinOpLogOr ->
  exists x, ir.arithBinop op ty left leftType res v = Ok x.
Proof.
  intros S A O. unfold ir.arithBinop.
  destruct (ir.binOpMap op) eqn:M; [|destruct op; try discriminate; congruence].
  destruct (_ && _); [|now eexists].
  destruct (negb _); now eexists.
Qed.

Lemma arithBinop_panics s ty left leftType res v :
  exists msg,
    ir.arithBinop (ast.BinOpOther s) ty left leftType res v = Err (Panic msg).
Proof. now eexists. Qed.

Lemma shortCircuit_settled isAnd left res lowerRhs b v :
  (forall w, settled b (lowerRhs w)) ->
  settled b (ir.shortCircuit isAnd left res lowerRhs v).
Proof.
  intros H. unfold ir.shortCircuit. cbn -[ir.appendInstruction].
  apply settled_true; [apply H|]. intros a. now eexists.
Qed.

Lemma lowerArgs_settled visit args :
  Forall (fun a => forall w, settled (wf_expr (ast.Value a))
                                     (visit (ast.Value a) w)) args ->
  forall acc v,
    settled (forallb (fun a => wf_expr (ast.Value a)) args)
            (ir.lowerArgs visit args acc v).
Proof.
  induction 1 as [|a args Ha Hargs IH]; intros acc v; [now eexists|].
  cbn [forallb ir.lowerArgs]. apply settled_bind; [apply Ha|].
  intros w _. apply IH.
Qed.

Lemma VisitExpression_settled (e : ast.Expression) :
  forall v, settled (wf_expr e) (ir.VisitExpression e v).
Proof.
  induction e as [ty i b s | x ty | d ty IH | op l r ty IHl IHr | id args ty IH]
    using Expression_induction; intros v.
  - apply VisitLiteral_settled.
  - now eexists.
  - cbn -[ir.appendInstruction]. apply settled_true; [apply IH|].
    intros a. now eexists.
  - cbn -[ir.appendInstruction ir.shortCircuit ir.arithBinop].
    apply settled_bind; [apply IHl|]. intros a _.
    destruct op; cbn [opSupported]; rewrite ?andb_true_r;
      try (now apply shortCircuit_settled);
      try (apply settled_true; [apply IHr|]; intros w;
           apply arithBinop_settled; [reflexivity | discriminate..]).
    apply settled_bind; [apply IHr|]. intros w _. apply arithBinop_panics.
  - cbn -[ir.finishCall]. apply settled_true.
    + apply lowerArgs_settled. exact IH.
    + intros [irArgs w]. now eexists.
Qed.

Lemma visitAll_settled {A : Type} (wf : A -> bool)
      (visit : A -> ir.visitor -> result ir.visitor) (l : list A) :
  Forall (fun a => forall w, settled (wf a) (visit a w)) l ->
  forall v, settled (forallb wf l) (ir.visitAll visit l v).
Proof.
  induction 1 as [|a l Ha Hl IH]; intros v; [now eexists|].
  cbn [forallb ir.visitAll]. apply settled_bind; [apply Ha|].
  intros w _. apply IH.
Qed.

Lemma VisitAssign_settled lhs value v :
  settled (wf_expr value && wf_lhs lhs) (ir.VisitAssign lhs value v).
Proof.
  unfold ir.VisitAssign. apply settled_bind; [apply VisitExpression_settled|].
  intros w _. destruct lhs; cbn [wf_lhs]; try now eexists.
  apply settled_true; [apply VisitExpression_settled|]. intros a. now eexists.
Qed.

Lemma VisitInstruction_settled (i : ast.Instruction) :
  forall v, settled (wf_instr i) (ir.VisitInstruction i v).
Proof.
  induction i as [x ty | lhs value | id args ty | value
                 | init cond thn els IHinit IHthn IHels
                 | init cond post body IHinit IHpost IHbody
                 | l IH] using Instruction_induction; intros v.
  - now eexists.
  - apply VisitAssign_settled.
  - apply (VisitExpression_settled (ast.Call id args ty)).
  - destruct value as [e|]; [|now eexists].
    cbn [wf_instr ir.VisitInstruction]. unfold ir.VisitReturn.
    apply settled_true; [apply VisitExpression_settled|].
    intros a. now eexists.
  - cbn -[ir.appendInstruction].
    apply settled_bind; [now apply visitAll_settled|]. intros v1 _.
    apply settled_bind; [apply VisitExpression_settled|]. intros v2 _.
    apply settled_bind; [now apply visitAll_settled|]. intros v3 _.
    apply settled_true.
    + destruct els as [e|]; [now apply IHels | now eexists].
    + intros a. now eexists.
  - cbn -[ir.appendInstruction].
    apply settled_bind; [now apply visitAll_settled|]. intros v1 _.
    apply settled_bind; [apply VisitExpression_settled|]. intros v2 _.
    apply settled_bind; [now apply visitAll_settled|]. intros v3 _.
    apply settled_true; [now apply visitAll_settled|].
    intros a. now eexists.
  - cbn. now apply visitAll_settled.
Qed.

Lemma VisitFuncDef_settled fd v :
  settled (wf_func fd) (ir.VisitFuncDef fd v).
Proof.
  unfold ir.VisitFuncDef, wf_func, wf_linkname.
  destruct (ir.lowerParams _ _ _) as [params v0].
  apply settled_bind.
  - destruct (ast.attr_lookup ast.AttrKeyLinkname _) as [[[]|]|]; now eexists.
  - intros irFunc _. apply settled_true.
    + destruct (ast.fd_Body fd) as [body|]; [|now eexists].
      apply settled_true; [|intros a; now eexists].
      apply visitAll_settled, Forall_forall. intros i _.
      apply VisitInstruction_settled.
    + intros [f w]. now eexists.
Qed.

(** X13. [Lower] returns a unit exactly when every literal of the program
    has the type [int], [bool] or [string], every binary operator is one of
    the sixteen of [VisitBinop], every assignment is to a variable or through
    a pointer, and every [link_name] attribute is a string; on any other
    program it panics.  It never returns an error. *)
Theorem X13_Lower_succeeds_iff_well_formed (cu : ast.CompilationUnit) :
  if wf_unit cu
  then exists u, ir.Lower cu = Ok u
  else exists msg, ir.Lower cu = Err (Panic msg).
Proof.
  unfold ir.Lower, ir.VisitCompilationUnit.
  assert (S : settled (wf_unit cu)
                (ir.visitAll ir.VisitFuncDef (ast.cu_Funcs cu) ir.newVisitor)).
  { apply visitAll_settled, Forall_forall. intros fd _ w.
    apply VisitFuncDef_settled. }
  unfold settled in S. destruct (wf_unit cu); destruct S as [x ->];
    now eexists.
Qed.

Lemma lowerParams_params ps : forall acc v,
  fst (ir.lowerParams ps acc v)
  = (acc ++ map (fun p => ir.NewParamRegular
                            (ir.mapTypeToAbiTy (ast.fp_Type p))
                            (ast.fp_Ident p)) ps)%list.
Proof.
  induction ps as [|p ps IH]; intros acc v; cbn.
  - now rewrite app_nil_r.
  - rewrite IH, <- app_assoc. reflexivity.
Qed.

Lemma VisitFuncDef_sig fd v v' :
  ir.VisitFuncDef fd v = Ok v' ->
  exists f,
    ir.FuncDefs (ir.unit v') = (ir.FuncDefs (ir.unit v) ++ [f])%list
    /\ lowered_sig fd f.
Proof.
  unfold ir.VisitFuncDef, lowered_sig.
  pose proof (lowerParams_params (ast.fd_Params fd) []
                (ir.set_lastInstructions [] (ir.set_labelCounter 0 v))) as P.
  pose proof (funcStart_fields fd v) as (_ & _ & _ & U). unfold funcStart in U.
  destruct (ir.lowerParams _ _ _) as [params v0]. cbn [fst snd app] in P, U.
  subst params. intros H. inv_bind H. inv_bind H. destruct v2 as [irFunc vb].
  injection H as <-. exists irFunc.
  assert (FD : ir.FuncDefs (ir.unit vb) = ir.FuncDefs (ir.unit v)
               /\ exists blocks,
                   irFunc = ir.WithBlocks
                     (match ast.attr_lookup ast.AttrKeyExport
                              (ast.fd_Attributes fd) with
                      | Some _ =>
                          ir.WithLinkage
                            match ast.fd_ReturnType fd with
                            | Some t =>
                                if negb (ast.TypeKind_eqb (ast.Kind t)
                                                          ast.TypeVoid)
                                then ir.WithRetTy v1
                                       (ir.mapTypeToAbiTy (ast.fd_ReturnType fd))
                                else v1
                            | None => v1
                            end ir.NewLinkageExport
                      | None =>
                          match ast.fd_ReturnType fd with
                          | Some t =>
                              if negb (ast.TypeKind_eqb (ast.Kind t)
                                                        ast.TypeVoid)
                              then ir.WithRetTy v1
                                     (ir.mapTypeToAbiTy (ast.fd_ReturnType fd))
                              else v1
                          | None => v1
                          end
                      end) blocks
                   /\ match ast.fd_Body fd with
                      | Some _ => exists instrs,
                                    blocks = [ir.mkBlock "start" instrs]
                      | None => blocks = []
                      end).
  { destruct (ast.fd_Body fd) as [body|].
    - inv_bind E0. injection E0 as <- <-.
      apply visitAll_Instruction_rframe in E1. destruct E1 as [_ E1].
      rewrite E1, U. split; [reflexivity|]. eexists. split; [reflexivity|].
      now eexists.
    - injection E0 as <- <-. rewrite U. split; [reflexivity|]. exists [].
      split; [|reflexivity]. unfold ir.WithBlocks. rewrite app_nil_r.
      now destruct (ast.attr_lookup ast.AttrKeyExport _);
        destruct (ast.fd_ReturnType fd) as [t|]; try destruct (negb _);
        destruct v1. }
  destruct FD as (FD & blocks & -> & B).
  split; [cbn; now rewrite FD|].
  assert (V1 : ir.fd_Ident v1 = ast.fd_Ident fd
               /\ ir.fd_Params v1
                  = map (fun p => ir.NewParamRegular
                                    (ir.mapTypeToAbiTy (ast.fp_Type p))
                                    (ast.fp_Ident p)) (ast.fd_Params fd)
               /\ ir.fd_LinkName v1
                  = match ast.attr_lookup ast.AttrKeyLinkname
                            (ast.fd_Attributes fd) with
                    | Some (Some (ast.AttrString s)) => s
                    | _ => ""
                    end
               /\ ir.fd_RetTy v1 = None /\ ir.fd_Linkage v1 = None
               /\ ir.fd_Blocks v1 = []).
  { destruct (ast.attr_lookup ast.AttrKeyLinkname _) as [[[]|]|];
      try discriminate; injection E as <-; now cbn. }
  destruct V1 as (I & P & L & R & K & Bk).
  destruct (ast.attr_lookup ast.AttrKeyExport _);
    destruct (ast.fd_ReturnType fd) as [t|];
    try destruct (ast.TypeKind_eqb (ast.Kind t) ast.TypeVoid);
    cbn; rewrite ?Bk; cbn; repeat split; try assumption;
    destruct (ast.fd_Body fd); assumption.
Qed.

Lemma visitAll_sig funcs : forall v v',
  ir.visitAll ir.VisitFuncDef funcs v = Ok v' ->
  exists fs,
    ir.FuncDefs (ir.unit v') = (ir.FuncDefs (ir.unit v) ++ fs)%list
    /\ Forall2 lowered_sig funcs fs.
Proof.
  induction funcs as [|fd funcs IH]; intros v v' H.
  - injection H as <-. exists []. rewrite app_nil_r. split; constructor.
  - cbn in H. inv_bind H.
    destruct (VisitFuncDef_sig fd v v0 E) as (f & E0 & Qf).
    destruct (IH v0 v' H) as (fs & E1 & Qs).
    exists (f :: fs). rewrite E1, E0, <- app_assoc. split; [reflexivity|].
    now constructor.
Qed.

(** X14. The unit that [Lower] returns has one function for each function
    of the program, in the same order: with its name and its parameters (each
    with the ABI type of its type), the string of its [link_name] attribute
    as link name, no return type when it returns [void] or nothing and else
    the ABI type of its return type, export linkage exactly when it has the
    [export] attribute, and a single block labelled [start] when it has a
    body, no block when it has none. *)
Theorem X14_Lower_keeps_functions
        (cu : ast.CompilationUnit) (u : ir.CompilationUnit) :
  ir.Lower cu = Ok u ->
  Forall2 lowered_sig (ast.cu_Funcs cu) (ir.FuncDefs u).
Proof.
  unfold ir.Lower, ir.VisitCompilationUnit. intros H. inv_bind H.
  injection H as <-.
  destruct (visitAll_sig _ _ _ E) as (fs & E0 & F). now rewrite E0.
Qed.

Lemma X14_Lower_keeps_functions_witness :
  Forall2 lowered_sig [sample_extern; sample_main]
          (ir.FuncDefs sample_extern_ir).
Proof.
  exact (X14_Lower_keeps_functions sample_extern_unit sample_extern_ir
           eq_refl).
Defined.

(** *** Data definitions *)

Lemma chain_le lo hi ks : chain lo hi ks -> lo <= hi.
Proof.
  revert lo. induction ks as [|k ks IH]; intros lo; cbn; [lia|].
  intros [L C]. apply IH in C. lia.
Qed.

Lemma chain_app lo mid hi a b :
  chain lo mid a -> chain mid hi b -> chain lo hi (a ++ b).
Proof.
  revert lo. induction a as [|k a IH]; intros lo; cbn.
  - intros L C. destruct b as [|k b]; cbn in *; [lia|].
    destruct C as [L' C]. split; [lia | exact C].
  - intros [L C] D. split; [exact L | now apply IH].
Qed.

Lemma chain_bounds lo hi ks :
  chain lo hi ks -> Forall (fun k => lo < k <= hi) ks.
Proof.
  revert lo. induction ks as [|k ks IH]; intros lo; cbn; [constructor|].
  intros [L C]. pose proof (chain_le _ _ _ C). constructor; [lia|].
  apply IH in C. eapply Forall_impl; [|exact C]. cbn. intros; lia.
Qed.

Lemma chain_NoDup lo hi ks : chain lo hi ks -> NoDup ks.
Proof.
  revert lo. induction ks as [|k ks IH]; intros lo; cbn; [constructor|].
  intros [L C]. constructor; [|now apply IH in C].
  intros I. apply chain_bounds in C. rewrite Forall_forall in C.
  apply C in I. lia.
Qed.

Lemma drun_refl (v : ir.visitor) : drun 0 [] v v.
Proof.
  split; [lia|]. exists []. rewrite app_nil_r. repeat split; try lia.
  exists []. split; [reflexivity | cbn; lia].
Qed.

Lemma drun_same (v w w' : ir.visitor) n S :
  ir.DataDefs (ir.unit w') = ir.DataDefs (ir.unit w) ->
  ir.tmpCounter w' = ir.tmpCounter w ->
  drun n S v w -> drun n S v w'.
Proof.
  intros E1 E2 [Hn (new & E & I & H)]. split; [assumption|].
  exists new. rewrite E1, E2. auto.
Qed.

Lemma drun_trans (a b c : ir.visitor) n1 S1 n2 S2 :
  drun n1 S1 a b -> drun n2 S2 b c -> drun (n1 + n2) (S1 ++ S2) a c.
Proof.
  intros [N1 (new1 & E1 & I1 & H1)] [N2 (new2 & E2 & I2 & H2)].
  split; [lia|]. exists (new1 ++ new2)%list.
  split; [rewrite E2, E1, app_assoc; reflexivity|].
  split; [now rewrite !map_app, I1, I2|]. intros A B.
  destruct H1 as (R1 & ks1 & K1 & C1); [lia | lia |].
  pose proof (chain_le _ _ _ C1).
  destruct H2 as (R2 & ks2 & K2 & C2); [lia | lia |].
  split; [lia|]. exists (ks1 ++ ks2)%list.
  split; [now rewrite !map_app, K1, K2 | now apply (chain_app _ _ _ _ _ C1)].
Qed.

Lemma drun_alloc (w : ir.visitor) :
  drun 1 [] w (ir.set_tmpCounter (wrap64 (ir.tmpCounter w + 1)) w).
Proof.
  split; [lia|]. exists []. cbn. rewrite app_nil_r.
  repeat split; try lia; rewrite wrap64_small by lia; try lia.
  exists []. split; [reflexivity | cbn; lia].
Qed.

Lemma drun_append (i : ir.Instruction) (w : ir.visitor) :
  drun 0 [] w (ir.appendInstruction i w).
Proof.
  apply (drun_same w w); [now rewrite appendInstruction_unit | | apply drun_refl].
  now destruct (appendInstruction_instrs i w) as (blk & _ & T & _).
Qed.

Lemma drun_close (v v' : ir.visitor) n m S S' :
  drun n S' v v' -> n <= m -> S' = S -> drun m S v v'.
Proof.
  intros [N (new & E & I & H)] Hm <-. split; [lia|]. exists new.
  split; [exact E|]. split; [exact I|]. intros A B.
  destruct H as (R & ks & K & C); [lia | lia |]. split; [lia|]. now exists ks.
Qed.

Ltac rchain use_IH :=
  lazymatch goal with
  | |- drun _ _ ?v ?v => apply drun_refl
  | |- drun _ _ ?v (ir.appendInstruction ?i ?w) =>
      eapply (drun_trans v w); [rchain use_IH | apply drun_append]
  | |- drun _ _ ?v (ir.set_tmpCounter ?c ?w) =>
      eapply (drun_trans v w); [rchain use_IH | apply (drun_alloc w)]
  | E : _ ?b = Ok ?w |- drun _ _ ?v ?w =>
      eapply (drun_trans v b); [rchain use_IH | use_IH]
  | E : _ ?b = Ok (_, ?w) |- drun _ _ ?v ?w =>
      eapply (drun_trans v b); [rchain use_IH | use_IH]
  | |- drun _ _ ?v (?f ?x ?w) =>
      eapply (drun_same v w); [reflexivity | reflexivity | rchain use_IH]
  end.

Ltac rclose use_IH :=
  eapply drun_close;
  [ rchain use_IH
  | cbn [ecost icost]; try lia
  | cbn [app]; rewrite ?app_nil_r; try reflexivity ].

Lemma VisitLiteral_drun ty i b s v v' :
  ir.VisitLiteral ty i b s v = Ok v' ->
  drun 8 (strings_expr (ast.Literal ty i b s)) v v'.
Proof.
  unfold ir.VisitLiteral. destruct ty as [[k el]|]; [|discriminate].
  cbn [ast.Kind strings_expr].
  destruct k; try discriminate; [| destruct b |]; intros H;
    injection H as <-; try (rclose idtac).
  split; [lia|]. cbn. eexists [_]. split; [reflexivity|].
  split; [reflexivity|]. intros A B. rewrite wrap64_small by lia.
  split; [lia|]. exists [ir.tmpCounter v + 1]. split; [reflexivity|].
  cbn. lia.
Qed.

Ltac list_norm :=
  cbn [app strings_expr strings_instr flat_map];
  repeat first [ rewrite <- app_assoc | rewrite app_nil_r
               | progress cbn [app] ].

Ltac rdone use_IH :=
  eapply drun_close;
  [ rchain use_IH
  | cbn [ecost icost]; try lia
  | list_norm; try reflexivity ].

Lemma finishCall_drun calleeVal args ty v :
  drun 1 [] v (ir.finishCall calleeVal args ty v).
Proof.
  unfold ir.finishCall. cbn -[ir.appendInstruction].
  destruct ty as [t|]; [destruct (negb _)|]; rdone idtac.
Qed.

Lemma lowerArgs_drun visit args :
  Forall (fun a => forall w w', visit (ast.Value a) w = Ok w' ->
                                drun (ecost (ast.Value a))
                                     (strings_expr (ast.Value a)) w w') args ->
  forall acc v acc' v',
    ir.lowerArgs visit args acc v = Ok (acc', v') ->
    drun (sumZ (fun a => ecost (ast.Value a)) args)
         (flat_map (fun a => strings_expr (ast.Value a)) args) v v'.
Proof.
  induction 1 as [|a args Ha Hargs IH]; intros acc v acc' v' H.
  - injection H as <- <-. apply drun_refl.
  - cbn in H. inv_bind H. apply IH in H.
    eapply drun_close;
      [eapply (drun_trans v v0); [rchain ltac:(eapply Ha; eassumption) | exact H]
      | rewrite sumZ_cons; lia | list_norm; reflexivity].
Qed.

Lemma VisitExpression_drun (e : ast.Expression) :
  forall v v', ir.VisitExpression e v = Ok v' ->
               drun (ecost e) (strings_expr e) v v'.
Proof.
  induction e as [ty i b s | x ty | d ty IH | op l r ty IHl IHr | id args ty IH]
    using Expression_induction; intros v v' H.
  - now apply VisitLiteral_drun in H.
  - injection H as <-. rdone idtac.
  - cbn -[ir.appendInstruction] in H. inv_bind H. injection H as <-.
    pose proof (ecost_nonneg d).
    rdone ltac:(eapply IH; eassumption).
  - cbn -[ir.appendInstruction ir.shortCircuit ir.arithBinop] in H.
    inv_bind H.
    pose proof (ecost_nonneg l). pose proof (ecost_nonneg r).
    destruct op;
      try (inv_bind H; unfold ir.arithBinop in H;
           cbn -[ir.appendInstruction] in H;
           repeat match type of H with
                  | context [if ?c then _ else _] => destruct c
                  | context [match ?x with Some _ => _ | None => _ end] =>
                      destruct x
                  end;
           cbn -[ir.appendInstruction] in H;
           try discriminate H; injection H as <-;
           rdone ltac:(first [ eapply IHl; eassumption
                             | eapply IHr; eassumption ]));
      unfold ir.shortCircuit in H; cbn -[ir.appendInstruction] in H;
      inv_bind H; injection H as <-;
      rdone ltac:(first [ eapply IHl; eassumption
                        | eapply IHr; eassumption ]).
  - cbn -[ir.finishCall] in H. inv_bind H. destruct v0 as [irArgs v0].
    injection H as <-.
    apply (lowerArgs_drun _ _ IH) in E.
    pose proof (sumZ_ecost_nonneg args).
    eapply drun_close;
      [eapply (drun_trans v v0); [exact E | apply finishCall_drun]
      | cbn [ecost]; lia | list_norm; reflexivity].
Qed.

Lemma visitAll_drun (l : list ast.Instruction) :
  Forall (fun a => forall w w', ir.VisitInstruction a w = Ok w' ->
                                drun (icost a) (strings_instr a) w w') l ->
  forall v v', ir.visitAll ir.VisitInstruction l v = Ok v' ->
               drun (sumZ icost l) (flat_map strings_instr l) v v'.
Proof.
  induction 1 as [|a l Ha Hl IH]; intros v v' H.
  - injection H as <-. apply drun_refl.
  - cbn in H. inv_bind H. apply IH in H. apply Ha in E.
    eapply drun_close;
      [eapply (drun_trans v v0); [exact E | exact H]
      | rewrite sumZ_cons; lia | reflexivity].
Qed.

Lemma VisitAssign_drun lhs value v v' :
  ir.VisitAssign lhs value v = Ok v' ->
  drun (8 + ecost lhs + ecost value) (strings_instr (ast.Assign lhs value))
       v v'.
Proof.
  unfold ir.VisitAssign. intros H. inv_bind H.
  pose proof (ecost_nonneg value).
  destruct lhs; try discriminate; [|inv_bind H]; injection H as <-.
  - rdone ltac:(eapply VisitExpression_drun; eassumption).
  - pose proof (ecost_nonneg lhs).
    rdone ltac:(eapply VisitExpression_drun; eassumption).
Qed.

Lemma VisitReturn_drun value v v' :
  ir.VisitReturn value v = Ok v' ->
  drun (icost (ast.Return value)) (strings_instr (ast.Return value)) v v'.
Proof.
  unfold ir.VisitReturn. destruct value as [e|]; intros H;
    [inv_bind H; pose proof (ecost_nonneg e)|]; injection H as <-;
    rdone ltac:(eapply VisitExpression_drun; eassumption).
Qed.

Lemma VisitInstruction_drun (i : ast.Instruction) :
  forall v v', ir.VisitInstruction i v = Ok v' ->
               drun (icost i) (strings_instr i) v v'.
Proof.
  induction i as [x ty | lhs value | id args ty | value
                 | init cond thn els IHinit IHthn IHels
                 | init cond post body IHinit IHpost IHbody
                 | l IH] using Instruction_induction; intros v v' H.
  - injection H as <-. rdone idtac.
  - now apply VisitAssign_drun in H.
  - now apply (VisitExpression_drun (ast.Call id args ty)) in H.
  - now apply VisitReturn_drun in H.
  - cbn -[ir.appendInstruction] in H.
    pose proof (sumZ_icost_nonneg init). pose proof (sumZ_icost_nonneg thn).
    pose proof (ecost_nonneg cond).
    do 3 inv_bind H. destruct els as [e|]; inv_bind H; injection H as <-;
      [pose proof (icost_nonneg e)|injection E2 as <-];
      rdone ltac:(first [ eapply VisitExpression_drun; eassumption
                        | eapply visitAll_drun; [|eassumption]; eassumption
                        | eapply IHels; [reflexivity | eassumption] ]).
  - cbn -[ir.appendInstruction] in H.
    pose proof (sumZ_icost_nonneg init). pose proof (sumZ_icost_nonneg post).
    pose proof (sumZ_icost_nonneg body). pose proof (ecost_nonneg cond).
    do 4 inv_bind H. injection H as <-.
    rdone ltac:(first [ eapply VisitExpression_drun; eassumption
                      | eapply visitAll_drun; [|eassumption]; eassumption ]).
  - cbn in H. pose proof (sumZ_icost_nonneg l).
    eapply drun_close;
      [eapply visitAll_drun; eassumption | cbn [icost]; lia | reflexivity].
Qed.

Lemma VisitFuncDef_drun fd v v' :
  ir.VisitFuncDef fd v = Ok v' -> drun (fcost fd) (strings_func fd) v v'.
Proof.
  intros V.
  destruct (VisitFuncDef_inv fd v v' V) as (irFunc & vb & -> & _ & C).
  destruct (funcStart_fields fd v) as (_ & _ & T & U).
  unfold fcost, strings_func.
  apply (drun_same v vb); [reflexivity | reflexivity |].
  destruct C as [(Hb & -> & _) | (body & Hb & V' & _)]; rewrite Hb.
  - apply (drun_same v v); [now rewrite U | exact T | apply drun_refl].
  - assert (D : drun (sumZ icost body) (flat_map strings_instr body)
                     (funcStart fd v) vb).
    { eapply visitAll_drun; [|exact V']. apply Forall_forall. intros i _.
      apply VisitInstruction_drun. }
    destruct D as [N (new & E & I & H)]. split; [exact N|]. exists new.
    rewrite <- U, <- T. auto.
Qed.

Lemma visitAll_FuncDef_drun funcs : forall v v',
  ir.visitAll ir.VisitFuncDef funcs v = Ok v' ->
  drun (sumZ fcost funcs) (flat_map strings_func funcs) v v'.
Proof.
  induction funcs as [|fd funcs IH]; intros v v' H.
  - injection H as <-. apply drun_refl.
  - cbn in H. inv_bind H. apply IH in H. apply VisitFuncDef_drun in E.
    eapply drun_close;
      [eapply (drun_trans v v0); [exact E | exact H]
      | rewrite sumZ_cons; lia | reflexivity].
Qed.

(** X15. Every string literal of the program gives one data definition of
    the unit: its bytes followed by a zero.  The definitions stand in the
    order in which the literals are lowered (in an assignment the value before
    the address, in a loop the body before the post statements), and equal
    literals are not shared. *)
Theorem X15_Lower_data_definitions
        (cu : ast.CompilationUnit) (u : ir.CompilationUnit) :
  ir.Lower cu = Ok u ->
  map ir.dd_Initializer (ir.DataDefs u) = map data_of (strings_unit cu).
Proof.
  unfold ir.Lower, ir.VisitCompilationUnit. intros H. inv_bind H.
  injection H as <-.
  destruct (visitAll_FuncDef_drun _ _ _ E) as [_ (new & D & I & _)].
  rewrite D. exact I.
Qed.

Lemma X15_Lower_data_definitions_witness :
  map ir.dd_Initializer (ir.DataDefs sample_extern_ir)
  = [data_of "Hi"; data_of "Hi"].
Proof.
  exact (X15_Lower_data_definitions sample_extern_unit sample_extern_ir
           eq_refl).
Defined.

(** X16. The data definitions of a unit have pairwise distinct names, each
    of the form [_str_<number>] with a positive number, and the numbers
    increase along the list: the identifier counter runs on from one function
    to the next.  (The bound leaves out only programs that ask for [2^63]
    names.) *)
Theorem X16_Lower_data_names_distinct
        (cu : ast.CompilationUnit) (u : ir.CompilationUnit) :
  ir.Lower cu = Ok u ->
  sumZ fcost (ast.cu_Funcs cu) < 2 ^ 63 ->
  NoDup (map ir.dd_Ident (ir.DataDefs u))
  /\ exists ks,
      map ir.dd_Ident (ir.DataDefs u) = map (sprintf_ident "str") ks
      /\ chain 0 (2 ^ 63) ks.
Proof.
  unfold ir.Lower, ir.VisitCompilationUnit. intros H B. inv_bind H.
  injection H as <-.
  destruct (visitAll_FuncDef_drun _ _ _ E) as [_ (new & D & _ & K)].
  destruct K as (R & ks & K & C); [cbn; lia | cbn; lia |].
  cbn in D, R, C. rewrite D, K. split.
  - apply (NoDup_map_inv ident_num). rewrite map_map.
    erewrite map_ext; [rewrite map_id; exact (chain_NoDup _ _ _ C)|].
    intros k. now apply ident_num_sprintf.
  - exists ks. split; [reflexivity|].
    rewrite <- (app_nil_r ks). apply (chain_app _ _ _ _ _ C). cbn. lia.
Qed.

Lemma X16_Lower_data_names_distinct_witness :
  NoDup (map ir.dd_Ident (ir.DataDefs sample_extern_ir))
  /\ exists ks,
      map ir.dd_Ident (ir.DataDefs sample_extern_ir)
      = map (sprintf_ident "str") ks
      /\ chain 0 (2 ^ 63) ks.
Proof.
  apply (X16_Lower_data_names_distinct sample_extern_unit sample_extern_ir
           eq_refl).
  cbn. lia.
Defined.

(** *** Shapes *)

Lemma appends_refl v : appends v v.
Proof. exists []. now rewrite app_nil_r. Qed.

Lemma appends_trans a b c : appends a b -> appends b c -> appends a c.
Proof.
  intros [n1 E1] [n2 E2]. exists (n1 ++ n2)%list.
  now rewrite E2, E1, app_assoc.
Qed.

Lemma appends_same v w w' :
  ir.lastInstructions w' = ir.lastInstructions w -> appends v w -> appends v w'.
Proof. intros E [n H]. exists n. now rewrite E. Qed.

Lemma appends_append i w : appends w (ir.appendInstruction i w).
Proof.
  destruct (appendInstruction_instrs i w) as (blk & E & _).
  exists (blk ++ [i])%list. exact E.
Qed.

Lemma VisitExpression_appends e v v' :
  ir.VisitExpression e v = Ok v' -> appends v v'.
Proof.
  intros H. apply VisitExpression_frame in H as [(new & E & _) _].
  now exists new.
Qed.

Ltac achain use_IH :=
  lazymatch goal with
  | |- appends ?v ?v => apply appends_refl
  | |- appends ?v (ir.appendInstruction ?i ?w) =>
      apply (appends_trans v w); [achain use_IH | apply appends_append]
  | E : _ ?b = Ok ?w |- appends ?v ?w =>
      apply (appends_trans v b w); [achain use_IH | use_IH]
  | |- appends ?v (?f ?x ?w) =>
      apply (appends_same v w); [reflexivity | achain use_IH]
  end.

Lemma visitAll_appends {A : Type}
      (visit : A -> ir.visitor -> result ir.visitor) (l : list A) :
  Forall (fun a => forall w w', visit a w = Ok w' -> appends w w') l ->
  forall v v', ir.visitAll visit l v = Ok v' -> appends v v'.
Proof.
  induction 1 as [|a l Ha Hl IH]; intros v v' H.
  - injection H as <-. apply appends_refl.
  - cbn in H. inv_bind H. apply (appends_trans _ v0); eauto.
Qed.

Lemma VisitInstruction_appends (i : ast.Instruction) :
  forall v v', ir.VisitInstruction i v = Ok v' -> appends v v'.
Proof.
  induction i as [x ty | lhs value | id args ty | value
                 | init cond thn els IHinit IHthn IHels
                 | init cond post body IHinit IHpost IHbody
                 | l IH] using Instruction_induction; intros v v' H.
  - injection H as <-. apply appends_refl.
  - unfold ir.VisitInstruction, ir.VisitAssign in H. inv_bind H.
    destruct lhs; try discriminate; [|inv_bind H]; injection H as <-;
      achain ltac:(eapply VisitExpression_appends; eassumption).
  - now apply VisitExpression_appends in H.
  - unfold ir.VisitInstruction, ir.VisitReturn in H.
    destruct value as [e|]; [inv_bind H|]; injection H as <-;
      achain ltac:(eapply VisitExpression_appends; eassumption).
  - cbn -[ir.appendInstruction] in H.
    do 3 inv_bind H. destruct els as [e|]; inv_bind H; injection H as <-;
      [|injection E2 as <-];
      achain ltac:(first [ eapply VisitExpression_appends; eassumption
                         | eapply visitAll_appends; [|eassumption]; eassumption
                         | eapply IHels; [reflexivity | eassumption] ]).
  - cbn -[ir.appendInstruction] in H.
    do 4 inv_bind H. injection H as <-.
    achain ltac:(first [ eapply VisitExpression_appends; eassumption
                       | eapply visitAll_appends; [|eassumption]; eassumption ]).
  - cbn in H. eapply visitAll_appends; [|eassumption]; eassumption.
Qed.

Lemma visitAll_Instruction_appends l v v' :
  ir.visitAll ir.VisitInstruction l v = Ok v' -> appends v v'.
Proof.
  apply visitAll_appends, Forall_forall. intros i _.
  apply VisitInstruction_appends.
Qed.

Lemma appendInstruction_label name v :
  ir.lastInstructions (ir.appendInstruction (ir.Label name) v)
  = (ir.lastInstructions v ++ [ir.Label name])%list.
Proof. reflexivity. Qed.

Lemma appendInstruction_sep i v :
  ir.is_Label i = false ->
  ir.lastInstructions (ir.appendInstruction i v)
  = (ir.lastInstructions v ++ block_sep v ++ [i])%list.
Proof.
  intros L. unfold ir.appendInstruction, block_sep. rewrite L.
  destruct (ir.last_instr (ir.lastInstructions v)) as [[]|]; try reflexivity.
  cbn. now rewrite <- app_assoc.
Qed.

(** X17. Lowering a statement only adds to what the visitor holds: the
    instructions emitted before stay as they are, in front of the new ones;
    the data definitions of the unit stay, in front of the new ones; and the
    functions of the unit are left alone. *)
Theorem X17_VisitInstruction_only_appends
        (i : ast.Instruction) (v v' : ir.visitor) :
  ir.VisitInstruction i v = Ok v' ->
  (exists new,
      ir.lastInstructions v' = (ir.lastInstructions v ++ new)%list)
  /\ (exists data,
         ir.DataDefs (ir.unit v') = (ir.DataDefs (ir.unit v) ++ data)%list)
  /\ ir.FuncDefs (ir.unit v') = ir.FuncDefs (ir.unit v).
Proof.
  intros H. split; [exact (VisitInstruction_appends i v v' H)|]. split.
  - destruct (VisitInstruction_drun i v v' H) as [_ (new & E & _)].
    now exists new.
  - now destruct (VisitInstruction_rframe i v v' H).
Qed.

Lemma X17_VisitInstruction_only_appends_witness :
  (exists new,
      ir.lastInstructions sample_for_state
      = (ir.lastInstructions ir.newVisitor ++ new)%list)
  /\ (exists data,
         ir.DataDefs (ir.unit sample_for_state)
         = (ir.DataDefs (ir.unit ir.newVisitor) ++ data)%list)
  /\ ir.FuncDefs (ir.unit sample_for_state)
     = ir.FuncDefs (ir.unit ir.newVisitor).
Proof.
  exact (X17_VisitInstruction_only_appends sample_for_instr ir.newVisitor
           sample_for_state eq_refl).
Defined.

(** X18. The shape of a lowered [if]: the labels [then], [else] and [end]
    are numbered before anything of the statement is lowered; the emitted
    code is that of the initializers and of the condition, the conditional
    jump, the [then] label and block, the jump to [end], the [else] label and
    block, and the [end] label.  A [block] label stands before either jump
    when the instruction before it is a [Ret]. *)
Theorem X18_VisitIf_shape
        (init : list ast.Instruction) (cond : ast.Expression)
        (thn : list ast.Instruction) (els : option ast.Instruction)
        (v v' : ir.visitor) :
  ir.VisitInstruction (ast.If init cond thn els) v = Ok v' ->
  if_shape init cond thn els v v'.
Proof.
  intros H. cbn -[ir.appendInstruction] in H.
  inv_bind H. rename v0 into v1, E into E1.
  inv_bind H. rename v0 into v2, E into E2.
  inv_bind H. rename v0 into v3, E into E3.
  inv_bind H. rename v0 into v4, E into E4. injection H as <-.
  destruct (visitAll_Instruction_appends _ _ _ E1) as [ci A1].
  destruct (VisitExpression_appends _ _ _ E2) as [cc A2].
  destruct (visitAll_Instruction_appends _ _ _ E3) as [ct A3].
  assert (A4 : appends
                 (ir.appendInstruction
                    (ir.NewLabel (sprintf_label
                       (wrap64 (wrap64 (ir.labelCounter v + 1) + 1)) "else"))
                    (ir.appendInstruction
                       (ir.NewJmp (sprintf_label
                          (wrap64 (wrap64 (wrap64 (ir.labelCounter v + 1) + 1)
                                   + 1)) "end")) v3)) v4).
  { destruct els as [e|];
      [exact (VisitInstruction_appends _ _ _ E4)
      | injection E4 as <-; apply appends_refl]. }
  destruct A4 as [ce A4].
  exists v1, v2, v3, v4, ci, cc, ct, ce. cbn zeta.
  repeat (split; [assumption|]).
  rewrite appendInstruction_label, A4, appendInstruction_label.
  rewrite appendInstruction_sep by reflexivity.
  rewrite A3, appendInstruction_label.
  rewrite appendInstruction_sep by reflexivity.
  rewrite A2, A1. cbn [ir.lastInstructions ir.set_labelCounter].
  unfold ir.NewJnz, ir.NewJmp, ir.NewLabel.
  repeat rewrite <- app_assoc. reflexivity.
Qed.

Lemma X18_VisitIf_shape_witness :
  if_shape [] (ast.Binop ast.BinOpEq (intVar "x") (intLit 1) tyBool)
           [ast.Return (Some (intLit 1))]
           (Some (ast.Body [ast.Return (Some (intLit 2))]))
           ir.newVisitor sample_if_state.
Proof.
  exact (X18_VisitIf_shape
           [] (ast.Binop ast.BinOpEq (intVar "x") (intLit 1) tyBool)
           [ast.Return (Some (intLit 1))]
           (Some (ast.Body [ast.Return (Some (intLit 2))]))
           ir.newVisitor sample_if_state eq_refl).
Defined.

(** X19. The shape of a lowered [for]: the labels [for], [body] and [end]
    are numbered before anything of the statement is lowered; the emitted
    code is that of the initializers, the [for] label, the code of the
    condition, the conditional jump to [body] or [end], the [body] label, the
    body, the post statements, the jump back to the [for] label, and the [end]
    label.  Only the jump back can have a [block] label before it. *)
Theorem X19_VisitFor_shape
        (init : list ast.Instruction) (cond : ast.Expression)
        (post body : list ast.Instruction) (v v' : ir.visitor) :
  ir.VisitInstruction (ast.For init cond post body) v = Ok v' ->
  for_shape init cond post body v v'.
Proof.
  intros H. cbn -[ir.appendInstruction] in H.
  inv_bind H. rename v0 into v1, E into E1.
  inv_bind H. rename v0 into v2, E into E2.
  inv_bind H. rename v0 into v3, E into E3.
  inv_bind H. rename v0 into v4, E into E4. injection H as <-.
  destruct (visitAll_Instruction_appends _ _ _ E1) as [ci A1].
  destruct (VisitExpression_appends _ _ _ E2) as [cc A2].
  destruct (visitAll_Instruction_appends _ _ _ E3) as [cb A3].
  destruct (visitAll_Instruction_appends _ _ _ E4) as [cp A4].
  assert (L2 : exists j, ir.last_instr (ir.lastInstructions v2) = Some j
                         /\ ir.is_Ret j = false).
  { apply VisitExpression_frame in E2 as [F _].
    apply (eframe_last _ _ F). eexists. split.
    - apply appendInstruction_last.
    - reflexivity. }
  exists v1, v2, v3, v4, ci, cc, cb, cp. cbn zeta.
  repeat (split; [assumption|]).
  rewrite appendInstruction_label.
  rewrite appendInstruction_sep by reflexivity.
  rewrite A4, A3, appendInstruction_label.
  rewrite appendInstruction_plain by (right; exact L2).
  rewrite A2, appendInstruction_label, A1.
  cbn [ir.lastInstructions ir.set_labelCounter].
  unfold ir.NewJnz, ir.NewJmp, ir.NewLabel.
  repeat rewrite <- app_assoc. reflexivity.
Qed.

Lemma X19_VisitFor_shape_witness :
  for_shape [ast.Assign (intVar "i") (intLit 0)]
            (ast.Binop ast.BinOpLt (intVar "i") (intVar "n") tyBool)
            [ast.Assign (intVar "i")
                        (ast.Binop ast.BinOpAdd (intVar "i") (intLit 1) tyInt)]
            [sample_call "print" "x" tyString tyVoid]
            ir.newVisitor sample_for_state.
Proof.
  exact (X19_VisitFor_shape
           [ast.Assign (intVar "i") (intLit 0)]
           (ast.Binop ast.BinOpLt (intVar "i") (intVar "n") tyBool)
           [ast.Assign (intVar "i")
                       (ast.Binop ast.BinOpAdd (intVar "i") (intLit 1) tyInt)]
           [sample_call "print" "x" tyString tyVoid]
           ir.newVisitor sample_for_state eq_refl).
Defined.

Lemma isPointer_xorb a b :
  negb (Bool.eqb a b) = xorb a b.
Proof. now destruct a, b. Qed.

(** X20. Arithmetic on pointers: the result temporary of a binary operator
    is made after the left operand is lowered and before the right one; for
    [+] and [-] with a pointer on exactly one side, the other side is
    multiplied by four, whatever the pointer points to, in a fresh [idx]
    temporary, and the pointer is the left operand of the emitted operation,
    also when it is the right operand in the source; every other operation is
    emitted on the two values as they are. *)
Theorem X20_VisitBinop_arithmetic
        (op : ast.BinOpKind) (irOp : ir.BinOpKind) (l r : ast.Expression)
        (ty : option ast.Type_) (v v' : ir.visitor) :
  ir.binOpMap op = Some irOp ->
  ir.VisitExpression (ast.Binop op l r ty) v = Ok v' ->
  arith_shape op irOp l r ty v v'.
Proof.
  intros M H. cbn -[ir.appendInstruction ir.shortCircuit ir.arithBinop] in H.
  inv_bind H. rename v0 into v1, E into E1.
  assert (H' : (do w <- ir.VisitExpression r
                         (ir.set_lastType None
                            (ir.set_lastVal None
                               (ir.set_tmpCounter
                                  (wrap64 (ir.tmpCounter v1 + 1)) v1)));
                ir.arithBinop op ty (ir.lastVal v1) (ir.lastType v1)
                  (ir.NewValIdent
                     (sprintf_ident "tmp" (wrap64 (ir.tmpCounter v1 + 1)))) w)
               = Ok v')
    by (destruct op; try discriminate M; exact H).
  clear H. inv_bind H'. rename v0 into v2, E into E2.
  exists v1, v2. split; [exact E1|]. cbn zeta. split; [exact E2|].
  unfold ir.arithBinop in H'. rewrite M in H'.
  rewrite isPointer_xorb in H'.
  destruct (ir.isAddSub op && xorb _ _).
  - assert (S : (match (if ir.isPointer (ir.lastType v1)
                        then ir.lastType v1 else ir.lastType v2) with
                 | Some pt =>
                     match ast.Elem pt with
                     | Some el =>
                         if ast.TypeKind_eqb (ast.Kind el) ast.TypeInt
                         then 4 else 4
                     | None => 4
                     end
                 | None => 4
                 end) = 4).
    { destruct (if ir.isPointer (ir.lastType v1) then _ else _) as [pt|];
        [|reflexivity].
      destruct (ast.Elem pt) as [el|]; [|reflexivity].
      now destruct (ast.TypeKind_eqb _ _). }
    cbn zeta in H'. rewrite S in H'. cbn -[ir.appendInstruction] in H'.
    injection H' as <-. cbn [ir.lastVal ir.lastType ir.set_lastVal
                                        ir.set_lastType ir.lastInstructions].
    destruct (appendInstruction_instrs
                (ir.NewBinop irOp
                   (ir.NewValIdent
                      (sprintf_ident "tmp" (wrap64 (ir.tmpCounter v1 + 1))))
                   (if ir.isPointer (ir.lastType v1)
                    then ir.lastVal v1 else ir.lastVal v2)
                   (ir.NewValIdent
                      (sprintf_ident "idx" (wrap64 (ir.tmpCounter v2 + 1)))))
                (ir.appendInstruction
                   (ir.NewBinop ir.BinOpMul
                      (ir.NewValIdent
                         (sprintf_ident "idx" (wrap64 (ir.tmpCounter v2 + 1))))
                      (if ir.isPointer (ir.lastType v1)
                       then ir.lastVal v2 else ir.lastVal v1)
                      (ir.NewValInteger 4))
                   (ir.set_tmpCounter (wrap64 (ir.tmpCounter v2 + 1)) v2)))
      as (_ & _ & _ & LV & LT & _).
    destruct (appendInstruction_instrs
                (ir.NewBinop ir.BinOpMul
                   (ir.NewValIdent
                      (sprintf_ident "idx" (wrap64 (ir.tmpCounter v2 + 1))))
                   (if ir.isPointer (ir.lastType v1)
                    then ir.lastVal v2 else ir.lastVal v1)
                   (ir.NewValInteger 4))
                (ir.set_tmpCounter (wrap64 (ir.tmpCounter v2 + 1)) v2))
      as (_ & _ & _ & LV' & LT' & _).
    split; [reflexivity|]. split; [reflexivity|].
    rewrite appendInstruction_plain
      by (right; eexists; split; [apply appendInstruction_last|reflexivity]).
    rewrite appendInstruction_sep by reflexivity.
    unfold block_sep. cbn [ir.lastInstructions ir.set_tmpCounter
                                               ir.labelCounter].
    unfold ir.NewBinop. now rewrite <- !app_assoc.
  - injection H' as <-. cbn [ir.lastVal ir.lastType ir.set_lastVal
                                        ir.set_lastType ir.lastInstructions].
    split; [reflexivity|]. split; [reflexivity|].
    now rewrite appendInstruction_sep by reflexivity.
Qed.

Lemma X20_VisitBinop_arithmetic_witness :
  arith_shape ast.BinOpSub ir.BinOpSub (intVar "i")
              (ast.VariableRef "p" tyIntPtr) tyIntPtr
              ir.newVisitor sample_ptr_state.
Proof.
  exact (X20_VisitBinop_arithmetic ast.BinOpSub ir.BinOpSub (intVar "i")
           (ast.VariableRef "p" tyIntPtr) tyIntPtr
           ir.newVisitor sample_ptr_state eq_refl eq_refl).
Defined.

(** X21. An assignment lowers its value first.  For a variable the move
    into it follows, an [Add] of the value and 0; for a dereference the code
    of the pointer follows and then the store of the value: the value is
    computed before the address.  Any other left-hand side panics. *)
Theorem X21_VisitAssign_shape
        (lhs value : ast.Expression) (v v' : ir.visitor) :
  ir.VisitInstruction (ast.Assign lhs value) v = Ok v' ->
  assign_shape lhs value v v'.
Proof.
  intros H. unfold ir.VisitInstruction, ir.VisitAssign in H.
  inv_bind H. rename v0 into v1, E into E1.
  destruct (VisitExpression_appends _ _ _ E1) as [cv A1].
  cbn [ir.lastInstructions ir.set_lastVal] in A1.
  exists v1, cv. split; [exact E1|]. split; [exact A1|].
  destruct lhs as [| x ty | p ty | |]; try discriminate H.
  - injection H as <-. unfold ir.VisitVariableRef.
    rewrite appendInstruction_sep by reflexivity.
    unfold block_sep.
    cbn [ir.lastInstructions ir.set_lastVal ir.set_lastType ir.lastVal
                             ir.labelCounter].
    rewrite A1. unfold ir.NewBinop. now rewrite <- !app_assoc.
  - inv_bind H. rename v0 into v2, E into E2. injection H as <-.
    destruct (VisitExpression_appends _ _ _ E2) as [cp A2].
    cbn [ir.lastInstructions ir.set_lastVal] in A2.
    exists v2, cp. split; [exact E2|]. split; [exact A2|].
    rewrite appendInstruction_sep by reflexivity.
    rewrite A2, A1. unfold ir.NewStore. now rewrite <- !app_assoc.
Qed.

Lemma X21_VisitAssign_shape_witness :
  assign_shape
    (ast.Deref (ast.Deref (ast.VariableRef "p" tyIntPtr) tyIntPtr) tyInt)
    (ast.Call "f" [ast.mkArg (ast.Literal tyString 0 false "s") tyString]
              tyInt)
    ir.newVisitor sample_store_state.
Proof.
  exact (X21_VisitAssign_shape
           (ast.Deref (ast.Deref (ast.VariableRef "p" tyIntPtr) tyIntPtr)
                      tyInt)
           (ast.Call "f" [ast.mkArg (ast.Literal tyString 0 false "s")
                                    tyString] tyInt)
           ir.newVisitor sample_store_state eq_refl).
Defined.

Lemma lowerArgs_AbiTy visit args : forall acc v acc' v',
  ir.lowerArgs visit args acc v = Ok (acc', v') ->
  map ir.arg_AbiTy acc'
  = (map ir.arg_AbiTy acc
     ++ map (fun a => ir.mapTypeToAbiTy (ast.ArgType a)) args)%list.
Proof.
  induction args as [|a args IH]; intros acc v acc' v' H.
  - injection H as <- <-. cbn [map]. now rewrite app_nil_r.
  - cbn in H. inv_bind H. apply IH in H. rewrite H, map_app, <- app_assoc.
    reflexivity.
Qed.

(** X22. A call lowers its arguments in order and then emits the call, on
    their values, each with the ABI type of the type of its argument.  The
    callee is the link name of the first function of that name lowered
    before that has one, and the name itself otherwise.  A fresh temporary is
    made for the result and is the value of the call, whatever the type of
    the call; the type that the visitor holds is not set: it stays as the
    lowering of the arguments left it. *)
Theorem X22_VisitCall_shape
        (id : string) (args : list ast.Arg) (ty : option ast.Type_)
        (v v' : ir.visitor) :
  ir.VisitCall id args ty v = Ok v' ->
  call_shape id args v v'.
Proof.
  unfold ir.VisitCall. intros H. cbn -[ir.finishCall] in H.
  inv_bind H. destruct v0 as [irArgs w]. injection H as <-.
  pose proof (lowerArgs_AbiTy _ _ _ _ _ _ E) as T. cbn [map app] in T.
  unfold ir.finishCall. cbn -[ir.appendInstruction].
  set (call := match ty with Some _ => _ | None => _ end).
  assert (C : exists ret,
             call = ir.Call ret
                      (ir.NewValGlobal
                         (ir.calleeIdent id (ir.FuncDefs (ir.unit v))))
                      irArgs).
  { subst call. destruct ty as [t|]; [destruct (negb _)|]; now eexists. }
  destruct C as [ret C]. rewrite C.
  exists irArgs, w, ret. split; [exact E|]. split; [exact T|].
  destruct (appendInstruction_instrs
              (ir.Call ret
                 (ir.NewValGlobal
                    (ir.calleeIdent id (ir.FuncDefs (ir.unit v)))) irArgs)
              (ir.set_tmpCounter (wrap64 (ir.tmpCounter w + 1)) w))
    as (_ & _ & TC & _ & LT & _).
  split; [reflexivity|]. split; [exact LT|]. split; [exact TC|].
  cbn [ir.lastInstructions ir.set_lastVal].
  now rewrite appendInstruction_sep by reflexivity.
Qed.

Lemma X22_VisitCall_shape_witness :
  call_shape "print" [ast.mkArg (ast.VariableRef "p" tyIntPtr) tyString]
             sample_after_extern sample_print_state.
Proof.
  exact (X22_VisitCall_shape "print"
           [ast.mkArg (ast.VariableRef "p" tyIntPtr) tyString] tyVoid
           sample_after_extern sample_print_state eq_refl).
Defined.

(** ** The parser *)

Lemma skipn_cons_inv {A : Type} (n : nat) (l : list A) (a : A) (r : list A) :
  skipn n l = a :: r ->
  (n < List.length l)%nat /\ nth_error l n = Some a /\ skipn (S n) l = r.
Proof.
  revert l. induction n as [|n IH]; intros [|x l] H; try discriminate H.
  - cbn in H. injection H as -> ->. cbn. repeat split. lia.
  - cbn in H. apply IH in H as (L & N & S). cbn [List.length nth_error].
    repeat split; [lia | exact N | exact S].
Qed.

Lemma skipn_nil_inv {A : Type} (n : nat) (l : list A) :
  skipn n l = [] -> (List.length l <= n)%nat.
Proof.
  revert l. induction n as [|n IH]; intros [|x l] H; cbn in *;
    try discriminate H; try lia.
  apply IH in H. lia.
Qed.

Lemma tokens_from_next p j t ts :
  0 <= j -> tokens_from p j = t :: ts -> tokens_from p (j + 1) = ts.
Proof.
  unfold tokens_from. intros J H.
  replace (Z.to_nat (j + 1)) with (S (Z.to_nat j)) by lia.
  now apply skipn_cons_inv in H.
Qed.

Lemma tokens_from_app p j ts rest :
  0 <= j -> tokens_from p j = (ts ++ rest)%list ->
  tokens_from p (j + Z.of_nat (List.length ts)) = rest.
Proof.
  revert j. induction ts as [|t ts IH]; intros j J H.
  - cbn. now rewrite Z.add_0_r.
  - cbn [app] in H. pose proof (tokens_from_next p j t _ J H) as N.
    apply IH in N; [|lia].
    replace (j + Z.of_nat (List.length (t :: ts)))
      with (j + 1 + Z.of_nat (List.length ts)) by (cbn [List.length]; lia).
    exact N.
Qed.

Lemma nextToken_at p j t ts :
  0 <= j -> tokens_from p j = t :: ts ->
  parser.nextToken (parser.set_index j p) = (Ok t, parser.set_index (j + 1) p).
Proof.
  unfold tokens_from. intros J H. apply skipn_cons_inv in H as (L & N & _).
  unfold parser.nextToken. cbn [parser.tok parser.index parser.set_index].
  destruct (Z.of_nat (List.length (parser.tok p)) <=? j) eqn:E;
    [apply Z.leb_le in E; lia|].
  destruct (j <? 0) eqn:E2; [apply Z.ltb_lt in E2; lia|].
  now rewrite N.
Qed.

Lemma nextToken_end p j :
  0 <= j -> tokens_from p j = [] ->
  parser.nextToken (parser.set_index j p) = (Err EOF, parser.set_index j p).
Proof.
  unfold tokens_from. intros J H. apply skipn_nil_inv in H.
  unfold parser.nextToken. cbn [parser.tok parser.index parser.set_index].
  destruct (Z.of_nat (List.length (parser.tok p)) <=? j) eqn:E;
    [reflexivity | apply Z.leb_gt in E; lia].
Qed.

Lemma set_index_back p j :
  parser.set_index (parser.index (parser.set_index (j + 1) p) - 1)
                   (parser.set_index (j + 1) p)
  = parser.set_index j p.
Proof.
  unfold parser.set_index. cbn. f_equal. lia.
Qed.

Lemma expectType_match p j t ts tts :
  0 <= j -> tokens_from p j = t :: ts ->
  existsb (parser.TokenType_eqb (parser.Type_ t)) tts = true ->
  parser.expectType tts (parser.set_index j p)
  = ((t, None), parser.set_index (j + 1) p).
Proof.
  intros J H M. unfold parser.expectType.
  now rewrite (nextToken_at p j t ts J H), M.
Qed.

Lemma expectType_mismatch p j t ts tts :
  0 <= j -> tokens_from p j = t :: ts ->
  existsb (parser.TokenType_eqb (parser.Type_ t)) tts = false ->
  parser.expectType tts (parser.set_index j p)
  = ((t, Some (Errorf "expected %s at %s, got %s")),
     parser.set_index (j + 1) p).
Proof.
  intros J H M. unfold parser.expectType.
  now rewrite (nextToken_at p j t ts J H), M.
Qed.

Lemma expectType_end p j tts :
  0 <= j -> tokens_from p j = [] ->
  parser.expectType tts (parser.set_index j p)
  = ((parser.Token0, Some EOF), parser.set_index j p).
Proof.
  intros J H. unfold parser.expectType. now rewrite (nextToken_end p j J H).
Qed.

Lemma peekType_match p j t ts tts :
  0 <= j -> tokens_from p j = t :: ts ->
  existsb (parser.TokenType_eqb (parser.Type_ t)) tts = true ->
  parser.peekType tts (parser.set_index j p)
  = ((t, None), parser.set_index (j + 1) p).
Proof.
  intros J H M. unfold parser.peekType.
  now rewrite (expectType_match p j t ts tts J H M).
Qed.

Lemma peekType_mismatch p j t ts tts :
  0 <= j -> tokens_from p j = t :: ts ->
  existsb (parser.TokenType_eqb (parser.Type_ t)) tts = false ->
  parser.peekType tts (parser.set_index j p)
  = ((t, None), parser.set_index j p).
Proof.
  intros J H M. unfold parser.peekType.
  rewrite (expectType_mismatch p j t ts tts J H M).
  now rewrite set_index_back.
Qed.

Lemma peekType_end p j tts :
  0 <= j -> tokens_from p j = [] ->
  parser.peekType tts (parser.set_index j p)
  = ((parser.Token0, Some EOF), parser.set_index j p).
Proof.
  intros J H. unfold parser.peekType.
  now rewrite (expectType_end p j tts J H).
Qed.

(** X23. The two ways to look at the next token.  [expectType] consumes
    it also when its type is none of those asked for: it returns the token
    with an error, the index past it.  [peekType] consumes a token of a type
    asked for and returns any other token without an error, the index where
    it was.  At the end of the tokens both return [io.EOF] and the zero token
    and move nothing. *)
Theorem X23_expectType_peekType
        (p : parser.Parser) (j : Z) (tts : list parser.TokenType) :
  0 <= j ->
  match tokens_from p j with
  | [] =>
      parser.expectType tts (parser.set_index j p)
      = ((parser.Token0, Some EOF), parser.set_index j p)
      /\ parser.peekType tts (parser.set_index j p)
         = ((parser.Token0, Some EOF), parser.set_index j p)
  | t :: _ =>
      if existsb (parser.TokenType_eqb (parser.Type_ t)) tts
      then
        parser.expectType tts (parser.set_index j p)
        = ((t, None), parser.set_index (j + 1) p)
        /\ parser.peekType tts (parser.set_index j p)
           = ((t, None), parser.set_index (j + 1) p)
      else
        parser.expectType tts (parser.set_index j p)
        = ((t, Some (Errorf "expected %s at %s, got %s")),
           parser.set_index (j + 1) p)
        /\ parser.peekType tts (parser.set_index j p)
           = ((t, None), parser.set_index j p)
  end.
Proof.
  intros J. destruct (tokens_from p j) as [|t ts] eqn:H.
  - split; [now apply expectType_end | now apply peekType_end].
  - destruct (existsb _ tts) eqn:M.
    + split; [now apply (expectType_match p j t ts)
             | now apply (peekType_match p j t ts)].
    + split; [now apply (expectType_mismatch p j t ts)
             | now apply (peekType_mismatch p j t ts)].
Qed.

Lemma X23_expectType_peekType_witness :
  parser.expectType [parser.TypeColon]
    (parser.set_index 1 (parser.New [tid "x"; tk parser.TypeAssign]))
  = ((tk parser.TypeAssign, Some (Errorf "expected %s at %s, got %s")),
     parser.set_index 2 (parser.New [tid "x"; tk parser.TypeAssign]))
  /\ parser.peekType [parser.TypeColon]
       (parser.set_index 1 (parser.New [tid "x"; tk parser.TypeAssign]))
     = ((tk parser.TypeAssign, None),
        parser.set_index 1 (parser.New [tid "x"; tk parser.TypeAssign])).
Proof.
  exact (X23_expectType_peekType
           (parser.New [tid "x"; tk parser.TypeAssign]) 1 [parser.TypeColon]
           ltac:(lia)).
Defined.

Lemma countCarets_spec p (cs : list parser.Token) :
  forall fuel d j t rest,
    (List.length cs < fuel)%nat -> 0 <= j ->
    tokens_from p j = (cs ++ t :: rest)%list ->
    forallb (is_type parser.TypeCaret) cs = true ->
    is_type parser.TypeCaret t = false ->
    parser.countCarets fuel d (parser.set_index j p)
    = (Ok (d + List.length cs)%nat,
       parser.set_index (j + Z.of_nat (List.length cs)) p).
Proof.
  induction cs as [|c cs IH]; intros fuel d j t rest F J H C T;
    (destruct fuel as [|fuel]; [cbn in F; lia|]).
  - cbn [app] in H. cbn [parser.countCarets].
    rewrite (peekType_mismatch p j t rest)
      by (try assumption; cbn [existsb]; unfold is_type in T; now rewrite T).
    unfold is_type in T. rewrite T. cbn [List.length Z.of_nat].
    now rewrite Nat.add_0_r, Z.add_0_r.
  - cbn [app] in H. cbn [forallb] in C. apply andb_true_iff in C as [Cc C].
    cbn [parser.countCarets].
    rewrite (peekType_match p j c (cs ++ t :: rest)%list)
      by (try assumption; cbn [existsb]; unfold is_type in Cc; now rewrite Cc).
    unfold is_type in Cc. rewrite Cc.
    rewrite (IH fuel (S d) (j + 1) t rest)
      by (try assumption; try (cbn in F; lia); try lia;
          now apply (tokens_from_next p j c)).
    cbn [List.length]. f_equal; [f_equal; lia|].
    f_equal. lia.
Qed.

(** X24. A type is any number of carets and one of the keywords [int],
    [string], [bool] and [void]: [parseType] consumes them and returns the
    type of the keyword under as many pointers as there are carets. *)
Theorem X24_parseType
        (p : parser.Parser) (j : Z) (cs : list parser.Token)
        (t : parser.Token) (rest : list parser.Token) (base : ast.Type_) :
  0 <= j ->
  tokens_from p j = (cs ++ t :: rest)%list ->
  forallb (is_type parser.TypeCaret) cs = true ->
  is_type parser.TypeKeyword t = true ->
  baseType (parser.Keyword_ t) = Some base ->
  parser.parseType (parser.set_index j p)
  = (Ok (parser.pointerTo (List.length cs) base),
     parser.set_index (j + Z.of_nat (List.length cs) + 1) p).
Proof.
  intros J H C K B. unfold parser.parseType, parser.bindM.
  cbn [parser.tok parser.set_index].
  assert (L : (List.length cs < S (List.length (parser.tok p)))%nat).
  { unfold tokens_from in H. apply (f_equal (@List.length _)) in H.
    rewrite length_skipn, length_app in H. lia. }
  assert (T : is_type parser.TypeCaret t = false).
  { unfold is_type in *. now destruct (parser.Type_ t). }
  rewrite (countCarets_spec p cs _ 0%nat j t rest L J H C T).
  pose proof (tokens_from_app p j cs _ J H) as N.
  unfold parser.must.
  rewrite (expectType_match p _ t rest)
    by (try assumption; try lia; cbn [existsb]; unfold is_type in K;
        now rewrite K).
  cbn [Nat.add].
  destruct (parser.Keyword_ t); try discriminate B; injection B as <-;
    reflexivity.
Qed.

Lemma X24_parseType_witness :
  parser.parseType
    (parser.set_index 2
       (parser.New [tid "x"; tk parser.TypeColon; tk parser.TypeCaret;
                    tk parser.TypeCaret; kw parser.KeywordInt]))
  = (Ok (ast.mkType ast.TypePointer
           (Some (ast.mkType ast.TypePointer
                    (Some (ast.mkType ast.TypeInt None))))),
     parser.set_index 5
       (parser.New [tid "x"; tk parser.TypeColon; tk parser.TypeCaret;
                    tk parser.TypeCaret; kw parser.KeywordInt])).
Proof.
  exact (X24_parseType
           (parser.New [tid "x"; tk parser.TypeColon; tk parser.TypeCaret;
                        tk parser.TypeCaret; kw parser.KeywordInt])
           2 [tk parser.TypeCaret; tk parser.TypeCaret]
           (kw parser.KeywordInt) [] (ast.mkType ast.TypeInt None)
           ltac:(lia) eq_refl eq_refl eq_refl eq_refl).
Defined.

(** *** Expressions *)

Lemma is_atom_starter a :
  is_atom a = true ->
  existsb (parser.TokenType_eqb (parser.Type_ a)) parser.starters = true.
Proof.
  unfold is_atom, atom_expr. destruct (parser.Type_ a); try discriminate;
    reflexivity.
Qed.

Lemma is_op_binop o :
  is_op o = true ->
  existsb (parser.TokenType_eqb (parser.Type_ o)) parser.binops = true
  /\ existsb (parser.TokenType_eqb (parser.Type_ o))
             [parser.TypeLparen; parser.TypeCaret] = false
  /\ 3 <= prec o.
Proof.
  unfold is_op, prec. destruct (parser.Type_ o); try discriminate;
    intros _; cbn; repeat split; lia.
Qed.

Lemma stop_ok_head e stop :
  stop_ok (e :: stop) = true ->
  existsb (parser.TokenType_eqb (parser.Type_ e)) parser.binops = false
  /\ existsb (parser.TokenType_eqb (parser.Type_ e))
             [parser.TypeLparen; parser.TypeCaret] = false.
Proof.
  unfold stop_ok. destruct (parser.Type_ e); try discriminate;
    intros _; split; reflexivity.
Qed.

Lemma parsePrimary_atom fuel p j a ts e optional :
  0 <= j -> tokens_from p j = a :: ts ->
  atom_expr a = Some e -> no_suffix ts ->
  parser.parsePrimary (S fuel) optional (parser.set_index j p)
  = (Ok (Some e), parser.set_index (j + 1) p).
Proof.
  intros J H A N.
  assert (St : is_atom a = true) by (unfold is_atom; now rewrite A).
  apply is_atom_starter in St.
  cbn [parser.parsePrimary].
  rewrite (peekType_match p j a ts _ J H St), St. cbn [negb].
  unfold atom_expr in A.
  destruct (parser.Type_ a) eqn:T; try discriminate A.
  - (* identifier *)
    injection A as <-.
    pose proof (tokens_from_next p j a ts J H) as Hn.
    destruct ts as [|n ts].
    + now rewrite (peekType_end p (j + 1)) by (try assumption; lia).
    + cbn in N.
      rewrite (peekType_mismatch p (j + 1) n ts)
        by (try assumption; lia).
      destruct (parser.Type_ n); try discriminate N; reflexivity.
  - destruct (parser.Keyword_ a); try discriminate A; now injection A as <-.
  - now injection A as <-.
  - now injection A as <-.
  - destruct (parser.Keyword_ a); try discriminate A; now injection A as <-.
Qed.

Lemma ops_ge_mono n m t : m <= n -> ops_ge n t -> ops_ge m t.
Proof.
  intros L. induction t as [a|l IHl o r IHr]; cbn; [auto|].
  intros (P & Hl & Hr). repeat split; [lia | auto | auto].
Qed.

Lemma pairs_tokens_app a b :
  pairs_tokens (a ++ b) = (pairs_tokens a ++ pairs_tokens b)%list.
Proof. unfold pairs_tokens. now rewrite flat_map_app. Qed.

Lemma pairs_tokens_length rest :
  List.length (pairs_tokens rest) = (2 * List.length rest)%nat.
Proof.
  induction rest as [|oa rest IH]; [reflexivity|].
  cbn [pairs_tokens flat_map app List.length] in *.
  unfold pairs_tokens in IH. rewrite IH. lia.
Qed.

Lemma loop_pratt n : loop_spec n -> pratt_spec n.
Proof.
  intros L rest p j a0 stop minPrec fuel optional Ln J H C Sp F.
  unfold chain_ok in C. apply andb_true_iff in C as [A C].
  destruct fuel as [|fuel]; [lia|].
  unfold chain_tokens in H. cbn [app] in H.
  assert (N : no_suffix (pairs_tokens rest ++ stop)).
  { destruct rest as [|[o a] rest].
    - cbn. destruct stop as [|e stop]; [exact I|].
      now apply stop_ok_head in Sp.
    - cbn in C |- *. apply andb_true_iff in C as [C _].
      apply andb_true_iff in C as [C _]. now apply is_op_binop in C. }
  destruct (atom_expr a0) as [e|] eqn:Ae;
    [|unfold is_atom in A; now rewrite Ae in A].
  cbn [parser.parseExpressionPratt].
  destruct fuel as [|fuel]; [lia|].
  rewrite (parsePrimary_atom fuel p j a0 _ e optional J H Ae N).
  pose proof (tokens_from_next p j a0 _ J H) as Hn.
  destruct (L rest p (j + 1) (Leaf a0) stop minPrec (S fuel))
    as (t & rest1 & rest2 & E & T & Sh & Cl & G & Hd & P);
    try assumption; try lia; try exact I.
  { now destruct rest as [|[o a] rest]. }
  exists t, rest1, rest2. repeat split; try assumption.
  cbn [expr_of] in P. rewrite Ae in P. rewrite P. f_equal. f_equal.
  unfold chain_tokens. cbn [List.length]. lia.
Qed.

Lemma loop_step n : pratt_spec n -> loop_spec n -> loop_spec (S n).
Proof.
  intros PS LS rest p j lhs stop minPrec fuel Ln J H C Sp Sh Cl G Pre F.
  destruct fuel as [|fuel]; [lia|].
  destruct rest as [|[o a] rest].
  - (* nothing left: the end of the tokens, or the token that stops *)
    exists lhs, [], []. cbn [app pairs_tokens flat_map List.length] in *.
    rewrite app_nil_r, Z.add_0_r. repeat split; try assumption.
    cbn [parser.prattLoop]. destruct stop as [|e stop].
    + now rewrite (peekType_end p j) by assumption.
    + apply stop_ok_head in Sp as [Sp _].
      rewrite (peekType_mismatch p j e stop) by assumption.
      now rewrite Sp.
  - cbn [forallb fst snd] in C. apply andb_true_iff in C as [C0 C].
    apply andb_true_iff in C0 as [Co Ca].
    destruct (is_op_binop o Co) as (B & _ & P3).
    cbn [pairs_tokens flat_map fst snd app] in H.
    fold (pairs_tokens rest) in H.
    pose proof (tokens_from_next p j o _ J H) as Hn.
    cbn [parser.prattLoop].
    rewrite (peekType_match p j o _ _ J H B), B. cbn [negb].
    unfold is_op in Co. unfold prec in Pre, P3 |- *.
    destruct (parser.opPrecedence (parser.Type_ o)) as [info|] eqn:Io;
      [|discriminate Co].
    assert (RA : parser.rightAssoc info = false).
    { destruct (parser.Type_ o); try discriminate Io;
        injection Io as <-; reflexivity. }
    assert (Po : prec o = parser.precedence info)
      by (unfold prec; now rewrite Io).
    assert (Ko : op_kind o = parser.kind info)
      by (unfold op_kind; now rewrite Io).
    destruct (parser.precedence info <? minPrec) eqn:Lt.
    + (* the operator is left to the caller *)
      apply Z.ltb_lt in Lt.
      exists lhs, [], ((o, a) :: rest).
      cbn [app pairs_tokens flat_map List.length].
      rewrite app_nil_r, Z.add_0_r. repeat split; try assumption.
      * cbn. lia.
      * now rewrite set_index_back.
    + apply Z.ltb_ge in Lt. rewrite RA.
      cbn [List.length] in Ln.
      destruct (PS rest p (j + 1) a stop (parser.precedence info + 1) fuel
                   false)
        as (tr & r1 & r2 & E & T & Shr & Clr & Gr & Hd & P);
        try assumption; try lia.
      { unfold chain_ok. now rewrite Ca, C. }
      rewrite P. cbn [parser.notNil].
      assert (Hr : tokens_from p
                     (j + 1 + Z.of_nat (List.length (chain_tokens a r1)))
                   = (pairs_tokens r2 ++ stop)%list).
      { apply (tokens_from_app p (j + 1) (chain_tokens a r1)); [lia|].
        rewrite Hn, E. unfold chain_tokens. cbn [app].
        now rewrite pairs_tokens_app, <- app_assoc. }
      assert (C2 : forallb (fun oa => is_op (fst oa) && is_atom (snd oa)) r2
                   = true).
      { rewrite E, forallb_app in C. now apply andb_true_iff in C. }
      assert (L2 : (List.length r2 <= n)%nat).
      { rewrite E, length_app in Ln. lia. }
      destruct (LS r2 p
                   (j + 1 + Z.of_nat (List.length (chain_tokens a r1)))
                   (Node lhs o tr) stop minPrec fuel)
        as (t & q1 & q2 & E' & T' & Sh' & Cl' & G' & Hd' & P');
        try assumption; try lia.
      { cbn [shaped]. unfold is_op. now rewrite Sh, Io, Shr. }
      { cbn [climbs]. rewrite Po. repeat split; assumption. }
      { cbn [ops_ge]. rewrite Po. repeat split; try assumption; try lia.
        apply (ops_ge_mono (parser.precedence info + 1)); [lia | exact Gr]. }
      { destruct r2 as [|[o2 a2] r2]; [exact I|]. cbn in Hd.
        cbn [ops_ge]. rewrite Po. repeat split; try lia.
        - apply (ops_ge_mono (parser.precedence info)); [lia | exact Pre].
        - apply (ops_ge_mono (parser.precedence info + 1)); [lia | exact Gr]. }
      exists t, ((o, a) :: r1 ++ q1)%list, q2.
      split; [rewrite E, E'; cbn [app]; now rewrite app_assoc|].
      split.
      { rewrite T'. cbn [tokens_of]. rewrite T. unfold chain_tokens.
        cbn [pairs_tokens flat_map fst snd app].
        fold (pairs_tokens (r1 ++ q1)). rewrite pairs_tokens_app.
        now rewrite <- !app_assoc. }
      repeat (split; [assumption|]).
      cbn [expr_of] in P'. rewrite Ko in P'. rewrite P'. f_equal. f_equal.
      cbn [pairs_tokens flat_map fst snd app List.length].
      fold (pairs_tokens (r1 ++ q1)).
      rewrite pairs_tokens_app, length_app. unfold chain_tokens.
      cbn [List.length]. lia.
Qed.

Lemma loop_zero : loop_spec 0.
Proof.
  intros rest p j lhs stop minPrec fuel Ln J H C Sp Sh Cl G Pre F.
  destruct rest as [|oa rest]; [|cbn in Ln; lia].
  destruct fuel as [|fuel]; [lia|].
  exists lhs, [], []. cbn [app pairs_tokens flat_map List.length] in *.
  rewrite app_nil_r, Z.add_0_r. repeat split; try assumption.
  cbn [parser.prattLoop]. destruct stop as [|e stop].
  - now rewrite (peekType_end p j) by assumption.
  - apply stop_ok_head in Sp as [Sp _].
    rewrite (peekType_mismatch p j e stop) by assumption.
    now rewrite Sp.
Qed.

Lemma loop_all n : loop_spec n.
Proof.
  induction n as [|n IH]; [exact loop_zero|].
  apply loop_step; [now apply loop_pratt | exact IH].
Qed.

(** Two lists cut at an element each: the cuts agree, or the element of
    one list lies on the other side of the cut of the other. *)
Lemma app_cons_cases {A : Type} (l1 l2 r1 r2 : list A) (a b : A) :
  (l1 ++ a :: r1 = l2 ++ b :: r2)%list ->
  (l1 = l2 /\ a = b /\ r1 = r2)
  \/ (In a l2 /\ In b r1)
  \/ (In a r2 /\ In b l1).
Proof.
  revert l2. induction l1 as [|x l1 IH]; intros [|y l2] E; cbn in E.
  - injection E as -> ->. now left.
  - injection E as -> ->. right. left. split; [now left|apply in_elt].
  - injection E as Ex Er. subst x r2. right. right.
    split; [apply in_elt|now left].
  - injection E as Ex E. subst y.
    destruct (IH l2 E) as [(El & Ea & Er)|[[P Q]|[P Q]]].
    + left. now subst.
    + right. left. split; [now right|exact Q].
    + right. right. split; [exact P|now right].
Qed.

Lemma atom_not_op a : is_atom a = true -> is_op a = false.
Proof.
  unfold is_atom, atom_expr, is_op.
  destruct (parser.Type_ a); try discriminate; reflexivity.
Qed.

(** An operator token among the tokens of a tree is one of its operators. *)
Lemma ops_ge_in n t x :
  shaped t = true -> ops_ge n t -> In x (tokens_of t) -> is_op x = true ->
  n <= prec x.
Proof.
  induction t as [a|l IHl o r IHr]; cbn [shaped ops_ge tokens_of].
  - intros A _ [<-|[]] O. apply atom_not_op in A. congruence.
  - intros S (P & Gl & Gr) I O.
    apply andb_true_iff in S as [S Sr]. apply andb_true_iff in S as [Sl So].
    apply in_app_or in I as [I|[<-|I]]; [now apply IHl | exact P |
                                           now apply IHr].
Qed.

Lemma tokens_of_not_nil t : tokens_of t <> [].
Proof.
  destruct t as [a|l o r]; cbn; [discriminate|].
  now destruct (tokens_of l).
Qed.

(** The tokens and the precedences leave one tree. *)
Lemma climbs_unique t :
  forall t',
    shaped t = true -> shaped t' = true ->
    climbs t -> climbs t' -> tokens_of t = tokens_of t' -> t = t'.
Proof.
  induction t as [a|l IHl o r IHr]; intros [a'|l' o' r'];
    cbn [shaped climbs tokens_of]; intros S S' C C' E.
  - now injection E as ->.
  - exfalso. destruct (tokens_of l') as [|x [|y ys]] eqn:El.
    + now apply tokens_of_not_nil in El.
    + cbn in E. injection E as -> E. discriminate E.
    + cbn in E. injection E as -> E. discriminate E.
  - exfalso. destruct (tokens_of l) as [|x [|y ys]] eqn:El.
    + now apply tokens_of_not_nil in El.
    + cbn in E. injection E as -> E. discriminate E.
    + cbn in E. injection E as -> E. discriminate E.
  - apply andb_true_iff in S as [S Sr]. apply andb_true_iff in S as [Sl So].
    apply andb_true_iff in S' as [S' Sr'].
    apply andb_true_iff in S' as [Sl' So'].
    destruct C as (Cl & Cr & Gl & Gr). destruct C' as (Cl' & Cr' & Gl' & Gr').
    destruct (app_cons_cases _ _ _ _ _ _ E)
      as [(El & -> & Er)|[[P Q]|[P Q]]].
    + f_equal; [now apply IHl | now apply IHr].
    + exfalso.
      pose proof (ops_ge_in _ _ _ Sl' Gl' P So).
      pose proof (ops_ge_in _ _ _ Sr Gr Q So'). lia.
    + exfalso.
      pose proof (ops_ge_in _ _ _ Sr' Gr' P So).
      pose proof (ops_ge_in _ _ _ Sl Gl Q So'). lia.
Qed.


(** X25 (parseExpression, parseExpressionPratt, parsePrimary, opPrecedence):
    on an atom followed by pairs of a binary operator and an atom, up to the
    end of the tokens or a token that is no operator, no left parenthesis and
    no caret, [parseExpression] succeeds and consumes exactly these tokens.
    Its expression is the one tree over these tokens, in their order, in
    which under every operator the operators on the left bind as tightly at
    least and those on the right bind more tightly: the table of precedences
    decides the grouping and all operators group to the left. *)
Theorem X25_parseExpression_precedence
        (p : parser.Parser) (j : Z) (a0 : parser.Token)
        (rest : list (parser.Token * parser.Token))
        (stop : list parser.Token) (fuel : nat) (optional : bool) :
  0 <= j ->
  tokens_from p j = (chain_tokens a0 rest ++ stop)%list ->
  chain_ok a0 rest = true ->
  stop_ok stop = true ->
  (2 * List.length rest + 2 <= fuel)%nat ->
  exists t,
    parser.parseExpression fuel optional (parser.set_index j p)
    = (Ok (Some (expr_of t)),
       parser.set_index (j + 1 + 2 * Z.of_nat (List.length rest)) p)
    /\ tokens_of t = chain_tokens a0 rest
    /\ shaped t = true /\ climbs t
    /\ forall t', shaped t' = true -> climbs t' ->
                  tokens_of t' = chain_tokens a0 rest -> t' = t.
Proof.
  intros J H C Sp F.
  destruct (loop_pratt _ (loop_all (List.length rest)) rest p j a0 stop 0
                       fuel optional (le_n _) J H C Sp F)
    as (t & rest1 & rest2 & E & T & Sh & Cl & G & Hd & P).
  assert (R2 : rest2 = []).
  { destruct rest2 as [|[o a] rest2]; [reflexivity|]. exfalso.
    cbn in Hd. unfold chain_ok in C. rewrite E, forallb_app in C.
    apply andb_true_iff in C as [_ C]. apply andb_true_iff in C as [_ C].
    cbn in C. apply andb_true_iff in C as [C _].
    apply andb_true_iff in C as [C _]. apply is_op_binop in C. lia. }
  subst rest2. rewrite app_nil_r in E. subst rest1.
  exists t. split.
  { unfold parser.parseExpression. rewrite P. f_equal. f_equal.
    unfold chain_tokens. cbn [List.length]. rewrite pairs_tokens_length.
    lia. }
  repeat (split; [assumption|]).
  intros t' Sh' Cl' T'. apply climbs_unique; try assumption. congruence.
Qed.

Lemma X25_parseExpression_precedence_witness :
  exists t,
    parser.parseExpression 8 false (parser.set_index 0 sample_sum)
    = (Ok (Some (expr_of t)),
       parser.set_index (0 + 1 + 2 * Z.of_nat 3) sample_sum)
    /\ tokens_of t
       = chain_tokens (tnum 1)
           [(tk parser.TypePlus, tnum 2); (tk parser.TypeStar, tnum 3);
            (tk parser.TypeMinus, tnum 4)]
    /\ shaped t = true /\ climbs t
    /\ forall t', shaped t' = true -> climbs t' ->
                  tokens_of t'
                  = chain_tokens (tnum 1)
                      [(tk parser.TypePlus, tnum 2);
                       (tk parser.TypeStar, tnum 3);
                       (tk parser.TypeMinus, tnum 4)] -> t' = t.
Proof.
  exact (X25_parseExpression_precedence
           sample_sum 0 (tnum 1)
           [(tk parser.TypePlus, tnum 2); (tk parser.TypeStar, tnum 3);
            (tk parser.TypeMinus, tnum 4)]
           [tk parser.TypeSemicolon] 8 false
           ltac:(lia) eq_refl eq_refl eq_refl (le_n 8)).
Defined.

(** *** Calls *)

Lemma token_is_inv p j tt :
  token_is p j tt ->
  exists t ts, tokens_from p j = t :: ts /\ is_type tt t = true.
Proof.
  unfold token_is. destruct (tokens_from p j) as [|t ts]; [intros []|].
  intros H. now exists t, ts.
Qed.

(** A single atom is an expression when no operator, no left parenthesis and
    no caret follows it. *)
Lemma atom_parses p j a ts e :
  0 <= j -> tokens_from p j = a :: ts -> atom_expr a = Some e ->
  stop_ok ts = true ->
  parses p j 1 e 2.
Proof.
  intros J H A Sp fuel F.
  assert (C : chain_ok a [] = true).
  { unfold chain_ok, is_atom. now rewrite A. }
  destruct (loop_pratt _ loop_zero [] p j a ts 0 fuel true (le_n _) J H C Sp F)
    as (t & rest1 & rest2 & E & T & Sh & Cl & G & Hd & P).
  destruct rest1; [|discriminate E].
  unfold chain_tokens in T, P. cbn [pairs_tokens flat_map List.length] in T, P.
  destruct t as [a'|l o r]; cbn [tokens_of] in T.
  - injection T as ->. cbn [expr_of] in P. rewrite A in P.
    unfold parser.parseExpression. exact P.
  - exfalso. destruct (tokens_of l) as [|x [|y ys]] eqn:El.
    + now apply tokens_of_not_nil in El.
    + cbn in T. discriminate T.
    + cbn in T. discriminate T.
Qed.

Lemma parseCallLoop_args p j es k F :
  call_args p j es k F ->
  forall fuel first acc next,
    (F <= fuel)%nat ->
    parser.TokenType_eqb (parser.Type_ next) parser.TypeRparen = false ->
    parser.parseCallLoop fuel first acc next (parser.set_index j p)
    = (Ok (parser.NewCall (parser.StringVal first) (acc ++ es)),
       parser.set_index k p).
Proof.
  induction 1 as [j J R|j n e F J P R|j n e F es k G J P C A IH];
    intros fuel first acc next Fu N.
  - (* the right parenthesis at once *)
    destruct fuel as [|[|[|fuel]]]; try lia.
    apply token_is_inv in R as (t & ts & H & T). unfold is_type in T.
    cbn [parser.parseCallLoop]. rewrite N.
    cbn [parser.parseExpressionPratt parser.parsePrimary].
    assert (St : existsb (parser.TokenType_eqb (parser.Type_ t))
                         parser.starters = false)
      by (destruct (parser.Type_ t); try discriminate T; reflexivity).
    rewrite (peekType_mismatch p j t ts _ J H St), St. cbn [negb].
    rewrite (expectType_match p j t ts) by (try assumption; cbn [existsb];
                                            now rewrite T).
    destruct fuel; cbn [parser.parseCallLoop]; now rewrite T, app_nil_r.
  - destruct fuel as [|fuel]; [lia|].
    apply token_is_inv in R as (t & ts & H & T). unfold is_type in T.
    cbn [parser.parseCallLoop]. rewrite N.
    fold (parser.parseExpression fuel true). rewrite P by lia.
    rewrite (expectType_match p (j + Z.of_nat n) t ts)
      by (try assumption; try lia; cbn [existsb]; now rewrite T).
    destruct fuel as [|fuel]; [lia|].
    cbn [parser.parseCallLoop]. now rewrite T.
  - destruct fuel as [|fuel]; [lia|].
    apply token_is_inv in C as (t & ts & H & T). unfold is_type in T.
    cbn [parser.parseCallLoop]. rewrite N.
    fold (parser.parseExpression fuel true). rewrite P by lia.
    rewrite (expectType_match p (j + Z.of_nat n) t ts)
      by (try assumption; try lia; cbn [existsb]; rewrite T;
          now rewrite orb_true_r).
    rewrite IH; [now rewrite <- app_assoc | lia |].
    destruct (parser.Type_ t); try discriminate T; reflexivity.
Qed.

(** X26 (parseCall): after the left parenthesis of a call, [parseCall]
    reads the expressions that commas separate up to the right parenthesis,
    which a comma may precede, consumes the right parenthesis and returns the
    call of the identifier with these expressions as arguments, in their
    order. *)
Theorem X26_parseCall_arguments
        (p : parser.Parser) (j k : Z) (es : list parser.Expression)
        (F fuel : nat) (first : parser.Token) :
  call_args p j es k F ->
  (F <= fuel)%nat ->
  parser.parseCall fuel first (parser.set_index j p)
  = (Ok (parser.NewCall (parser.StringVal first) es), parser.set_index k p).
Proof.
  intros A Fu. unfold parser.parseCall.
  now rewrite (parseCallLoop_args p j es k F A fuel first [] parser.Token0 Fu).
Qed.

Lemma X26_parseCall_arguments_witness :
  parser.parseCall 5 (tid "f") (parser.set_index 2 sample_args)
  = (Ok (parser.NewCall "f" [parser.NewIntLiteral 1;
                             parser.NewStringLiteral "s"]),
     parser.set_index 7 sample_args).
Proof.
  apply (X26_parseCall_arguments sample_args 2 7
           [parser.NewIntLiteral 1; parser.NewStringLiteral "s"]
           5 5 (tid "f")); [|lia].
  apply (args_more sample_args 2 1 (parser.NewIntLiteral 1) 2
                   [parser.NewStringLiteral "s"] 7 4); [lia| |reflexivity|].
  { apply (atom_parses sample_args 2 (tnum 1)
                       [tk parser.TypeComma; tstr "s"; tk parser.TypeComma;
                        tk parser.TypeRparen]); (reflexivity || lia). }
  apply (args_more sample_args 4 1 (parser.NewStringLiteral "s") 2 [] 7 3);
    [lia| |reflexivity|].
  { apply (atom_parses sample_args 4 (tstr "s")
                       [tk parser.TypeComma; tk parser.TypeRparen]);
      (reflexivity || lia). }
  apply (args_end sample_args 6); [lia | reflexivity].
Defined.

(** *** Blocks *)

Lemma blockLoop_skip p junk :
  forall j rest fuel instrs,
    0 <= j -> tokens_from p j = (junk ++ rest)%list ->
    forallb starts_nothing junk = true ->
    parser.parseBlockLoop (List.length junk + fuel) instrs
                          (parser.set_index j p)
    = parser.parseBlockLoop fuel instrs
        (parser.set_index (j + Z.of_nat (List.length junk)) p).
Proof.
  induction junk as [|t junk IH]; intros j rest fuel instrs J H K.
  - cbn [List.length Nat.add Z.of_nat]. now rewrite Z.add_0_r.
  - cbn [forallb] in K. apply andb_true_iff in K as [Kt K].
    cbn [app] in H. pose proof (tokens_from_next p j t _ J H) as Hn.
    assert (R : parser.parseBlockLoop (List.length junk + fuel) instrs
                  (parser.set_index (j + 1) p)
                = parser.parseBlockLoop fuel instrs
                    (parser.set_index
                       (j + Z.of_nat (List.length (t :: junk))) p)).
    { rewrite (IH (j + 1) rest fuel instrs) by (try assumption; lia).
      f_equal. f_equal. cbn [List.length]. lia. }
    cbn [List.length Nat.add parser.parseBlockLoop].
    rewrite (nextToken_at p j t _ J H).
    unfold starts_nothing in Kt.
    destruct (parser.Type_ t); try discriminate Kt; try exact R.
    destruct (parser.Keyword_ t); try discriminate Kt; exact R.
Qed.

Lemma blockLoop_end p j tail fuel instrs :
  0 <= j -> tokens_from p j = tail -> block_end tail = true ->
  parser.parseBlockLoop (S fuel) instrs (parser.set_index j p)
  = (match tail with [] => Err EOF | _ => Ok instrs end,
     parser.set_index j p).
Proof.
  intros J H B. cbn [parser.parseBlockLoop]. destruct tail as [|r tail].
  - now rewrite (nextToken_end p j J H).
  - rewrite (nextToken_at p j r tail J H). cbn in B. unfold is_type in B.
    destruct (parser.Type_ r); try discriminate B.
    now rewrite set_index_back.
Qed.

(** X27 (parseBlock): a block whose tokens start no statement, that is
    numbers, strings, operators, separators and keywords other than [return],
    [if] and [for], is read as the empty block: [parseBlock] passes over these
    tokens without an error and stops on the right brace, which it leaves to
    its caller.  Without a right brace it ends with [io.EOF]. *)
Theorem X27_parseBlock_skips_tokens
        (p : parser.Parser) (j : Z) (start : parser.Token)
        (junk tail : list parser.Token) (fuel : nat) :
  0 <= j ->
  is_type parser.TypeLbrace start = true ->
  tokens_from p j = (junk ++ tail)%list ->
  forallb starts_nothing junk = true ->
  block_end tail = true ->
  (List.length junk + 2 <= fuel)%nat ->
  parser.parseBlock fuel start (parser.set_index j p)
  = (match tail with [] => Err EOF | _ => Ok [] end,
     parser.set_index (j + Z.of_nat (List.length junk)) p).
Proof.
  intros J L H K B F.
  replace fuel with (S (List.length junk + S (fuel - List.length junk - 2)))
    by lia.
  cbn [parser.parseBlock]. unfold is_type in L.
  replace (parser.TokenType_eqb (parser.Type_ start) parser.TypeLbrace)
    with true
    by (destruct (parser.Type_ start); try discriminate L; reflexivity).
  cbn [negb].
  rewrite (blockLoop_skip p junk j tail _ [] J H K).
  apply blockLoop_end; [lia | | exact B].
  now apply tokens_from_app.
Qed.

Lemma X27_parseBlock_skips_tokens_witness :
  parser.parseBlock 5 (tk parser.TypeLbrace) (parser.set_index 1 sample_junk)
  = (Ok [], parser.set_index 4 sample_junk).
Proof.
  exact (X27_parseBlock_skips_tokens
           sample_junk 1 (tk parser.TypeLbrace)
           [tnum 1; tk parser.TypePlus; tk parser.TypeSemicolon]
           [tk parser.TypeRbrace] 5
           ltac:(lia) eq_refl eq_refl eq_refl eq_refl ltac:(cbn; lia)).
Defined.

(** *** Functions *)

Lemma parseType_at p j cs t rest base :
  0 <= j ->
  tokens_from p j = (cs ++ t :: rest)%list ->
  forallb (is_type parser.TypeCaret) cs = true ->
  is_type parser.TypeKeyword t = true ->
  baseType (parser.Keyword_ t) = Some base ->
  parser.parseType (parser.set_index j p)
  = (Ok (parser.pointerTo (List.length cs) base),
     parser.set_index (j + Z.of_nat (List.length cs) + 1) p).
Proof.
  intros J H C K B. unfold parser.parseType, parser.bindM.
  cbn [parser.tok parser.set_index].
  assert (L : (List.length cs < S (List.length (parser.tok p)))%nat).
  { unfold tokens_from in H. apply (f_equal (@List.length _)) in H.
    rewrite length_skipn, length_app in H. lia. }
  assert (T : is_type parser.TypeCaret t = false).
  { unfold is_type in *. now destruct (parser.Type_ t). }
  rewrite (countCarets_spec p cs _ 0%nat j t rest L J H C T).
  pose proof (tokens_from_app p j cs _ J H) as N.
  unfold parser.must.
  rewrite (expectType_match p _ t rest)
    by (try assumption; try lia; cbn [existsb]; unfold is_type in K;
        now rewrite K).
  cbn [Nat.add].
  destruct (parser.Keyword_ t); try discriminate B; injection B as <-;
    reflexivity.
Qed.

Lemma is_type_eqb tt t :
  is_type tt t = true ->
  parser.TokenType_eqb (parser.Type_ t) tt = true.
Proof. unfold is_type. destruct (parser.Type_ t), tt; auto. Qed.

Lemma parseFuncReturnType_declares p j rt T lb ts :
  0 <= j -> declares rt T ->
  tokens_from p j = (rt ++ lb :: ts)%list ->
  is_type parser.TypeLbrace lb = true ->
  parser.parseFuncReturnType (parser.set_index j p)
  = (Ok T, parser.set_index (j + Z.of_nat (List.length rt)) p).
Proof.
  intros J D H L. unfold parser.parseFuncReturnType, parser.bindM, parser.must.
  destruct D as [|ar cs t base A C K B].
  - cbn [app] in H.
    rewrite (peekType_mismatch p j lb ts)
      by (try assumption; unfold is_type in L; cbn [existsb];
          destruct (parser.Type_ lb); try discriminate L; reflexivity).
    unfold is_type in L.
    replace (parser.TokenType_eqb (parser.Type_ lb) parser.TypeArrow)
      with false
      by (destruct (parser.Type_ lb); try discriminate L; reflexivity).
    cbn [List.length Z.of_nat]. now rewrite Z.add_0_r.
  - cbn [app] in H. rewrite <- app_assoc in H. cbn [app] in H.
    unfold is_type in A.
    rewrite (peekType_match p j ar _ _ J H)
      by (cbn [existsb]; now rewrite A).
    rewrite A.
    pose proof (tokens_from_next p j ar _ J H) as Hn.
    rewrite (parseType_at p (j + 1) cs t (lb :: ts) base)
      by (try assumption; lia).
    f_equal. f_equal. cbn [List.length]. rewrite length_app.
    cbn [List.length]. lia.
Qed.

Lemma paramsLoop_none p j rp ts fuel :
  0 <= j -> tokens_from p j = rp :: ts ->
  is_type parser.TypeRparen rp = true ->
  parser.paramsLoop (S fuel) [] (parser.set_index j p)
  = (Ok [], parser.set_index (j + 1) p).
Proof.
  intros J H R. cbn [parser.paramsLoop].
  unfold parser.parseFuncParam, parser.bindM, parser.must.
  unfold is_type in R.
  rewrite (expectType_match p j rp ts)
    by (try assumption; cbn [existsb]; now rewrite R).
  now rewrite R.
Qed.

(** A function without attributes and parameters, from the block that
    [parseBlock] reads as its body. *)
Lemma parseFunc_block p j name lp rp rt T lb ts fuel instrs m rb rest :
  0 <= j -> parser.attributes p = [] ->
  tokens_from p j = (lp :: rp :: rt ++ lb :: ts)%list ->
  is_type parser.TypeLparen lp = true ->
  is_type parser.TypeRparen rp = true ->
  declares rt T ->
  is_type parser.TypeLbrace lb = true ->
  (1 <= fuel)%nat ->
  parser.parseBlock fuel lb
    (parser.set_index (j + 2 + Z.of_nat (List.length rt) + 1)
                      (parser.set_currentRetType (retKeyword T) p))
  = (Ok instrs,
     parser.set_index m (parser.set_currentRetType (retKeyword T) p)) ->
  0 <= m -> tokens_from p m = rb :: rest ->
  is_type parser.TypeRbrace rb = true ->
  parser.parseFunc fuel name (parser.set_index j p)
  = if addRet instrs && negb (ast.TypeKind_eqb (ast.Kind T) ast.TypeVoid)
    then (Err (Errorf "expected return statement at %s"),
          parser.set_index m (parser.set_currentRetType (retKeyword T) p))
    else (Ok tt,
          parser.set_unit
            (with_func p name T
               (if addRet instrs then (instrs ++ [parser.Return None])%list
                else instrs))
            (parser.set_index (m + 1)
               (parser.set_currentRetType (retKeyword T) p))).
Proof.
  intros J A H Lp Rp D Lb F Blk M Hm Rb.
  destruct fuel as [|fuel]; [lia|].
  unfold parser.parseFunc, parser.bindM, parser.must.
  rewrite (expectType_match p j lp _ _ J H)
    by (cbn [existsb]; now rewrite (is_type_eqb _ _ Lp)).
  pose proof (tokens_from_next p j lp _ J H) as H1.
  replace (parser.set_attributes [] (parser.set_index (j + 1) p))
    with (parser.set_index (j + 1) p)
    by (unfold parser.set_attributes, parser.set_index;
        cbn; now rewrite A).
  assert (J1 : 0 <= j + 1) by lia.
  rewrite (paramsLoop_none p (j + 1) rp _ fuel J1 H1 Rp).
  pose proof (tokens_from_next p (j + 1) rp _ J1 H1) as H2.
  rewrite (parseFuncReturnType_declares p (j + 1 + 1) rt T lb ts)
    by (try assumption; lia).
  cbv beta.
  change (parser.attributes (parser.set_index (j + 1) p))
    with (parser.attributes p).
  rewrite A.
  cbn [parser.NewFuncDef parser.fd_Attributes parser.fd_Ident
       ast.attr_lookup].
  pose proof (tokens_from_app p (j + 1 + 1) rt _ ltac:(lia) H2) as H3.
  fold (retKeyword T).
  change (parser.set_currentRetType (retKeyword T)
            (parser.set_index (j + 1 + 1 + Z.of_nat (List.length rt)) p))
    with (parser.set_index (j + 1 + 1 + Z.of_nat (List.length rt))
            (parser.set_currentRetType (retKeyword T) p)).
  set (p' := parser.set_currentRetType (retKeyword T) p) in *.
  rewrite (expectType_match p' _ lb ts)
    by (try exact H3; try lia; cbn [existsb];
        now rewrite (is_type_eqb _ _ Lb)).
  replace (j + 1 + 1 + Z.of_nat (List.length rt) + 1)
    with (j + 2 + Z.of_nat (List.length rt) + 1) by lia.
  rewrite Blk. fold (addRet instrs).
  destruct (addRet instrs); cbn [andb].
  - destruct (ast.Kind T) eqn:KT; cbn [ast.TypeKind_eqb negb];
      try reflexivity.
    unfold parser.ret.
    rewrite (expectType_match p' m rb rest)
      by (try exact Hm; try lia; cbn [existsb];
          now rewrite (is_type_eqb _ _ Rb)).
    reflexivity.
  - unfold parser.ret.
    rewrite (expectType_match p' m rb rest)
      by (try exact Hm; try lia; cbn [existsb];
          now rewrite (is_type_eqb _ _ Rb)).
    reflexivity.
Qed.

Lemma blockLoop_junk_end p j junk rb rest fuel instrs :
  0 <= j -> tokens_from p j = (junk ++ rb :: rest)%list ->
  forallb starts_nothing junk = true ->
  is_type parser.TypeRbrace rb = true ->
  parser.parseBlockLoop (List.length junk + S fuel) instrs
                        (parser.set_index j p)
  = (Ok instrs, parser.set_index (j + Z.of_nat (List.length junk)) p).
Proof.
  intros J H K R.
  rewrite (blockLoop_skip p junk j (rb :: rest) (S fuel) instrs J H K).
  apply (blockLoop_end p _ (rb :: rest) fuel instrs); [lia | | exact R].
  now apply tokens_from_app.
Qed.

Lemma blockLoop_return_void p j t ts fuel instrs :
  0 <= j -> tokens_from p j = t :: ts ->
  is_type parser.TypeKeyword t = true ->
  parser.Keyword_ t = parser.KeywordReturn ->
  parser.currentRetType p = parser.KeywordVoid ->
  parser.parseBlockLoop (S fuel) instrs (parser.set_index j p)
  = parser.parseBlockLoop fuel (instrs ++ [parser.Return None])
                          (parser.set_index (j + 1) p).
Proof.
  intros J H K R V. cbn [parser.parseBlockLoop].
  rewrite (nextToken_at p j t ts J H). unfold is_type in K.
  destruct (parser.Type_ t); try discriminate K. rewrite R.
  change (parser.currentRetType (parser.set_index (j + 1) p))
    with (parser.currentRetType p).
  now rewrite V.
Qed.

Lemma parseBlock_open fuel lb p :
  is_type parser.TypeLbrace lb = true ->
  parser.parseBlock (S fuel) lb p = parser.parseBlockLoop fuel [] p.
Proof.
  intros L. cbn [parser.parseBlock].
  now rewrite (is_type_eqb _ _ L).
Qed.

Lemma body_tokens p j lp rp rt lb ts :
  0 <= j -> tokens_from p j = (lp :: rp :: rt ++ lb :: ts)%list ->
  tokens_from p (j + 2 + Z.of_nat (List.length rt) + 1) = ts.
Proof.
  intros J H.
  pose proof (tokens_from_app p j (lp :: rp :: rt ++ [lb]) ts J) as Hb.
  rewrite <- Hb; [|cbn [app]; now rewrite <- app_assoc].
  unfold tokens_from. f_equal. f_equal. cbn [List.length].
  rewrite length_app. cbn [List.length]. lia.
Qed.

(** X28 (parseFunc): a function without attributes and parameters whose
    body holds no statement, only tokens that [parseBlock] passes over, gets
    the implicit return when its return type is [void], declared or by
    default, and is registered in the unit with that body.  With any other
    return type [parseFunc] fails with "expected return statement" and
    registers nothing. *)
Theorem X28_parseFunc_implicit_return
        (p : parser.Parser) (j : Z) (name lp rp : parser.Token)
        (rt : list parser.Token) (T : ast.Type_) (lb : parser.Token)
        (junk : list parser.Token) (rb : parser.Token)
        (rest : list parser.Token) (fuel : nat) :
  0 <= j -> parser.attributes p = [] ->
  tokens_from p j = (lp :: rp :: rt ++ lb :: junk ++ rb :: rest)%list ->
  is_type parser.TypeLparen lp = true ->
  is_type parser.TypeRparen rp = true ->
  declares rt T ->
  is_type parser.TypeLbrace lb = true ->
  forallb starts_nothing junk = true ->
  is_type parser.TypeRbrace rb = true ->
  (List.length junk + 2 <= fuel)%nat ->
  parser.parseFunc fuel name (parser.set_index j p)
  = if ast.TypeKind_eqb (ast.Kind T) ast.TypeVoid
    then (Ok tt,
          parser.set_unit
            (with_func p name T [parser.Return None])
            (parser.set_index
               (j + 3 + Z.of_nat (List.length rt)
                + Z.of_nat (List.length junk) + 1)
               (parser.set_currentRetType parser.KeywordVoid p)))
    else (Err (Errorf "expected return statement at %s"),
          parser.set_index
            (j + 3 + Z.of_nat (List.length rt) + Z.of_nat (List.length junk))
            (parser.set_currentRetType (retKeyword T) p)).
Proof.
  intros J A H Lp Rp D Lb K Rb F.
  pose proof (body_tokens p j lp rp rt lb _ J H) as Hb.
  assert (Jb : 0 <= j + 2 + Z.of_nat (List.length rt) + 1) by lia.
  pose proof (tokens_from_app p _ junk (rb :: rest) Jb Hb) as He.
  rewrite (parseFunc_block p j name lp rp rt T lb (junk ++ rb :: rest) fuel
             []
             (j + 3 + Z.of_nat (List.length rt)
              + Z.of_nat (List.length junk)) rb rest);
    try assumption; try lia.
  - cbn [addRet parser.last_instr rev andb app].
    destruct (ast.Kind T) eqn:KT; cbn [ast.TypeKind_eqb negb];
      try reflexivity.
    unfold retKeyword. now rewrite KT.
  - replace fuel with (S (List.length junk + S (fuel - List.length junk - 2)))
      by lia.
    rewrite (parseBlock_open _ lb _ Lb).
    rewrite (blockLoop_junk_end
               (parser.set_currentRetType (retKeyword T) p)
               (j + 2 + Z.of_nat (List.length rt) + 1) junk rb rest);
      try assumption; try lia.
    f_equal. f_equal. lia.
  - rewrite <- He. f_equal. lia.
Qed.

Lemma X28_parseFunc_implicit_return_witness :
  parser.parseFunc 3 (tid "f") (parser.set_index 4 sample_void_func)
  = (Ok tt,
     parser.set_unit
       (with_func sample_void_func (tid "f") (parser.TypeOf ast.TypeVoid)
                  [parser.Return None])
       (parser.set_index 9
          (parser.set_currentRetType parser.KeywordVoid sample_void_func))).
Proof.
  exact (X28_parseFunc_implicit_return
           sample_void_func 4 (tid "f") (tk parser.TypeLparen)
           (tk parser.TypeRparen) [] (parser.TypeOf ast.TypeVoid)
           (tk parser.TypeLbrace) [tnum 1] (tk parser.TypeRbrace) [] 3
           ltac:(lia) eq_refl eq_refl eq_refl eq_refl declares_void eq_refl
           eq_refl eq_refl (le_n 3)).
Defined.

(** X29 (parseFunc, parseBlock): in a function whose return type is
    neither [int] nor [string], so also [bool] and every pointer type, a
    [return] statement takes no value: the tokens after [return] that start
    no statement, such as a literal, are passed over without an error and the
    body that is registered holds the bare return. *)
Theorem X29_parseFunc_drops_return_value
        (p : parser.Parser) (j : Z) (name lp rp : parser.Token)
        (rt : list parser.Token) (T : ast.Type_) (lb ret : parser.Token)
        (junk : list parser.Token) (rb : parser.Token)
        (rest : list parser.Token) (fuel : nat) :
  0 <= j -> parser.attributes p = [] ->
  tokens_from p j
  = (lp :: rp :: rt ++ lb :: ret :: junk ++ rb :: rest)%list ->
  is_type parser.TypeLparen lp = true ->
  is_type parser.TypeRparen rp = true ->
  declares rt T ->
  ast.Kind T <> ast.TypeInt -> ast.Kind T <> ast.TypeString ->
  is_type parser.TypeLbrace lb = true ->
  is_type parser.TypeKeyword ret = true ->
  parser.Keyword_ ret = parser.KeywordReturn ->
  forallb starts_nothing junk = true ->
  is_type parser.TypeRbrace rb = true ->
  (List.length junk + 3 <= fuel)%nat ->
  parser.parseFunc fuel name (parser.set_index j p)
  = (Ok tt,
     parser.set_unit
       (with_func p name T [parser.Return None])
       (parser.set_index
          (j + 3 + Z.of_nat (List.length rt) + 1
           + Z.of_nat (List.length junk) + 1)
          (parser.set_currentRetType parser.KeywordVoid p))).
Proof.
  intros J A H Lp Rp D NI NS Lb Kr Ret K Rb F.
  assert (V : retKeyword T = parser.KeywordVoid).
  { unfold retKeyword. destruct (ast.Kind T); congruence. }
  pose proof (body_tokens p j lp rp rt lb _ J H) as Hb.
  assert (Jb : 0 <= j + 2 + Z.of_nat (List.length rt) + 1) by lia.
  pose proof (tokens_from_next p _ ret _ Jb Hb) as Hj.
  assert (Jj : 0 <= j + 2 + Z.of_nat (List.length rt) + 1 + 1) by lia.
  pose proof (tokens_from_app p _ junk (rb :: rest) Jj Hj) as He.
  rewrite (parseFunc_block p j name lp rp rt T lb
             (ret :: junk ++ rb :: rest) fuel [parser.Return None]
             (j + 2 + Z.of_nat (List.length rt) + 1 + 1
              + Z.of_nat (List.length junk)) rb rest);
    try assumption; try lia.
  - rewrite V. cbn [addRet parser.last_instr rev app parser.is_Return negb
                    andb].
    do 3 f_equal. lia.
  - rewrite V.
    replace fuel
      with (S (S (List.length junk + S (fuel - List.length junk - 3))))
      by lia.
    rewrite (parseBlock_open _ lb _ Lb).
    rewrite (blockLoop_return_void
               (parser.set_currentRetType parser.KeywordVoid p) _ ret
               (junk ++ rb :: rest));
      try assumption; try lia; try reflexivity.
    cbn [app].
    now rewrite (blockLoop_junk_end
                   (parser.set_currentRetType parser.KeywordVoid p)
                   _ junk rb rest) by (try assumption; lia).
Qed.

Lemma X29_parseFunc_drops_return_value_witness :
  parser.parseFunc 4 (tid "f") (parser.set_index 4 sample_bool_func)
  = (Ok tt,
     parser.set_unit
       (with_func sample_bool_func (tid "f") (parser.TypeOf ast.TypeBool)
                  [parser.Return None])
       (parser.set_index 12
          (parser.set_currentRetType parser.KeywordVoid sample_bool_func))).
Proof.
  exact (X29_parseFunc_drops_return_value
           sample_bool_func 4 (tid "f") (tk parser.TypeLparen)
           (tk parser.TypeRparen)
           [tk parser.TypeArrow; kw parser.KeywordBool]
           (parser.TypeOf ast.TypeBool)
           (tk parser.TypeLbrace) (kw parser.KeywordReturn)
           [kw parser.KeywordTrue] (tk parser.TypeRbrace) [] 4
           ltac:(lia) eq_refl eq_refl eq_refl eq_refl
           (declares_type (tk parser.TypeArrow) [] (kw parser.KeywordBool)
                          (parser.TypeOf ast.TypeBool)
                          eq_refl eq_refl eq_refl eq_refl)
           ltac:(discriminate) ltac:(discriminate)
           eq_refl eq_refl eq_refl eq_refl eq_refl (le_n 4)).
Defined.

(** *** Units *)

Lemma parseFunc_void_junk p j name lp rp rt T lb junk rb rest fuel :
  0 <= j -> parser.attributes p = [] ->
  tokens_from p j = (lp :: rp :: rt ++ lb :: junk ++ rb :: rest)%list ->
  is_type parser.TypeLparen lp = true ->
  is_type parser.TypeRparen rp = true ->
  declares rt T -> ast.Kind T = ast.TypeVoid ->
  is_type parser.TypeLbrace lb = true ->
  forallb starts_nothing junk = true ->
  is_type parser.TypeRbrace rb = true ->
  (List.length junk + 2 <= fuel)%nat ->
  parser.parseFunc fuel name (parser.set_index j p)
  = (Ok tt,
     parser.set_unit
       (with_func p name T [parser.Return None])
       (parser.set_index
          (j + 3 + Z.of_nat (List.length rt)
           + Z.of_nat (List.length junk) + 1)
          (parser.set_currentRetType parser.KeywordVoid p))).
Proof.
  intros J A H Lp Rp D V Lb K Rb F.
  assert (RV : retKeyword T = parser.KeywordVoid)
    by (unfold retKeyword; now rewrite V).
  pose proof (body_tokens p j lp rp rt lb _ J H) as Hb.
  assert (Jb : 0 <= j + 2 + Z.of_nat (List.length rt) + 1) by lia.
  pose proof (tokens_from_app p _ junk (rb :: rest) Jb Hb) as He.
  rewrite (parseFunc_block p j name lp rp rt T lb (junk ++ rb :: rest) fuel
             []
             (j + 3 + Z.of_nat (List.length rt)
              + Z.of_nat (List.length junk)) rb rest);
    try assumption; try lia.
  - rewrite RV, V. reflexivity.
  - rewrite RV.
    replace fuel with (S (List.length junk + S (fuel - List.length junk - 2)))
      by lia.
    rewrite (parseBlock_open _ lb _ Lb).
    rewrite (blockLoop_junk_end
               (parser.set_currentRetType parser.KeywordVoid p)
               (j + 2 + Z.of_nat (List.length rt) + 1) junk rb rest);
      try assumption; try lia.
    f_equal. f_equal. lia.
  - rewrite <- He. f_equal. lia.
Qed.

Lemma sf_tokens_length g :
  Z.of_nat (List.length (sf_tokens g))
  = 4 + 3 + Z.of_nat (List.length (sf_rt g))
    + Z.of_nat (List.length (sf_junk g)) + 1.
Proof.
  unfold sf_tokens. cbn [List.length]. rewrite length_app. cbn [List.length].
  rewrite length_app. cbn [List.length]. lia.
Qed.

Lemma ParseLoop_funcs M gs :
  forall q j fuel,
    0 <= j -> parser.attributes q = [] ->
    String.eqb (parser.cu_Ident (parser.unit q)) "" = false ->
    tokens_from q j = List.concat (map sf_tokens gs) ->
    Forall sf_ok gs ->
    Forall (fun g => (List.length (sf_junk g) <= M)%nat) gs ->
    (List.length gs + M + 3 <= fuel)%nat ->
    parser.ParseLoop fuel (parser.set_index j q)
    = (parser.mkCompilationUnit
         (parser.cu_Ident (parser.unit q))
         (parser.cu_Attributes (parser.unit q))
         (parser.cu_Funcs (parser.unit q) ++ map sf_def gs),
       EOF).
Proof.
  induction gs as [|g gs IH]; intros q j fuel J A I H O B F;
    (destruct fuel as [|fuel]; [lia|]); cbn [parser.ParseLoop].
  - cbn [map List.concat] in H. rewrite (expectType_end q j _ J H).
    cbn [map]. rewrite app_nil_r.
    change (parser.unit (parser.set_index j q)) with (parser.unit q).
    now destruct (parser.unit q).
  - inversion O as [|? ? Og Os]; subst. inversion B as [|? ? Bg Bs]; subst.
    destruct Og as (N & C1 & C2 & Fk & Fn & Lp & Rp & D & V & Lb & K & Rb).
    cbn [map List.concat] in H. unfold sf_tokens in H at 1.
    cbn [app] in H. rewrite <- !app_assoc in H. cbn [app] in H.
    rewrite <- !app_assoc in H. cbn [app] in H.
    rewrite (expectType_match q j (sf_name g) _ _ J H)
      by (unfold is_type in N; destruct (parser.Type_ (sf_name g));
          try discriminate N; reflexivity).
    unfold is_type in N. destruct (parser.Type_ (sf_name g)) eqn:TN;
      try discriminate N. clear N.
    change (parser.unit (parser.set_index (j + 1) q)) with (parser.unit q).
    rewrite I. unfold parser.bindM, parser.must.
    pose proof (tokens_from_next q j _ _ J H) as H1.
    assert (J1 : 0 <= j + 1) by lia.
    rewrite (expectType_match q (j + 1) (sf_colon1 g) _ _ J1 H1)
      by (cbn [existsb]; now rewrite (is_type_eqb _ _ C1)).
    pose proof (tokens_from_next q (j + 1) _ _ J1 H1) as H2.
    assert (J2 : 0 <= j + 1 + 1) by lia.
    rewrite (expectType_match q (j + 1 + 1) (sf_colon2 g) _ _ J2 H2)
      by (cbn [existsb]; now rewrite (is_type_eqb _ _ C2)).
    pose proof (tokens_from_next q (j + 1 + 1) _ _ J2 H2) as H3.
    assert (J3 : 0 <= j + 1 + 1 + 1) by lia.
    unfold parser.expectKeyword.
    rewrite (expectType_match q (j + 1 + 1 + 1) (sf_func g) _ _ J3 H3)
      by (cbn [existsb]; now rewrite (is_type_eqb _ _ Fk)).
    rewrite Fn. cbn [existsb parser.Keyword_eqb orb].
    pose proof (tokens_from_next q (j + 1 + 1 + 1) _ _ J3 H3) as H4.
    assert (J4 : 0 <= j + 1 + 1 + 1 + 1) by lia.
    rewrite (parseFunc_void_junk q (j + 1 + 1 + 1 + 1) (sf_name g)
               (sf_lp g) (sf_rp g) (sf_rt g) (sf_type g) (sf_lb g)
               (sf_junk g) (sf_rb g) (List.concat (map sf_tokens gs)) fuel);
      try assumption; try lia.
    set (k := j + 1 + 1 + 1 + 1 + 3 + Z.of_nat (List.length (sf_rt g))
              + Z.of_nat (List.length (sf_junk g)) + 1).
    set (q' := parser.set_unit
                 (with_func q (sf_name g) (sf_type g) [parser.Return None])
                 (parser.set_currentRetType parser.KeywordVoid q)).
    change (parser.set_unit
              (with_func q (sf_name g) (sf_type g) [parser.Return None])
              (parser.set_index k
                 (parser.set_currentRetType parser.KeywordVoid q)))
      with (parser.set_index k q').
    rewrite (IH q' k fuel).
    + unfold q', with_func, sf_def. cbn. now rewrite <- app_assoc.
    + unfold k. lia.
    + unfold q'. cbn. exact A.
    + unfold q', with_func. cbn. exact I.
    + pose proof (tokens_from_app q j (sf_tokens g)
                                  (List.concat (map sf_tokens gs)) J) as Ha.
      change (tokens_from q' k) with (tokens_from q k).
      rewrite <- Ha.
      * unfold k. f_equal. rewrite sf_tokens_length. lia.
      * rewrite H. unfold sf_tokens. cbn [app].
        rewrite <- !app_assoc. cbn [app]. now rewrite <- !app_assoc.
    + exact Os.
    + exact Bs.
    + cbn [List.length] in F. lia.
Qed.

(** X30 (Parse, parsePackage, expectKeyword, parseFunc): on the tokens of
    [package name] and of any number of functions without attributes,
    parameters and statements, whose return type is [void], [Parse] returns
    the unit of that name with these functions in their order, each with the
    implicit return as its body, together with [io.EOF]: the error with
    which a complete parse ends. *)
Theorem X30_Parse_unit_of_functions
        (pk pn : parser.Token) (gs : list simple_func) (M fuel : nat) :
  is_type parser.TypeKeyword pk = true ->
  parser.Keyword_ pk = parser.KeywordPackage ->
  is_type parser.TypeIdent pn = true ->
  parser.StringVal pn <> "" ->
  Forall sf_ok gs ->
  Forall (fun g => (List.length (sf_junk g) <= M)%nat) gs ->
  (List.length gs + M + 4 <= fuel)%nat ->
  parser.Parse fuel (parser.New (pk :: pn :: List.concat (map sf_tokens gs)))
  = (parser.mkCompilationUnit (parser.StringVal pn) [] (map sf_def gs), EOF).
Proof.
  intros K P N E O B F. destruct fuel as [|fuel]; [lia|].
  set (toks := pk :: pn :: List.concat (map sf_tokens gs)).
  unfold parser.Parse. cbn [parser.ParseLoop].
  change (parser.New toks) with (parser.set_index 0 (parser.New toks)).
  assert (H : tokens_from (parser.New toks) 0 = toks) by reflexivity.
  unfold toks in H.
  rewrite (expectType_match (parser.New toks) 0 pk _ _ (Z.le_refl 0) H)
    by (cbn [existsb]; now rewrite (is_type_eqb _ _ K)).
  unfold is_type in K. destruct (parser.Type_ pk) eqn:TK;
    try discriminate K. clear K. rewrite P.
  pose proof (tokens_from_next _ 0 _ _ (Z.le_refl 0) H) as H1.
  unfold parser.parsePackage, parser.bindM, parser.must.
  change (parser.cu_Ident (parser.unit (parser.set_index (0 + 1)
                                          (parser.New toks))))
    with "".
  cbn [String.eqb negb].
  rewrite (expectType_match (parser.New toks) (0 + 1) pn _ _
             ltac:(lia) H1)
    by (cbn [existsb]; now rewrite (is_type_eqb _ _ N)).
  set (q := parser.set_unit
              (parser.mkCompilationUnit (parser.StringVal pn) [] [])
              (parser.New toks)).
  change (parser.set_attributes _ _)
    with (parser.set_index (0 + 1 + 1) q).
  rewrite (ParseLoop_funcs M gs q (0 + 1 + 1) fuel); try assumption;
    try lia; try reflexivity.
  cbn [q parser.set_unit parser.unit parser.cu_Ident].
  destruct (String.eqb_spec (parser.StringVal pn) ""); congruence.
Qed.

Lemma X30_Parse_unit_of_functions_witness :
  parser.Parse 7
    (parser.New (kw parser.KeywordPackage :: tid "main"
                   :: List.concat (map sf_tokens [sample_f; sample_g])))
  = (parser.mkCompilationUnit "main" [] (map sf_def [sample_f; sample_g]),
     EOF).
Proof.
  apply (X30_Parse_unit_of_functions
           (kw parser.KeywordPackage) (tid "main") [sample_f; sample_g]
           1 7); try reflexivity.
  - discriminate.
  - apply Forall_cons; [|apply Forall_cons; [|apply Forall_nil]].
    + unfold sf_ok. repeat (split; [reflexivity|]).
      split; [exact declares_void|]. repeat (split; [reflexivity|]).
      reflexivity.
    + unfold sf_ok. repeat (split; [reflexivity|]).
      split;
        [exact (declares_type (tk parser.TypeArrow) []
                              (kw parser.KeywordVoid)
                              (parser.TypeOf ast.TypeVoid)
                              eq_refl eq_refl eq_refl eq_refl)|].
      repeat (split; [reflexivity|]). reflexivity.
  - apply Forall_cons; [cbn; lia|apply Forall_cons; [cbn; lia|]].
    apply Forall_nil.
Defined.
